(** * yt-dlp-helper: the process controller ([Terminal]) and its consumers

    A shallow embedding of [src/helpers/terminal.ts], of the regular
    expressions of [src/helpers/constants.ts] and of
    [downloadValueSelector] of [src/yt-dlp-helper.ts], with the properties
    of the specification stated over it.

    Conventions of the embedding.
    - JavaScript numbers that hold millisecond timestamps, delays, exit
      codes and pids are integers ([Z]).
    - A JavaScript string is a list of UTF-16 code units ([jsstring]);
      identifiers and property names, which are ASCII, are [string].
    - An object has an identity: controllers live in a heap (a list) and
      are referred to by their index; the registry [Terminal.#all] maps an
      identifier to such a reference.
    - Asynchronous code is cut at its suspension points: every event
      handler and every synchronous stretch of a method is a function on
      the state, and the event loop is a sequence of events.
    - Time is what [Date.now()] reads; a timer fires exactly when it is
      due. What the outside world decides (random bytes, whether a spawn
      fails and when, whether a signal is sent) is an argument. *)

From Stdlib Require Import ZArith NArith List Bool Lia.
From Stdlib Require Import Strings.String Strings.Ascii Strings.Byte.
From stdpp Require Import base option list gmap strings fin_maps.

Local Open Scope Z_scope.

(** ** JavaScript values *)

Module JS.

(** A string as JavaScript has it: a sequence of 16-bit code units. *)
Definition jsstring := list N.

(** The code units of an ASCII literal. *)
Definition lit (s : string) : jsstring :=
  map N_of_ascii (list_ascii_of_string s).

(** The values that flow through the controller ([any] in the source). *)
#[local] Set Warnings "-register-all".
Inductive jsval :=
| JUndefined
| JNull
| JBool (b : bool)
| JNum (n : Z)
| JStr (s : jsstring)
| JObj (fields : list (string * jsval)).

(** [v == null]: true of [null] and of [undefined], of nothing else. *)
Definition nullish (v : jsval) : bool :=
  match v with
  | JUndefined | JNull => true
  | _ => false
  end.

(** A property read [o.k] of an object; a missing property reads as
    [undefined]. *)
Fixpoint assoc (k : string) (fs : list (string * jsval)) : jsval :=
  match fs with
  | [] => JUndefined
  | (k', v) :: fs' => if String.eqb k k' then v else assoc k fs'
  end.

(** The guarded read [o?.k]: of an object, its property; of anything
    else in the model, [undefined]. (An unguarded read [o.k] of [null] or
    [undefined] throws.) *)
Definition get (o : jsval) (k : string) : jsval :=
  match o with
  | JObj fs => assoc k fs
  | _ => JUndefined
  end.

(** [Buffer.toString('hex')]: two lower-case digits per byte. *)
Definition hex_digit (n : N) : ascii :=
  if (n <? 10)%N then ascii_of_N (48 + n) else ascii_of_N (87 + n).

Fixpoint toString_hex (bs : list Byte.byte) : string :=
  match bs with
  | [] => EmptyString
  | b :: bs' =>
      let n := Byte.to_N b in
      String (hex_digit (n / 16)) (String (hex_digit (n mod 16)) (toString_hex bs'))
  end.

Definition is_hex (a : ascii) : bool :=
  let n := N_of_ascii a in
  ((48 <=? n) && (n <=? 57) || (97 <=? n) && (n <=? 102))%N.

Fixpoint all_hex (s : string) : bool :=
  match s with
  | EmptyString => true
  | String a s' => is_hex a && all_hex s'
  end.

(** The own properties of [Object.prototype]: a plain object literal [{}]
    used as a map answers a read of one of these keys with the inherited
    member, not with [undefined]. *)
Definition Object_prototype_keys : list string :=
  [ "constructor"; "__proto__"; "hasOwnProperty"; "isPrototypeOf";
    "propertyIsEnumerable"; "toLocaleString"; "toString"; "valueOf";
    "__defineGetter__"; "__defineSetter__"; "__lookupGetter__";
    "__lookupSetter__" ]%string.

End JS.

Import JS.

(** ** The controller and the process-wide state *)

Module Controller.

(** A chunk of standard output, as the stream delivers it (a [Buffer]). *)
Definition chunk := list Byte.byte.

(** What the module state can tell of [process.stdout]. [slots] are the
    indexed own properties of the stream object: the listener registered
    for ['data'] is the function value [Array.prototype.push] read off
    [this.#data], and an emitter calls its listeners with [this] bound to
    the emitter, so the generic [push] appends to the stream object. *)
Record Readable := {
  slots : list chunk;
}.

(** The [ChildProcess] handle, with the members the source reads. [closed]
    is the runtime's own record that ['close'] was emitted: it is emitted
    at most once for a child process. [exited] is the runtime's record
    that the process has ended (its [exitCode] or [signalCode] is set and
    ['exit'] was emitted); ['close'] comes only later, when the streams
    of the process are closed too. Nothing in the source reads [exited]
    or listens to ['exit']. *)
Record ChildProcess := {
  pid : option Z;
  killed : bool;
  stdout : option Readable;
  closed : bool;
  exited : bool;
}.

(** The private fields of [Terminal]. [valueSelector] returns [None] when
    the function throws. *)
Record Terminal := {
  id : string;
  process : ChildProcess;
  data : list chunk;
  running : bool;
  valueSelector : option (jsstring -> option jsval);
  exitCode : jsval;
  exitSignal : jsval;
}.

(** The static members of [Terminal] and the heap of its instances.
    [runIntervalMS] is a public static; nothing in the module assigns
    it. *)
Record World := {
  all : gmap string nat;
  lastRun : Z;
  runIntervalMS : Z;
  heap : list Terminal;
}.

Definition init : World :=
  {| all := ∅; lastRun := 0; runIntervalMS := 500; heap := [] |}.

Definition set_heap (h : list Terminal) (w : World) : World :=
  {| all := all w; lastRun := lastRun w; runIntervalMS := runIntervalMS w; heap := h |}.

Definition set_all (a : gmap string nat) (w : World) : World :=
  {| all := a; lastRun := lastRun w; runIntervalMS := runIntervalMS w; heap := heap w |}.

Definition set_lastRun (t : Z) (w : World) : World :=
  {| all := all w; lastRun := t; runIntervalMS := runIntervalMS w; heap := heap w |}.

(** [new Terminal(process, valueSelector)], given the sixteen bytes that
    [crypto.randomBytes(16)] returns. The exit fields have no initialiser:
    they read as [undefined] until the ['close'] handler assigns them. *)
Definition constructor (idbytes : list Byte.byte) (p : ChildProcess)
    (sel : option (jsstring -> option jsval)) (w : World) : nat * World :=
  let r := length (heap w) in
  let t := {| id := toString_hex idbytes;
              process := p;
              data := [];
              running := true;
              valueSelector := sel;
              exitCode := JUndefined;
              exitSignal := JUndefined |} in
  (r, set_all (<[id t := r]> (all w)) (set_heap (heap w ++ [t]) w)).

(** [Array.prototype.push.call(receiver, c)] with the stream as receiver. *)
Definition push_on_stream (c : chunk) (s : Readable) : Readable :=
  {| slots := slots s ++ [c] |}.

Definition set_process (p : ChildProcess) (t : Terminal) : Terminal :=
  {| id := id t; process := p; data := data t; running := running t;
     valueSelector := valueSelector t; exitCode := exitCode t;
     exitSignal := exitSignal t |}.

(** The listener of [stdout]'s ['data']: [this.#data] is not its receiver
    and stays as it is. *)
Definition on_data (c : chunk) (t : Terminal) : Terminal :=
  let p := process t in
  set_process {| pid := pid p; killed := killed p;
                 stdout := push_on_stream c <$> stdout p;
                 closed := closed p; exited := exited p |} t.

(** The listener of the process's ['close']. *)
Definition on_close (code signal : jsval) (r : nat) (w : World) : World :=
  match heap w !! r with
  | None => w
  | Some t =>
      let p := process t in
      let t' := {| id := id t;
                   process := {| pid := pid p; killed := killed p;
                                 stdout := stdout p; closed := true;
                                 exited := exited p |};
                   data := data t;
                   running := false;
                   valueSelector := valueSelector t;
                   exitCode := code;
                   exitSignal := signal |} in
      set_all (delete (id t) (all w)) (set_heap (<[r := t']> (heap w)) w)
  end.

(** [Terminal.fromID]: the property read [Terminal.#all[id]]. *)
Inductive lookup_result :=
| Found (r : nat)
| Inherited
| NotFound.

Definition fromID (i : string) (w : World) : lookup_result :=
  match all w !! i with
  | Some r => Found r
  | None => if bool_decide (i ∈ Object_prototype_keys) then Inherited else NotFound
  end.

(** What [kill] asks of the outside world. *)
Inductive effect :=
| TreeKill (pid : Z) (signal : string)
| ProcessKill (signal : string)
| ConsoleDebug (id : string).

(** [os.platform()] and [Config.log]. *)
Record Env := {
  platform : string;
  log : bool;
}.

(** [ChildProcess.kill(signal)] reports whether the signal was sent, and
    raises the handle's [killed] flag only then. [treeKill(pid, signal)]
    is handed a pid, not the handle: it leaves [killed] alone. *)
Definition process_kill (sent : bool) (p : ChildProcess) : ChildProcess :=
  {| pid := pid p; killed := killed p || sent; stdout := stdout p; closed := closed p;
     exited := exited p |}.

Definition kill (env : Env) (sent : bool) (signal : string) (t : Terminal)
    : Terminal * list effect :=
  if negb (running t) then (t, [])
  else if killed (process t) then (t, [])
  else
    let dbg := if log env then [ConsoleDebug (id t)] else [] in
    if String.eqb (platform env) "win32" then
      match pid (process t) with
      | None => (t, [])
      | Some p => (t, TreeKill p signal :: dbg)
      end
    else (set_process (process_kill sent (process t)) t, ProcessKill signal :: dbg).

(** The rate-limit gate of [Terminal.new] (lines 252-270), which runs
    before the call first suspends: the new state and, when the call has
    to wait, for how long. *)
Definition gate (now : Z) (w : World) : World * option Z :=
  let nextRun := lastRun w + runIntervalMS w in
  if nextRun >? now
  then (set_lastRun nextRun w, Some (nextRun - now))
  else (set_lastRun now w, None).

(** *** The event loop

    What can happen to the module state between two suspension points. An
    event that the runtime cannot deliver (an unknown controller, a second
    ['close'], output after ['close'], an identifier that is not sixteen
    bytes) has no successor. [Launch] is a call of [Terminal.new] passing
    the gate; [Construct] is [new Terminal] on a freshly spawned handle.
    The ['error'] listeners that [Terminal.new] leaves behind assign a
    local of the finished call or reject a promise that is already
    settled: they do not touch the state. While nothing iterates the
    stream, a chunk is handed to the ['data'] listener and is gone from
    the stream: [StdoutData] is such a chunk. [Exit] is the end of the
    process as the runtime sees it, before the ['close'] that follows
    once its streams are closed: no listener of the source hears it. *)
Inductive event :=
| Launch (now : Z)
| Construct (idbytes : list Byte.byte) (pid : option Z)
            (sel : option (jsstring -> option jsval))
| StdoutData (r : nat) (c : chunk)
| Close (r : nat) (code signal : jsval)
| ProcessError (r : nat)
| StdoutError (r : nat)
| Kill (env : Env) (sent : bool) (signal : string) (r : nat)
| Exit (r : nat).

(** The runtime's record of the end of the process. *)
Definition process_exit (p : ChildProcess) : ChildProcess :=
  {| pid := pid p; killed := killed p; stdout := stdout p; closed := closed p;
     exited := true |}.

(** The handle [child_process.spawn] returns with
    [stdio: ['ignore', 'pipe', 'ignore']]. *)
Definition spawned (pid : option Z) : ChildProcess :=
  {| pid := pid; killed := false; stdout := Some {| slots := [] |}; closed := false;
     exited := false |}.

Definition step (w : World) (e : event) : option World :=
  match e with
  | Launch now => Some (fst (gate now w))
  | Construct idbytes pid sel =>
      if bool_decide (length idbytes = 16%nat)
      then Some (snd (constructor idbytes (spawned pid) sel w))
      else None
  | StdoutData r c =>
      t ← heap w !! r;
      if closed (process t) then None
      else Some (set_heap (<[r := on_data c t]> (heap w)) w)
  | Close r code signal =>
      t ← heap w !! r;
      if closed (process t) then None else Some (on_close code signal r w)
  | ProcessError r | StdoutError r =>
      t ← heap w !! r;
      Some w
  | Kill env sent signal r =>
      t ← heap w !! r;
      Some (set_heap (<[r := fst (kill env sent signal t)]> (heap w)) w)
  | Exit r =>
      t ← heap w !! r;
      if closed (process t) then None
      else if exited (process t) then None
      else Some (set_heap (<[r := set_process (process_exit (process t)) t]> (heap w)) w)
  end.

Fixpoint run (w : World) (evs : list event) : option World :=
  match evs with
  | [] => Some w
  | e :: evs' => w' ← step w e; run w' evs'
  end.

Inductive reachable : World -> Prop :=
| reachable_init : reachable init
| reachable_step w e w' : reachable w -> step w e = Some w' -> reachable w'.

(** The identifiers of all controllers ever constructed, oldest first. *)
Definition ids (w : World) : list string := id <$> heap w.

(** The ['close'] events of controller [r] in a history. *)
Definition is_close_of (r : nat) (e : event) : bool :=
  match e with
  | Close r' _ _ => Nat.eqb r r'
  | _ => false
  end.

Definition closes_of (r : nat) (evs : list event) : list event :=
  List.filter (is_close_of r) evs.

End Controller.

(** ** The launch governor: [Terminal.new] *)

Module Governor.
Import Controller.

(** How one pass through the body of the [try] ends. *)
Inductive outcome :=
| SpawnThrows              (* [child_process.spawn] throws *)
| EarlyError (after : Z)   (* an ['error'] event, [after] ms after the spawn *)
| Settles.                 (* no ['error'] before the settle timer *)

(** What the outside world answers to the [i]-th attempt: how it ends,
    the random bytes of the identifier and the pid of the handle. *)
Record attempt := {
  outcome_of : outcome;
  idbytes_of : list Byte.byte;
  pid_of : option Z;
}.

(** The argument object of [Terminal.new]. *)
Record Params := {
  command : string;
  args : list string;
  selector : option (jsstring -> option jsval);
  tryCount : Z;
  retryIntervalMS : Z;
  intermissionMS : Z;
}.

(** The defaults of the destructuring pattern. *)
Definition defaults (command : string) (args : list string) : Params :=
  {| command := command; args := args; selector := None;
     tryCount := 10; retryIntervalMS := 500; intermissionMS := 1000 |}.

Inductive debug_msg :=
| RanTooEarly (sleepTime : Z)
| Running (command : string) (args : list string)
| AnErrorOccurred.

(** What a call does that can be seen from outside, in order. [Spawn t] is
    a call of [child_process.spawn] at time [t]; [Sleep ms] is a
    [setTimeout] of [ms] that the call awaits. *)
Inductive tev :=
| Debug (m : debug_msg)
| Sleep (ms : Z)
| Spawn (at_time : Z).

Definition debug (env : Env) (m : debug_msg) : list tev :=
  if log env then [Debug m] else [].

(** A timer that fires exactly when it is due. *)
Definition elapse (clock ms : Z) : Z := clock + Z.max 0 ms.

(** An attempt fails when [spawn] throws or when the error comes before
    the settle timer. *)
Definition fails (ps : Params) (o : outcome) : bool :=
  match o with
  | SpawnThrows => true
  | EarlyError d => d <? intermissionMS ps
  | Settles => false
  end.

(** The [for] loop (lines 277-321), [fuel] iterations from index [i]. *)
Fixpoint attempts (env : Env) (ps : Params) (oracle : nat -> attempt)
    (fuel i : nat) (clock : Z) (w : World) : option nat * World * list tev :=
  match fuel with
  | O => (None, w, [])
  | S fuel' =>
      let a := oracle i in
      let retry clock' w' :=
        let '(res, w'', tr) :=
          attempts env ps oracle fuel' (S i)
                   (elapse clock' (retryIntervalMS ps)) w' in
        (res, w'',
         Spawn clock :: debug env AnErrorOccurred
           ++ Sleep (retryIntervalMS ps) :: tr) in
      match outcome_of a with
      | SpawnThrows => retry clock w
      | EarlyError d =>
          let '(r, w') :=
            constructor (idbytes_of a) (spawned (pid_of a)) (selector ps) w in
          if d <? intermissionMS ps then retry (elapse clock d) w'
          else (Some r, w', [Spawn clock])
      | Settles =>
          let '(r, w') :=
            constructor (idbytes_of a) (spawned (pid_of a)) (selector ps) w in
          (Some r, w', [Spawn clock])
      end
  end.

(** [Terminal.new], called at time [now]. *)
Definition new (env : Env) (now : Z) (ps : Params) (oracle : nat -> attempt)
    (w : World) : option nat * World * list tev :=
  let '(w1, wait) := gate now w in
  let before :=
    match wait with
    | Some sleepTime => debug env (RanTooEarly sleepTime) ++ [Sleep sleepTime]
    | None => []
    end ++ debug env (Running (command ps) (args ps)) in
  let start :=
    match wait with
    | Some sleepTime => elapse now sleepTime
    | None => now
    end in
  let '(res, w2, tr) :=
    attempts env ps oracle (Z.to_nat (tryCount ps)) 0 start w1 in
  (res, w2, before ++ tr).

(** The time at which a call that passes the gate at [now] starts its
    loop. *)
Definition launch_time (now : Z) (w : World) : Z :=
  match snd (gate now w) with
  | Some sleepTime => elapse now sleepTime
  | None => now
  end.

Definition result_of (x : option nat * World * list tev) : option nat := fst (fst x).
Definition world_of (x : option nat * World * list tev) : World := snd (fst x).
Definition trace_of (x : option nat * World * list tev) : list tev := snd x.

(** The times at which a trace calls [child_process.spawn]. *)
Fixpoint spawn_times (tr : list tev) : list Z :=
  match tr with
  | [] => []
  | Spawn t :: tr' => t :: spawn_times tr'
  | _ :: tr' => spawn_times tr'
  end.

(** The delays a trace awaits. *)
Fixpoint sleeps (tr : list tev) : list Z :=
  match tr with
  | [] => []
  | Sleep ms :: tr' => ms :: sleeps tr'
  | _ :: tr' => sleeps tr'
  end.

(** The delays a trace awaits before it first spawns. *)
Fixpoint waited_before_spawn (tr : list tev) : list Z :=
  match tr with
  | [] => []
  | Spawn _ :: _ => []
  | Sleep ms :: tr' => ms :: waited_before_spawn tr'
  | Debug _ :: tr' => waited_before_spawn tr'
  end.

(** A [Spawn] that is not the first of its trace comes after a
    [Sleep retry] that follows the [Spawn] before it. [slept] tells
    whether the wait has been seen since the last [Spawn]. *)
Fixpoint waits_between (retry : Z) (slept : bool) (tr : list tev) : bool :=
  match tr with
  | [] => true
  | Spawn _ :: tr' => slept && waits_between retry false tr'
  | Sleep ms :: tr' => waits_between retry (slept || (ms =? retry)) tr'
  | Debug _ :: tr' => waits_between retry slept tr'
  end.

(** Each time of a list is at least [gap] after the one before it. *)
Fixpoint gaps (gap : Z) (ts : list Z) : Prop :=
  match ts with
  | t1 :: (t2 :: _) as ts' => t1 + gap <= t2 /\ gaps gap ts'
  | _ => True
  end.

(** One call: when it is made, its arguments, and what the outside world
    answers to its attempts. *)
Record call := {
  now_of : Z;
  params_of : Params;
  oracle_of : nat -> attempt;
}.

(** A series of calls in the order in which they pass the gate: the spawn
    times of each. Only the gate reads or writes [lastRun], and it runs
    before the call first suspends, so each call finds the [lastRun] that
    the gate of the call before it left, wherever that call has got to. *)
Fixpoint calls (env : Env) (cs : list call) (w : World) : list (list Z) :=
  match cs with
  | [] => []
  | c :: cs' =>
      let x := new env (now_of c) (params_of c) (oracle_of c) w in
      spawn_times (trace_of x) :: calls env cs' (world_of x)
  end.

(** The first spawn of each call that spawns at all. *)
Definition first_launches (env : Env) (cs : list call) (w : World) : list Z :=
  omap head (calls env cs w).

(** The claim that all spawns of any two calls are [gap] apart. *)
Definition all_spawns_apart (gap : Z) (tss : list (list Z)) : Prop :=
  forall i j ts ts' t t',
    i <> j -> tss !! i = Some ts -> tss !! j = Some ts' ->
    t ∈ ts -> t' ∈ ts' -> gap <= Z.abs (t - t').

(** Any two launch times of a list, an earlier and a later one, are at
    least [gap] apart. *)
Fixpoint spaced (gap : Z) (ts : list Z) : Prop :=
  match ts with
  | [] => True
  | t :: ts' => Forall (fun t' => t + gap <= t') ts' /\ spaced gap ts'
  end.

End Governor.

(** ** Reading the output: [listen] *)

Module Stream.
Import Controller.

(** What happens on [process.stdout] once the iteration has begun. *)
Inductive stream_event :=
| Chunk (c : chunk)
| End
| Error.

(** How far a generator got when its input is used up. *)
Inductive completion := Returned | Threw | Suspended.

(** [for await (const bytes of this.#process.stdout)]: the chunks up to
    the end of the stream (the loop ends) or up to an error (the iterator
    rejects and the loop throws); what comes after is not read. *)
Fixpoint drain (live : list stream_event) : list chunk * completion :=
  match live with
  | [] => ([], Suspended)
  | Chunk c :: live' => let '(cs, k) := drain live' in (c :: cs, k)
  | End :: _ => ([], Returned)
  | Error :: _ => ([], Threw)
  end.

Section Listen.

(** [Buffer.from(bytes).toString('utf-8')]. *)
Variable toString_utf8 : chunk -> jsstring.

(** [#listen] (lines 150-164): the buffer [#data], then the stream. *)
Definition listen_raw (t : Terminal) (live : list stream_event)
    : list jsstring * completion :=
  let buffered := toString_utf8 <$> data t in
  match stdout (process t) with
  | None => (buffered, Returned)
  | Some _ =>
      let '(cs, k) := drain live in
      (buffered ++ (toString_utf8 <$> cs), k)
  end.

(** The body of the loop of [listen] with a selector: its result is
    yielded as it is; a selector that throws ends the generator. *)
Fixpoint select (f : jsstring -> option jsval) (texts : list jsstring)
    (c : completion) : list jsval * completion :=
  match texts with
  | [] => ([], c)
  | text :: texts' =>
      match f text with
      | None => ([], Threw)
      | Some v => let '(vs, c') := select f texts' c in (v :: vs, c')
      end
  end.

(** [listen] (lines 175-186): everything it yields when it is consumed
    to the end of [live], and how it stops. What [console.debug] prints
    is not part of the sequence. *)
Definition listen (t : Terminal) (live : list stream_event)
    : list jsval * completion :=
  let '(texts, c) := listen_raw t live in
  match valueSelector t with
  | Some f => select f texts c
  | None => (JStr <$> texts, c)
  end.

(** The sequence the specification describes for a transform: [stop]
    ends it, [value] is yielded, anything else is dropped. *)
Fixpoint spec_select (f : jsstring -> option jsval) (texts : list jsstring)
    (c : completion) : list jsval * completion :=
  match texts with
  | [] => ([], c)
  | text :: texts' =>
      match f text with
      | None => ([], Threw)
      | Some v =>
          match get v "stop" with
          | JBool true => ([], Returned)
          | _ =>
              let '(vs, c') := spec_select f texts' c in
              match get v "value" with
              | JUndefined => (vs, c')
              | x => (x :: vs, c')
              end
          end
      end
  end.

(** The chunks of [pre] arrive, one ['data'] event each, before anything
    iterates. *)
Definition arrive (pre : list chunk) (r : nat) (w : World) : option World :=
  run w (StdoutData r <$> pre).

(** [listen] on controller [r] of a state. *)
Definition listen_at (r : nat) (w : World) (live : list stream_event)
    : option (list jsval * completion) :=
  t ← heap w !! r; Some (listen t live).

End Listen.

(** A decoder for chunks of ASCII bytes; other bytes read as U+FFFD. *)
Definition ascii_text (c : chunk) : jsstring :=
  (fun b => let n := Byte.to_N b in if (n <? 128)%N then n else 65533%N) <$> c.

End Stream.

(** ** Regular expressions, as far as [constants.ts] uses them *)

Module Regex.

(** The patterns of the source are built from [^], single characters
    (under the [i] flag), [\s], [.], sequencing, one capturing group and
    greedy [*] and [+] over a single character class. *)
Inductive regex :=
| Eps
| Bol
| Class (p : N -> bool)
| Seq (r1 r2 : regex)
| Star (p : N -> bool)
| Plus (p : N -> bool)
| Group (r : regex).

(** [Canonicalize] without the [u] flag, on what it does to the ASCII
    range: lower-case letters go to upper case. A code unit of 128 or more
    never canonicalizes to an ASCII one. *)
Definition canonicalize (c : N) : N :=
  if ((97 <=? c) && (c <=? 122))%N then (c - 32)%N else c.

(** A literal ASCII character under [/i]. *)
Definition char_i (a : ascii) : N -> bool :=
  fun c => ((c <? 128) && (canonicalize c =? canonicalize (N_of_ascii a)))%N.

(** [\s]: WhiteSpace and LineTerminator. *)
Definition white (c : N) : bool :=
  ((9 <=? c) && (c <=? 13) || (c =? 32) || (c =? 160) || (c =? 5760)
   || (8192 <=? c) && (c <=? 8202) || (c =? 8232) || (c =? 8233)
   || (c =? 8239) || (c =? 8287) || (c =? 12288) || (c =? 65279))%N.

(** [.] without the [s] flag: anything but a LineTerminator. *)
Definition dot (c : N) : bool :=
  negb ((c =? 10) || (c =? 13) || (c =? 8232) || (c =? 8233))%N.

(** A literal text under [/i], character by character. *)
Fixpoint text_i (s : string) (rest : regex) : regex :=
  match s with
  | EmptyString => rest
  | String a s' => Seq (Class (char_i a)) (text_i s' rest)
  end.

(** The state of a match attempt: how many code units are consumed, what
    is left, and the captures so far. *)
Definition cont (A : Type) := nat -> JS.jsstring -> list JS.jsstring -> option A.

(** Greedy repetition with backtracking: as many as possible first, then
    one fewer each time the rest of the pattern fails. *)
Fixpoint star {A} (p : N -> bool) (pos : nat) (s : JS.jsstring)
    (caps : list JS.jsstring) (k : cont A) : option A :=
  match s with
  | c :: s' =>
      if p c then
        match star p (S pos) s' caps k with
        | Some x => Some x
        | None => k pos s caps
        end
      else k pos s caps
  | [] => k pos s caps
  end.

Fixpoint matcher {A} (r : regex) (pos : nat) (s : JS.jsstring)
    (caps : list JS.jsstring) (k : cont A) : option A :=
  match r with
  | Eps => k pos s caps
  | Bol => if Nat.eqb pos 0 then k pos s caps else None
  | Class p =>
      match s with
      | c :: s' => if p c then k (S pos) s' caps else None
      | [] => None
      end
  | Seq r1 r2 =>
      matcher r1 pos s caps (fun pos' s' caps' => matcher r2 pos' s' caps' k)
  | Star p => star p pos s caps k
  | Plus p =>
      match s with
      | c :: s' => if p c then star p (S pos) s' caps k else None
      | [] => None
      end
  | Group r' =>
      matcher r' pos s caps
        (fun pos' s' caps' => k pos' s' (caps' ++ [take (pos' - pos) s]))
  end.

(** The array [exec] returns: where the match starts, the matched text
    and the captures ([m[1]] is the first of [groups]). *)
Record match_result := {
  index : nat;
  whole : JS.jsstring;
  groups : list JS.jsstring;
}.

Definition match_at (r : regex) (pos : nat) (s : JS.jsstring)
    : option match_result :=
  matcher r pos s []
    (fun pos' _ caps =>
       Some {| index := pos; whole := take (pos' - pos) s; groups := caps |}).

(** [RegExp.prototype.exec] for a pattern without [g] or [y]: the first
    start index, from 0, at which the pattern matches. *)
Fixpoint scan (r : regex) (pos : nat) (s : JS.jsstring) : option match_result :=
  match match_at r pos s with
  | Some m => Some m
  | None =>
      match s with
      | [] => None
      | _ :: s' => scan r (S pos) s'
      end
  end.

Definition exec (r : regex) (s : JS.jsstring) : option match_result := scan r 0 s.

(** [m[1]]. *)
Definition group1 (m : match_result) : JS.jsstring :=
  match groups m with
  | g :: _ => g
  | [] => []
  end.

(** [/^\[progress\]\s+(.+)/i] *)
Definition DOWNLOAD_PROGRESS_RE : regex :=
  Seq Bol (text_i "[progress]" (Seq (Plus white) (Group (Plus dot)))).

(** [/^\[download\]\s*.+\s*has already been downloaded/i] *)
Definition ALREADY_DOWNLOADED_RE : regex :=
  Seq Bol
    (text_i "[download]"
       (Seq (Star white)
          (Seq (Plus dot)
             (Seq (Star white) (text_i "has already been downloaded" Eps))))).

End Regex.

(** ** The progress-decoding transform *)

Module Selector.
Import Regex.

Section WithJSON.

(** [JSON.parse]; [None] when it throws. *)
Variable JSON_parse : jsstring -> option jsval.

(** [downloadValueSelector] (yt-dlp-helper.ts, lines 184-202); [None]
    when it throws. *)
Definition downloadValueSelector (text : jsstring) : option jsval :=
  match exec ALREADY_DOWNLOADED_RE text with
  | Some _ => Some (JObj [("stop"%string, JBool true)])
  | None =>
      match exec DOWNLOAD_PROGRESS_RE text with
      | None => Some JNull
      | Some progress =>
          data ← JSON_parse (group1 progress);
          Some (JObj [("data"%string, data)])
      end
  end.

End WithJSON.

(** A stand-in for [JSON.parse] that knows two texts. *)
Definition parse_sample (s : jsstring) : option jsval :=
  if bool_decide (s = lit "{" ++ [34%N] ++ lit "a" ++ [34%N] ++ lit ":1}")
  then Some (JObj [("a"%string, JNum 1)])
  else if bool_decide (s = lit "null") then Some JNull
  else None.

End Selector.

(** ** Text: what the callers do to the strings they read *)

Module Text.
Import Regex.

(** [String.prototype.trim] strips WhiteSpace and LineTerminator code
    units, the set [\s] stands for, from both ends. *)
Fixpoint trimStart (s : jsstring) : jsstring :=
  match s with
  | c :: s' => if white c then trimStart s' else s
  | [] => []
  end.

Definition trimEnd (s : jsstring) : jsstring := rev (trimStart (rev s)).

Definition trim (s : jsstring) : jsstring := trimEnd (trimStart s).

(** [ToBoolean]. Numbers of the model are integers, so there is no
    [NaN]. *)
Definition truthy (v : jsval) : bool :=
  match v with
  | JUndefined | JNull => false
  | JBool b => b
  | JNum n => negb (n =? 0)
  | JStr s => match s with [] => false | _ => true end
  | JObj _ => true
  end.

(** How an awaited call ends. *)
Inductive outcome (A : Type) :=
| Value (a : A)
| Throws
| Pending.

Arguments Value {A} a.
Arguments Throws {A}.
Arguments Pending {A}.

End Text.

(** ** [helpers/utils.ts]: argument lists *)

Module Utils.

(** [BASE_ARGS] of [constants.ts]. *)
Definition BASE_ARGS : list string :=
  [ "--no-warnings"; "--progress"; "--newline"; "--color"; "never";
    "--progress-template"; "[progress] %(progress)j" ]%string.

(** The interface [Args]. An optional member that is left out is
    [None]. *)
Record Args := {
  url : string;
  output : option string;
  videoFormat : option string;
  audioFormat : option string;
  audioQuality : option string;
  remuxVideo : option string;
  limitRate : option string;
  cookiesFromBrowser : option string;
}.

(** [if (x) args.push(flag..., x)]: a member that is missing or the empty
    string is falsy. *)
Definition push_if (flags : list string) (x : option string) : list string :=
  match x with
  | Some (String c s) => flags ++ [String c s]
  | _ => []
  end.

(** [getArgs]. *)
Definition getArgs (a : Args) : list string :=
  (url a :: BASE_ARGS)
    ++ push_if ["-o"%string] (output a)
    ++ push_if ["--format"%string] (videoFormat a)
    ++ push_if ["-x"; "--audio-format"]%string (audioFormat a)
    ++ push_if ["--audio-quality"%string] (audioQuality a)
    ++ push_if ["--remux-video"%string] (remuxVideo a)
    ++ push_if ["-r"%string] (limitRate a)
    ++ push_if ["--cookies-from-browser"%string] (cookiesFromBrowser a).

(** The interface [MetadataOptions]. *)
Record MetadataOptions := {
  meta_cookiesFromBrowser : option string;
  userAgent : option string;
}.

(** [getMetadataArgs(options?)]; [None] is [null] or [undefined], where
    [options?.x] reads [undefined]. *)
Definition getMetadataArgs (options : option MetadataOptions) : list string :=
  push_if ["--cookies-from-browser"%string] (options ≫= meta_cookiesFromBrowser)
    ++ push_if ["--user-agent"%string] (options ≫= userAgent).

(** How many of a list of optional members are truthy. *)
Definition present (x : option string) : nat :=
  match x with
  | Some (String _ _) => 1
  | _ => 0
  end.

End Utils.

(** ** [helpers/yt-dlp-downloader.ts] *)

Module Downloader.
Import Controller Text.

Definition YT_DLP_FILE_NAME : string := "yt-dlp".

(** [getYTDLPFileName(platform)]. *)
Definition getYTDLPFileName (platform : string) : string :=
  if String.eqb platform "win32" then YT_DLP_FILE_NAME +:+ ".exe"
  else if String.eqb platform "linux" then YT_DLP_FILE_NAME +:+ "_linux"
  else if String.eqb platform "darwin" then YT_DLP_FILE_NAME +:+ "_macos"
  else YT_DLP_FILE_NAME.

(** [getYTDLPFilePath(binaryFilePath)]; the default platform is
    [os.platform()]. *)
Definition getYTDLPFilePath (env : Env) (binaryFilePath : option string) : string :=
  match binaryFilePath with
  | Some (String c s) => String c s
  | _ => "./" +:+ getYTDLPFileName (platform env)
  end.

(** *** The release feed *)

(** How the promise of [getGithubReleases] ends. It resolves with the
    parsed body of a response with status 200, here the [tag_name] of
    each release, [None] where a release has none or one that is no
    string (a body that is no array reads like a list without tags). It
    rejects on another status and on an ['error'] of the response. It
    stays pending where the request itself fails, to which nothing
    listens, and where [JSON.parse] throws inside the ['end'] listener:
    the exception is then not the promise's. *)
Definition releases := outcome (list (option jsstring)).

(** [releases[0].tag_name.trim()]: throws on an empty list and on a
    missing tag. *)
Definition first_tag (rs : list (option jsstring)) : outcome jsstring :=
  match rs with
  | Some tag :: _ => Value (trim tag)
  | _ => Throws
  end.

(** The body of the [try] of [getLatestYTDLPVersion]. *)
Definition latest_body (feed : releases) : outcome jsval :=
  match feed with
  | Throws => Throws
  | Pending => Pending
  | Value rs =>
      match rs with
      | [] => Value JNull
      | _ =>
          match first_tag rs with
          | Value tag => Value (JStr tag)
          | Throws => Throws
          | Pending => Pending
          end
      end
  end.

(** [getLatestYTDLPVersion]: the [catch] turns a throw into [null]. *)
Definition getLatestYTDLPVersion (feed : releases) : outcome jsval :=
  match latest_body feed with
  | Throws => Value JNull
  | o => o
  end.

(** The object [getLatestYTDLPVersionFromGitHub] resolves with. *)
Record report := {
  ok : bool;
  reported : option jsstring;
  message : jsstring;
}.

(** [getLatestYTDLPVersionFromGitHub] (yt-dlp-helper.ts); [detail] is
    what a caught error would say of itself. *)
Definition getLatestYTDLPVersionFromGitHub (detail : jsstring) (feed : releases)
    : outcome report :=
  match getLatestYTDLPVersion feed with
  | Value (JStr (c :: v)) =>
      Value {| ok := true; reported := Some (c :: v);
               message := lit "Latest yt-dlp version: " ++ c :: v |}
  | Value _ =>
      Value {| ok := false; reported := None;
               message := lit "Unable to retrieve the latest yt-dlp version from GitHub." |}
  | Throws =>
      Value {| ok := false; reported := None;
               message := lit "Error retrieving latest yt-dlp version: " ++ detail |}
  | Pending => Pending
  end.

(** *** Fetching a file *)

(** What the callback of [https.get] receives: the [Location] header, the
    status code, and whether the body arrives whole. *)
Record response := {
  location : option jsstring;
  statusCode : Z;
  body_arrives : bool;
}.

(** The network: the response to a GET, [None] when none comes. *)
Definition network := jsstring -> option response.

Inductive net_effect :=
| Get (url : jsstring)
| WriteFile (path : string) (from : jsstring).

(** How [downloadFile] ends: with the message of
    [processMessageToFile], resolved or rejected, with [null], never, or
    beyond the steps the model was given. *)
Inductive download_end :=
| Resolved (m : response)
| Rejected (m : response)
| RejectedBody
| ReturnedNull
| NeverSettles
| OutOfFuel.

(** [processMessageToFile]: the body is piped into the file whatever the
    status; the status decides how the promise settles once the file is
    finished. *)
Definition processMessageToFile (m : response) : download_end :=
  if body_arrives m then
    if statusCode m =? 200 then Resolved m else Rejected m
  else RejectedBody.

(** [downloadFile]: the [while (currentUrl)] loop, at most [fuel]
    requests. *)
Fixpoint downloadFile (fuel : nat) (net : network) (currentUrl : jsstring)
    (filePath : string) : download_end * list net_effect :=
  match currentUrl with
  | [] => (ReturnedNull, [])
  | _ =>
      match fuel with
      | O => (OutOfFuel, [])
      | S fuel' =>
          match net currentUrl with
          | None => (NeverSettles, [Get currentUrl])
          | Some message =>
              match location message with
              | Some (c :: l) =>
                  let '(e, effs) := downloadFile fuel' net (c :: l) filePath in
                  (e, Get currentUrl :: effs)
              | _ =>
                  (processMessageToFile message,
                   [Get currentUrl; WriteFile filePath currentUrl])
              end
          end
      end
  end.

(** The chain of redirects from a URL: each URL that is requested, in
    order, as far as [n] steps go. *)
Fixpoint chain (n : nat) (net : network) (u : jsstring) : list jsstring :=
  match n with
  | O => []
  | S n' =>
      match u with
      | [] => []
      | _ =>
          u :: match net u with
               | Some m =>
                   match location m with
                   | Some (c :: l) => chain n' net (c :: l)
                   | _ => []
                   end
               | None => []
               end
      end
  end.

(** *** Keeping the binary up to date *)

(** The static members of [Config] that [downloadYTDLP] uses. *)
Record Config := {
  ytdlpDownloadIntervalMS : Z;
  ytdlpLastDownloadMS : Z;
}.

Definition Config_init : Config :=
  {| ytdlpDownloadIntervalMS := 24 * 60 * 60 * 1000; ytdlpLastDownloadMS := 0 |}.

(** The argument object of [downloadYTDLP]. *)
Record DownloadOptions := {
  filePath : option string;
  version : option jsstring;
  for_platform : string;
  forceDownload : bool;
}.

(** What [downloadYTDLP] does, in order. [UseUpdater path] is the
    awaited call [updateYTDLP(path)]; [Download url path] is the awaited
    call [downloadFile(url, path)]. *)
Inductive step_taken :=
| TooEarly
| UseUpdater (path : string)
| AskReleases
| UpToDate
| Download (url : jsstring) (path : string).

(** How [downloadYTDLP] ends: it returns, the lookup of the latest
    release throws or never settles, or it ends as its [downloadFile]
    ends. *)
Inductive ytdlp_end :=
| Returns
| FeedThrows
| FeedPending
| FileEnds (e : download_end).

Definition truthy_text (o : option jsstring) : bool :=
  match o with
  | Some (_ :: _) => true
  | _ => false
  end.

(** [downloadYTDLP], given what [getYTDLPVersion()] returned
    ([currentVersion]), what [Date.now()] reads, what the release feed
    answers and the network. What [console.debug] prints is left out. *)
Definition downloadYTDLP (fuel : nat) (net : network) (o : DownloadOptions)
    (currentVersion : option jsstring) (nowMS : Z) (feed : releases)
    (cfg : Config) : Config * list step_taken * ytdlp_end :=
  if negb (forceDownload o)
     && (match currentVersion with Some _ => true | None => false end)
     && (nowMS - ytdlpLastDownloadMS cfg <? ytdlpDownloadIntervalMS cfg)
  then (cfg, [TooEarly], Returns)
  else
    let cfg' := {| ytdlpDownloadIntervalMS := ytdlpDownloadIntervalMS cfg;
                   ytdlpLastDownloadMS := nowMS |} in
    let fileName := getYTDLPFileName (for_platform o) in
    let path :=
      match filePath o with
      | Some (String c s) => String c s
      | _ => "./" +:+ fileName
      end in
    if negb (truthy_text (version o)) && truthy_text currentVersion
    then (cfg', [UseUpdater path], Returns)
    else
      let finish (asked : list step_taken) (v : jsstring) :=
        if negb (forceDownload o) && bool_decide (currentVersion = Some v)
        then (cfg', asked ++ [UpToDate], Returns)
        else
          let fileURL :=
            lit "https://github.com/yt-dlp/yt-dlp/releases/download/"
              ++ v ++ lit "/" ++ lit fileName in
          (cfg', asked ++ [Download fileURL path],
           FileEnds (fst (downloadFile fuel net fileURL path))) in
      match version o with
      | Some (c :: v) => finish [] (c :: v)
      | _ =>
          match feed with
          | Value rs =>
              match first_tag rs with
              | Value v => finish [AskReleases] v
              | _ => (cfg', [AskReleases], FeedThrows)
              end
          | Throws => (cfg', [AskReleases], FeedThrows)
          | Pending => (cfg', [AskReleases], FeedPending)
          end
      end.


End Downloader.

(** ** The callers of the controller *)

Module Consumers.
Import Controller Governor Stream Text Downloader.

(** The controller a call of [Terminal.new] resolved with, if any. *)
Definition the_terminal (x : option nat * World * list tev) : option (nat * Terminal) :=
  r ← result_of x; t ← heap (world_of x) !! r; Some (r, t).

(** *** [wait] *)

(** The promise of [wait] on a running controller resolves when the
    ['close'] of its process is delivered, after the handler of the
    constructor has run: the state then, and the events still to come.
    [None]: [evs] holds no such event. *)
Fixpoint await_close (r : nat) (w : World) (evs : list event)
    : option (World * list event) :=
  match evs with
  | [] => None
  | e :: evs' =>
      match step w e with
      | None => None
      | Some w' =>
          if is_close_of r e then Some (w', evs') else await_close r w' evs'
      end
  end.

(** [wait] (terminal.ts, lines 195-203). *)
Definition wait (r : nat) (w : World) (evs : list event)
    : option (World * list event) :=
  t ← heap w !! r;
  if negb (running t) then Some (w, evs) else await_close r w evs.


(** *** [getYTDLPVersion] *)

(** The loop of [getYTDLPVersion]: the first truthy value ends it, with
    a [kill] and then a [trim]; otherwise it ends as the generator
    ends. The flag tells whether [kill] was called. *)
Fixpoint version_loop (vs : list jsval) (c : completion) : outcome jsval * bool :=
  match vs with
  | [] =>
      (match c with
       | Returned => Value JNull
       | Threw => Throws
       | Suspended => Pending
       end, false)
  | text :: vs' =>
      if truthy text then
        (match text with
         | JStr s => Value (JStr (trim s))
         | _ => Throws
         end, true)
      else version_loop vs' c
  end.

Section Reading.

Variable toString_utf8 : chunk -> jsstring.

(** [getYTDLPVersion] (yt-dlp-downloader.ts, lines 223-244): what it
    resolves with, the state it leaves and what its [kill] asked for. *)
Definition getYTDLPVersion (env : Env) (sent : bool) (now : Z)
    (oracle : nat -> attempt) (binaryFilePath : option string) (w : World)
    (live : list stream_event) : outcome jsval * World * list effect :=
  let x := new env now (defaults (getYTDLPFilePath env binaryFilePath)
                          ["--version"%string]) oracle w in
  match the_terminal x with
  | None => (Value JNull, world_of x, [])
  | Some (r, t) =>
      let '(vs, c) := listen toString_utf8 t live in
      let '(res, killed) := version_loop vs c in
      if killed then
        (res,
         set_heap (<[r := fst (kill env sent "SIGTERM" t)]> (heap (world_of x)))
                  (world_of x),
         snd (kill env sent "SIGTERM" t))
      else (res, world_of x, [])
  end.

Section WithJSON.

Variable JSON_parse : jsstring -> option jsval.

(** The loop of [getPlaylistInfo] (yt-dlp-helper.ts, lines 158-177) on a
    controller without transform: each text is parsed on its own; a text
    that does not parse, or parses to something falsy, is passed over. *)
Fixpoint playlist_loop (texts : list jsstring) (c : completion)
    : outcome (bool * jsval) :=
  match texts with
  | [] =>
      match c with
      | Returned => Value (false, JUndefined)
      | Threw => Throws
      | Suspended => Pending
      end
  | text :: texts' =>
      match JSON_parse text with
      | Some data =>
          if truthy data then Value (true, data) else playlist_loop texts' c
      | None => playlist_loop texts' c
      end
  end.

(** [getPlaylistInfo] from the point where [invokeInternal] has
    resolved with [terminal]: the object [{ok, data}] it resolves with
    and what its [kill] asked for; [at_end] is the controller as it is
    when the loop ends. A throw inside the iteration leaves the function
    before [kill]. *)
Definition getPlaylistInfo_read (env : Env) (sent : bool)
    (terminal : option Terminal) (live : list stream_event) (at_end : Terminal)
    : outcome (bool * jsval) * list effect :=
  match terminal with
  | None => (Value (false, JUndefined), [])
  | Some t =>
      match playlist_loop (fst (listen_raw toString_utf8 t live))
                          (snd (listen_raw toString_utf8 t live)) with
      | Value v => (Value v, snd (kill env sent "SIGTERM" at_end))
      | o => (o, [])
      end
  end.




End WithJSON.
End Reading.

End Consumers.

(** ** The callers, from the moment the process is spawned

    [Terminal.new] resolves only when the settle time is over, and the
    callers begin to iterate after that. What happens to the process in
    between (it writes, it ends, it closes, somebody kills it) reaches
    the listeners of the constructor and nobody else; the rest of
    [Terminal.new] does not touch the state, so these events are applied
    to the state it leaves. *)

Module Arrival.
Import Controller Governor Stream Text Downloader Consumers.

Section Reading.

Variable toString_utf8 : chunk -> jsstring.

(** [getYTDLPVersion] where [evs] happen before the iteration begins.
    [None]: the events cannot happen. *)
Definition getYTDLPVersion_after (evs : list event) (env : Env) (sent : bool)
    (now : Z) (oracle : nat -> attempt) (binaryFilePath : option string)
    (w : World) (live : list stream_event)
    : option (outcome jsval * World * list effect) :=
  let x := new env now (defaults (getYTDLPFilePath env binaryFilePath)
                          ["--version"%string]) oracle w in
  match result_of x with
  | None => Some (Value JNull, world_of x, [])
  | Some r =>
      w1 ← run (world_of x) evs;
      t ← heap w1 !! r;
      Some (if snd (version_loop (fst (listen toString_utf8 t live))
                                 (snd (listen toString_utf8 t live)))
            then (fst (version_loop (fst (listen toString_utf8 t live))
                                    (snd (listen toString_utf8 t live))),
                  set_heap (<[r := fst (kill env sent "SIGTERM" t)]> (heap w1)) w1,
                  snd (kill env sent "SIGTERM" t))
            else (fst (version_loop (fst (listen toString_utf8 t live))
                                    (snd (listen toString_utf8 t live))),
                  w1, []))
  end.


Section WithJSON.

Variable JSON_parse : jsstring -> option jsval.


End WithJSON.
End Reading.

(** A process that writes a chunk at once, ends and closes. *)
Definition writes_and_closes (r : nat) (c : chunk) : list event :=
  [StdoutData r c; Exit r; Close r (JNum 0) JNull].

End Arrival.

(** ** [Terminal.new] and the ['close'] events that arrive while it runs *)

Module Settling.
Import Controller Governor.

(** What the runtime delivers of the ['close'] of the process of attempt
    [i] while the call is still busy with that attempt, that is before
    the next [spawn] or before the call resolves: the code and the
    signal, or [None] when the ['close'] comes later or never. After a
    spawn that failed the runtime emits ['close'] right after the
    ['error']; a process that is done within the settle time closes
    without any ['error']. *)
Definition closing := nat -> option (jsval * jsval).

(** The ['close'] handler of the constructor (lines 111-117), run on the
    controller [r] when its ['close'] is delivered. *)
Definition deliver (c : option (jsval * jsval)) (r : nat) (w : World) : World :=
  match c with
  | Some (code, signal) => on_close code signal r w
  | None => w
  end.

(** [new Terminal(process, valueSelector)] on the handle of an attempt,
    and then the ['close'] of that handle if it arrives while the call is
    busy with the attempt. *)
Definition constructed (a : attempt) (ps : Params) (c : option (jsval * jsval))
    (w : World) : nat * World :=
  let '(r, w') :=
    constructor (idbytes_of a) (spawned (pid_of a)) (selector ps) w in
  (r, deliver c r w').

(** The [for] loop (lines 277-321) with these events: [Governor.attempts]
    is the case in which none of them arrives. *)
Fixpoint attempts (env : Env) (ps : Params) (oracle : nat -> attempt)
    (closes : closing) (fuel i : nat) (clock : Z) (w : World)
    : option nat * World * list tev :=
  match fuel with
  | O => (None, w, [])
  | S fuel' =>
      let a := oracle i in
      let retry clock' w' :=
        let '(res, w'', tr) :=
          attempts env ps oracle closes fuel' (S i)
                   (elapse clock' (retryIntervalMS ps)) w' in
        (res, w'',
         Spawn clock :: debug env AnErrorOccurred
           ++ Sleep (retryIntervalMS ps) :: tr) in
      match outcome_of a with
      | SpawnThrows => retry clock w
      | EarlyError d =>
          if d <? intermissionMS ps
          then retry (elapse clock d) (snd (constructed a ps (closes i) w))
          else (Some (fst (constructed a ps (closes i) w)),
                snd (constructed a ps (closes i) w), [Spawn clock])
      | Settles =>
          (Some (fst (constructed a ps (closes i) w)),
           snd (constructed a ps (closes i) w), [Spawn clock])
      end
  end.

(** [Terminal.new], called at time [now]. *)
Definition new (env : Env) (now : Z) (ps : Params) (oracle : nat -> attempt)
    (closes : closing) (w : World) : option nat * World * list tev :=
  let '(w1, wait) := gate now w in
  let before :=
    match wait with
    | Some sleepTime => debug env (RanTooEarly sleepTime) ++ [Sleep sleepTime]
    | None => []
    end ++ debug env (Running (command ps) (args ps)) in
  let '(res, w2, tr) :=
    attempts env ps oracle closes (Z.to_nat (tryCount ps)) 0 (launch_time now w) w1 in
  (res, w2, before ++ tr).

(** A controller as its ['close'] handler leaves it. *)
Definition stopped (code signal : jsval) (t : Terminal) : Terminal :=
  {| id := id t;
     process := {| pid := pid (process t); killed := killed (process t);
                   stdout := stdout (process t); closed := true;
                   exited := exited (process t) |};
     data := data t;
     running := false;
     valueSelector := valueSelector t;
     exitCode := code;
     exitSignal := signal |}.

Definition settle (c : option (jsval * jsval)) (t : Terminal) : Terminal :=
  match c with
  | Some (code, signal) => stopped code signal t
  | None => t
  end.


(** A process that is done with code 0 before the settle time is over. *)
Definition done_early (i : nat) : option (jsval * jsval) :=
  Some (JNum 0, JNull).

End Settling.

(** ** Invariants of the state and of its histories *)

Module Invariants.
Import Controller.

(** What holds of every controller of a reachable state. *)
Definition wf_terminal (t : Terminal) : Prop :=
  String.length (id t) = 32%nat /\
  all_hex (id t) = true /\
  data t = [] /\
  running t = negb (closed (process t)) /\
  (running t = true -> exitCode t = JUndefined /\ exitSignal t = JUndefined).

(** What holds of the registry of a reachable state. *)
Definition wf_registry (w : World) : Prop :=
  forall k r, all w !! k = Some r ->
    exists t, heap w !! r = Some t /\ id t = k /\ running t = true.

Definition inv (w : World) : Prop :=
  wf_registry w /\ forall r t, heap w !! r = Some t -> wf_terminal t.

(** With distinct identifiers, every controller that is still running is
    registered under its own identifier. *)
Definition registered (w : World) : Prop :=
  forall r t, heap w !! r = Some t -> running t = true -> all w !! id t = Some r.

(** The state of a controller, read off the history. *)
Definition settled (cl : list event) (t : Terminal) : Prop :=
  match cl with
  | [] =>
      running t = true /\ closed (process t) = false /\
      exitCode t = JUndefined /\ exitSignal t = JUndefined
  | [Close _ code signal] =>
      running t = false /\ closed (process t) = true /\
      exitCode t = code /\ exitSignal t = signal
  | _ => False
  end.

Definition history_ok (evs : list event) (w : World) : Prop :=
  (forall r, heap w !! r = None -> closes_of r evs = []) /\
  (forall r t, heap w !! r = Some t -> settled (closes_of r evs) t).

End Invariants.

(** ** Sample inputs *)

Module Samples.
Import Controller Governor Stream.

Definition posix : Env := {| platform := "linux"; log := false |}.
Definition windows : Env := {| platform := "win32"; log := false |}.

Definition idbytes (b : Byte.byte) : list Byte.byte := replicate 16 b.

(** An executable that is not there: every attempt ends in an early
    ['error']. *)
Definition missing (i : nat) : attempt :=
  {| outcome_of := EarlyError 3; idbytes_of := idbytes x00; pid_of := None |}.

(** A first attempt that fails after 10 ms, and a second one that holds. *)
Definition second_try (i : nat) : attempt :=
  match i with
  | O => {| outcome_of := EarlyError 10; idbytes_of := idbytes x01; pid_of := Some 4001 |}
  | _ => {| outcome_of := Settles; idbytes_of := idbytes x02; pid_of := Some 4002 |}
  end.

Definition first_try (i : nat) : attempt :=
  {| outcome_of := Settles; idbytes_of := idbytes x03; pid_of := Some 4003 |}.

Definition call_A : call :=
  {| now_of := 1000; params_of := defaults "yt-dlp" ["--version"%string];
     oracle_of := second_try |}.

Definition call_B : call :=
  {| now_of := 1505; params_of := defaults "yt-dlp" ["--version"%string];
     oracle_of := first_try |}.

(** A controller whose process has closed with exit code 0, and a second
    one that is still alive. *)
Definition one_closed : list event :=
  [Launch 1000; Construct (idbytes x0a) (Some 4010) None;
   Launch 2000; Construct (idbytes x0b) (Some 4011) None;
   Close 0 (JNum 0) JNull].

(** A controller that has just been constructed. *)
Definition one_open : list event :=
  [Launch 1000; Construct (idbytes x0a) (Some 4010) None].

(** A controller whose process has ended, before the ['close'] of the
    process is delivered. *)
Definition one_exited : list event :=
  [Launch 1000; Construct (idbytes x0a) (Some 4010) None; Exit 0].

(** A transform as the specification describes it: it stops at [x],
    has nothing to say about [-], and passes everything else on as
    [value]. *)
Definition sample_transform (text : jsstring) : option jsval :=
  if bool_decide (text = lit "x") then Some (JObj [("stop"%string, JBool true)])
  else if bool_decide (text = lit "-") then Some (JObj [])
  else Some (JObj [("value"%string, JStr text)]).

(** A controller with that transform. *)
Definition one_transforming : World :=
  world_of (new posix 1000
              {| command := "yt-dlp"; args := []; selector := Some sample_transform;
                 tryCount := 10; retryIntervalMS := 500; intermissionMS := 1000 |}
              first_try init).

(** The state after [one_closed]. *)
Definition after_close : World := default init (run init one_closed).

(** One controller, alive, after a call of [Terminal.new] that held at
    the first attempt. *)
Definition one_running : World :=
  world_of (new posix 1000 (defaults "yt-dlp" ["--version"%string]) first_try init).

(** The same on the other platform family. *)
Definition one_running_win : World :=
  world_of (new windows 1000 (defaults "yt-dlp" ["--version"%string]) first_try init).

End Samples.

(** ** Notions the further properties are stated with *)

Module Notions.
Import Controller Governor Downloader.

(** The controller the constructor makes. *)
Definition fresh (a : attempt) (ps : Params) : Terminal :=
  {| id := toString_hex (idbytes_of a);
     process := spawned (pid_of a);
     data := [];
     running := true;
     valueSelector := selector ps;
     exitCode := JUndefined;
     exitSignal := JUndefined |}.

(** From [u], the responses carry the [Location] headers [hops], one
    after the other, and lead to [final]. *)
Fixpoint redirects (net : network) (u : jsstring) (hops : list jsstring)
    (final : jsstring) : Prop :=
  match hops with
  | [] => u = final
  | v :: hops' =>
      v <> [] /\
      (exists m, net u = Some m /\ location m = Some v) /\
      redirects net v hops' final
  end.

(** A network of three addresses: [a] redirects to [b], [b] to [c], and
    [c] answers 404 with a body. *)
Definition three_hops (u : jsstring) : option response :=
  if bool_decide (u = lit "a") then
    Some {| location := Some (lit "b"); statusCode := 302; body_arrives := true |}
  else if bool_decide (u = lit "b") then
    Some {| location := Some (lit "c"); statusCode := 200; body_arrives := true |}
  else if bool_decide (u = lit "c") then
    Some {| location := None; statusCode := 404; body_arrives := true |}
  else None.

(** A network in which every address redirects to itself. *)
Definition mirror (u : jsstring) : option response :=
  Some {| location := Some u; statusCode := 301; body_arrives := true |}.

(** A controller that decodes progress lines, and two chunks for it:
    a progress line, and one whose payload is not JSON. *)
Definition decoding : Terminal :=
  {| id := "0c0c0c0c0c0c0c0c0c0c0c0c0c0c0c0c";
     process := spawned (Some 4012);
     data := [];
     running := true;
     valueSelector := Some (Selector.downloadValueSelector Selector.parse_sample);
     exitCode := JUndefined;
     exitSignal := JUndefined |}.

Definition progress_chunk : chunk :=
  list_byte_of_string "[progress] {" ++ [Byte.x22] ++ list_byte_of_string "a"
    ++ [Byte.x22] ++ list_byte_of_string ":1}" ++ [Byte.x0a].

(** What [yt-dlp --version] prints. *)
Definition version_chunk : chunk :=
  list_byte_of_string "2025.01.15" ++ [Byte.x0a].

Definition broken_chunk : chunk :=
  list_byte_of_string "[progress] NA" ++ [Byte.x0a].

(** *** The two markers, read off the text

    What the patterns of [constants.ts] say of a text, without a
    matcher. *)

(** [s] is [pat] up to the case of its ASCII letters. *)
Definition same_i (pat : string) (s : jsstring) : Prop :=
  Forall2 (fun a c => Regex.char_i a c = true) (list_ascii_of_string pat) s.

(** [/^\[download\]\s*.+\s*has already been downloaded/i]: the text
    begins with the marker; after it come white space, if any, at least
    one character that is no line terminator, white space, if any, and
    the words. *)
Definition already_downloaded_text (text : jsstring) : Prop :=
  exists L w1 mid w2 H rest,
    text = L ++ w1 ++ mid ++ w2 ++ H ++ rest /\
    same_i "[download]" L /\
    Forall (fun c => Regex.white c = true) w1 /\
    mid <> [] /\ Forall (fun c => Regex.dot c = true) mid /\
    Forall (fun c => Regex.white c = true) w2 /\
    same_i "has already been downloaded" H.

(** [/^\[progress\]\s+(.+)/i]: the text begins with the marker; after
    it come white space and then [payload], at least one character, none
    of them a line terminator. *)
Definition progress_text (text payload : jsstring) : Prop :=
  exists L ws rest,
    text = L ++ ws ++ payload ++ rest /\
    same_i "[progress]" L /\
    ws <> [] /\ Forall (fun c => Regex.white c = true) ws /\
    payload <> [] /\ Forall (fun c => Regex.dot c = true) payload.

(** What yt-dlp prints for a [--progress-template]: the template with
    its field [%(progress)j] replaced by the progress as JSON. [None]:
    the template has no such field. *)
Definition fill_template (template : string) (json : jsstring) : option jsstring :=
  n ← String.index 0 "%(progress)j" template;
  Some (lit (String.substring 0 n template) ++ json
          ++ lit (String.substring (n + 12) (String.length template - (n + 12))
                    template)).

(** A JSON document that arrives in two chunks. *)
Definition json_head : chunk := list_byte_of_string "{" ++ [Byte.x22] ++ list_byte_of_string "a".

Definition json_tail : chunk := [Byte.x22] ++ list_byte_of_string ":1}".

(** A text is passed over by the loop of [getPlaylistInfo]: it does not
    parse, or parses to something falsy. *)
Definition passed_over (parse : jsstring -> option jsval) (text : jsstring) : Prop :=
  match parse text with
  | Some d => Text.truthy d = false
  | None => True
  end.

End Notions.

(** * Properties *)

(** ** Identifiers *)

Module IdFacts.

Lemma hex_digit_is_hex (n : N) : (n < 16)%N -> is_hex (hex_digit n) = true.
Proof.
  intros Hn.
  assert (Hcases : In n [0;1;2;3;4;5;6;7;8;9;10;11;12;13;14;15]%N).
  { simpl.
    destruct n as [|p]; [tauto|].
    do 15 (destruct p as [p|p|]; try (exfalso; lia); try tauto). }
  simpl in Hcases.
  repeat (destruct Hcases as [<- | Hcases]; [reflexivity|]).
  destruct Hcases.
Qed.

Lemma toString_hex_length (bs : list Byte.byte) :
  String.length (toString_hex bs) = (2 * length bs)%nat.
Proof.
  induction bs as [|b bs IH]; simpl; [reflexivity|].
  rewrite IH. lia.
Qed.

Lemma toString_hex_all_hex (bs : list Byte.byte) :
  all_hex (toString_hex bs) = true.
Proof.
  induction bs as [|b bs IH]; simpl; [reflexivity|].
  assert (Hb : (Byte.to_N b < 256)%N) by (pose proof (Byte.to_N_bounded b); lia).
  rewrite !hex_digit_is_hex, IH; [reflexivity| |].
  - apply N.mod_upper_bound. lia.
  - apply N.Div0.div_lt_upper_bound. lia.
Qed.

(** No member of [Object.prototype] is 32 characters long. *)
Lemma proto_key_length (k : string) :
  k ∈ Object_prototype_keys -> String.length k <> 32%nat.
Proof.
  unfold Object_prototype_keys. intros Hk.
  repeat (apply elem_of_cons in Hk as [-> | Hk]; [simpl; lia|]).
  apply elem_of_nil in Hk. destruct Hk.
Qed.

End IdFacts.

(** ** The registry and the life of a controller *)

Module ControllerFacts.
Import Controller Invariants IdFacts.

(** Case analysis on a step: what the heap and the registry become. *)
Ltac step_cases H :=
  match type of H with
  | step ?w ?e = Some _ =>
      destruct e; simpl in H;
      repeat match type of H with
        | context [bool_decide ?P] => destruct (bool_decide_reflect P)
        | context [heap w !! ?r] =>
            let Ht := fresh "Ht" in destruct (heap w !! r) eqn:Ht; simpl in H
        | context [closed ?p] =>
            let Hc := fresh "Hc" in destruct (closed p) eqn:Hc
        | context [exited ?p] =>
            let He := fresh "He" in destruct (exited p) eqn:He
        end;
      try discriminate H;
      injection H as <-
  end.

Lemma kill_keeps (env : Env) (sent : bool) (signal : string) (t : Terminal) :
  let t' := fst (kill env sent signal t) in
  id t' = id t /\ data t' = data t /\ running t' = running t /\
  exitCode t' = exitCode t /\ exitSignal t' = exitSignal t /\
  closed (process t') = closed (process t) /\
  stdout (process t') = stdout (process t) /\
  valueSelector t' = valueSelector t.
Proof.
  destruct t as [i [p k so c ex] d r vs ec es]. unfold kill. simpl.
  destruct r, k, (String.eqb (platform env) "win32"), p; simpl; tauto.
Qed.

Lemma wf_kill (env : Env) (sent : bool) (signal : string) (t : Terminal) :
  wf_terminal t -> wf_terminal (fst (kill env sent signal t)).
Proof.
  unfold wf_terminal.
  destruct (kill_keeps env sent signal t) as (-> & -> & -> & -> & -> & -> & _).
  tauto.
Qed.

Lemma inv_init : inv init.
Proof.
  split.
  - intros k r H. simpl in H. rewrite lookup_empty in H. discriminate.
  - intros r t H. simpl in H. destruct r; discriminate.
Qed.

Lemma inv_step (w w' : World) (e : event) :
  inv w -> step w e = Some w' -> inv w'.
Proof.
  intros [Hreg Hts] Hstep. step_cases Hstep.
  - (* Launch *)
    unfold gate. destruct (_ >? _); split; assumption.
  - (* Construct *)
    split.
    + intros k r. simpl. intros Hk.
      destruct (decide (toString_hex idbytes = k)) as [<- | Hne].
      * rewrite lookup_insert_eq in Hk. injection Hk as <-.
        eexists.
        split; [rewrite lookup_app_r by lia; rewrite Nat.sub_diag; reflexivity|].
        split; reflexivity.
      * rewrite lookup_insert_ne in Hk by exact Hne.
        destruct (Hreg k r Hk) as (t & Ht & Hid & Hrun).
        exists t. split; [|tauto].
        apply lookup_app_l_Some. exact Ht.
    + intros r t. simpl. intros Ht.
      apply lookup_app_Some in Ht as [Ht | [_ Ht]]; [eauto|].
      destruct (r - length (heap w))%nat; [|destruct n; discriminate].
      injection Ht as <-. unfold wf_terminal. simpl.
      rewrite toString_hex_length, toString_hex_all_hex. repeat split; lia.
  - (* StdoutData *)
    split.
    + intros k r' Hk. simpl in Hk.
      destruct (Hreg k r' Hk) as (t' & Ht' & Hid & Hrun). simpl.
      destruct (decide (r = r')) as [<- | Hne].
      * rewrite list_lookup_insert_eq by (eapply lookup_lt_Some; eauto).
        rewrite Ht in Ht'. injection Ht' as <-.
        eexists; split; [reflexivity|]. simpl. tauto.
      * rewrite list_lookup_insert_ne by exact Hne. eauto.
    + intros r' t'. simpl. intros Ht'.
      apply list_lookup_insert_Some in Ht' as [(-> & <- & _) | [_ Ht']]; [|eauto].
      specialize (Hts _ _ Ht). unfold wf_terminal in *. simpl. tauto.
  - (* Close *)
    unfold on_close. rewrite Ht. split.
    + intros k r'. simpl. intros Hk.
      destruct (decide (id t = k)) as [<- | Hne].
      * rewrite lookup_delete_eq in Hk. discriminate.
      * rewrite lookup_delete_ne in Hk by exact Hne.
        destruct (Hreg k r' Hk) as (t' & Ht' & Hid & Hrun).
        assert (r <> r') by (intros ->; congruence).
        exists t'. rewrite list_lookup_insert_ne by assumption. tauto.
    + intros r' t'. simpl. intros Ht'.
      apply list_lookup_insert_Some in Ht' as [(-> & <- & _) | [_ Ht']]; [|eauto].
      specialize (Hts _ _ Ht). unfold wf_terminal in *. simpl.
      repeat split; try tauto; discriminate.
  - (* ProcessError *) split; assumption.
  - (* StdoutError *) split; assumption.
  - (* Kill *)
    split.
    + intros k r' Hk. simpl in Hk.
      destruct (Hreg k r' Hk) as (t' & Ht' & Hid & Hrun). simpl.
      destruct (decide (r = r')) as [<- | Hne].
      * rewrite list_lookup_insert_eq by (eapply lookup_lt_Some; eauto).
        rewrite Ht in Ht'. injection Ht' as <-.
        eexists; split; [reflexivity|].
        destruct (kill_keeps env sent signal t) as (-> & _ & -> & _). tauto.
      * rewrite list_lookup_insert_ne by exact Hne. eauto.
    + intros r' t'. simpl. intros Ht'.
      apply list_lookup_insert_Some in Ht' as [(-> & <- & _) | [_ Ht']]; [|eauto].
      apply wf_kill. eauto.
  - (* Exit *)
    split.
    + intros k r' Hk. simpl in Hk.
      destruct (Hreg k r' Hk) as (t' & Ht' & Hid & Hrun). simpl.
      destruct (decide (r = r')) as [<- | Hne].
      * rewrite list_lookup_insert_eq by (eapply lookup_lt_Some; eauto).
        rewrite Ht in Ht'. injection Ht' as <-.
        eexists; split; [reflexivity|]. simpl. tauto.
      * rewrite list_lookup_insert_ne by exact Hne. eauto.
    + intros r' t'. simpl. intros Ht'.
      apply list_lookup_insert_Some in Ht' as [(-> & <- & _) | [_ Ht']]; [|eauto].
      specialize (Hts _ _ Ht). unfold wf_terminal in *. simpl. tauto.
Qed.

Lemma inv_reachable (w : World) : reachable w -> inv w.
Proof.
  induction 1 as [|w e w' _ IH Hstep]; [apply inv_init|].
  eapply inv_step; eassumption.
Qed.

End ControllerFacts.

(** ** Lookup by identifier *)

Module RegistryFacts.
Import Controller Invariants IdFacts ControllerFacts.

(** A step adds at most one identifier, at the end, and changes none. *)
Lemma step_ids (w w' : World) (e : event) :
  step w e = Some w' -> exists new, ids w' = ids w ++ new.
Proof.
  intros Hstep. unfold ids. step_cases Hstep; simpl.
  - exists []. unfold gate. destruct (_ >? _); simpl; by rewrite app_nil_r.
  - eexists. apply fmap_app.
  - exists []. rewrite app_nil_r, list_fmap_insert. simpl.
    apply list_insert_id. by rewrite list_lookup_fmap, Ht.
  - exists []. unfold on_close. rewrite Ht. simpl.
    rewrite app_nil_r, list_fmap_insert. simpl.
    apply list_insert_id. by rewrite list_lookup_fmap, Ht.
  - exists []. by rewrite app_nil_r.
  - exists []. by rewrite app_nil_r.
  - exists []. rewrite app_nil_r, list_fmap_insert.
    destruct (kill_keeps env sent signal t) as (-> & _).
    apply list_insert_id. by rewrite list_lookup_fmap, Ht.
  - exists []. rewrite app_nil_r, list_fmap_insert. simpl.
    apply list_insert_id. by rewrite list_lookup_fmap, Ht.
Qed.

Lemma step_NoDup (w w' : World) (e : event) :
  step w e = Some w' -> NoDup (ids w') -> NoDup (ids w).
Proof.
  intros Hstep Hnd. destruct (step_ids _ _ _ Hstep) as [new Hnew].
  rewrite Hnew in Hnd. by apply NoDup_app in Hnd as [? _].
Qed.

(** Two controllers of a state with distinct identifiers throughout: the
    same identifier means the same controller. *)
Lemma same_id_same_ref (w : World) (r r' : nat) (t t' : Terminal) :
  NoDup (ids w) -> heap w !! r = Some t -> heap w !! r' = Some t' ->
  id t = id t' -> r = r'.
Proof.
  intros Hnd Ht Ht' Hid.
  apply (NoDup_lookup (ids w) r r' (id t)); [exact Hnd| |]; unfold ids;
    rewrite list_lookup_fmap; [by rewrite Ht | by rewrite Ht', Hid].
Qed.

Lemma registered_reachable (w : World) :
  reachable w -> NoDup (ids w) -> registered w.
Proof.
  induction 1 as [|w e w' Hreach IH Hstep]; intros Hnd.
  { intros r t Ht. destruct r; discriminate. }
  specialize (IH (step_NoDup _ _ _ Hstep Hnd)).
  pose proof (inv_reachable _ Hreach) as [Hreg Hts].
  revert Hnd. unfold registered.
  step_cases Hstep; intros Hnd r0 t0; simpl.
  - (* Launch *)
    unfold gate. destruct (_ >? _); simpl; apply IH.
  - (* Construct *)
    intros Ht0 Hrun.
    apply lookup_app_Some in Ht0 as [Ht0 | [Hge Ht0]].
    + rewrite lookup_insert_ne; [by apply IH|].
      intros Heq.
      assert (r0 = length (heap w)); [|apply lookup_lt_Some in Ht0; lia].
      eapply (same_id_same_ref _ _ _ _ _ Hnd); simpl.
      * apply lookup_app_l_Some, Ht0.
      * rewrite lookup_app_r by lia. by rewrite Nat.sub_diag.
      * by rewrite <- Heq.
    + destruct (r0 - length (heap w))%nat eqn:Hsub; [|destruct n; discriminate].
      injection Ht0 as <-. simpl.
      rewrite lookup_insert_eq. f_equal. lia.
  - (* StdoutData *)
    intros Ht0 Hrun.
    apply list_lookup_insert_Some in Ht0 as [(-> & <- & _) | [_ Ht0]]; [|by apply IH].
    simpl. by apply IH.
  - (* Close *)
    unfold on_close in *. rewrite Ht in *. simpl in *.
    intros Ht0 Hrun.
    apply list_lookup_insert_Some in Ht0 as [(-> & <- & _) | [Hne Ht0]];
      [discriminate|].
    rewrite lookup_delete_ne; [by apply IH|].
    intros Heq. apply Hne.
    eapply (same_id_same_ref _ _ _ _ _ Hnd); simpl.
    + apply list_lookup_insert_eq. by eapply lookup_lt_Some.
    + rewrite list_lookup_insert_ne by exact Hne. exact Ht0.
    + exact Heq.
  - (* ProcessError *) apply IH.
  - (* StdoutError *) apply IH.
  - (* Kill *)
    intros Ht0 Hrun.
    apply list_lookup_insert_Some in Ht0 as [(-> & <- & _) | [_ Ht0]]; [|by apply IH].
    destruct (kill_keeps env sent signal t) as (Hid & _ & Hr & _).
    rewrite Hid. apply IH; [exact Ht | by rewrite <- Hr].
  - (* Exit *)
    intros Ht0 Hrun.
    apply list_lookup_insert_Some in Ht0 as [(-> & <- & _) | [_ Ht0]]; [|by apply IH].
    simpl. by apply IH.
Qed.

(** A history from a reachable state ends in a reachable state. *)
Lemma reachable_run (evs : list event) (w w' : World) :
  reachable w -> run w evs = Some w' -> reachable w'.
Proof.
  revert w. induction evs as [|e evs IH]; simpl; intros w Hw Hrun.
  - by injection Hrun as <-.
  - destruct (step w e) as [w1|] eqn:Hstep; [|discriminate].
    eapply IH; [|exact Hrun]. eapply reachable_step; eassumption.
Qed.

End RegistryFacts.

(** ** The launch governor *)

Module GovernorFacts.
Import Controller Governor ControllerFacts RegistryFacts.

Lemma spawn_times_app (tr1 tr2 : list tev) :
  spawn_times (tr1 ++ tr2) = spawn_times tr1 ++ spawn_times tr2.
Proof.
  induction tr1 as [|[m|ms|t] tr1 IH]; simpl; [reflexivity| | |]; by rewrite IH.
Qed.

Lemma spawn_times_debug (env : Env) (m : debug_msg) : spawn_times (debug env m) = [].
Proof. unfold debug. by destruct (log env). Qed.

Lemma waits_between_debug (env : Env) (m : debug_msg) (retry : Z) (b : bool)
    (tr : list tev) :
  waits_between retry b (debug env m ++ tr) = waits_between retry b tr.
Proof. unfold debug. by destruct (log env). Qed.

Lemma elapse_le (clock ms : Z) : clock <= elapse clock ms.
Proof. unfold elapse. lia. Qed.

Lemma elapse_retry (clock ms : Z) : clock + Z.max 0 ms <= elapse clock ms.
Proof. unfold elapse. lia. Qed.

(** The gate alone touches [lastRun]; nothing touches [runIntervalMS]. *)
Lemma attempts_gate_state env ps oracle fuel i clock w :
  let w' := world_of (attempts env ps oracle fuel i clock w) in
  lastRun w' = lastRun w /\ runIntervalMS w' = runIntervalMS w.
Proof.
  revert i clock w. induction fuel as [|fuel IH]; intros i clock w; simpl; [done|].
  destruct (outcome_of (oracle i)) as [|d|]; simpl.
  - specialize (IH (S i) (elapse clock (retryIntervalMS ps)) w).
    destruct (attempts _ _ _ _ _ _ _) as [[res w''] tr]. exact IH.
  - destruct (d <? intermissionMS ps); [|done].
    match goal with
    | |- context [attempts ?e ?p ?o ?f ?j ?c ?v] =>
        specialize (IH j c v); destruct (attempts e p o f j c v) as [[res w''] tr]
    end.
    exact IH.
  - done.
Qed.

(** The loop spawns first thing, and never more often than it has fuel. *)
Lemma attempts_spawns env ps oracle fuel i clock w :
  let ts := spawn_times (trace_of (attempts env ps oracle fuel i clock w)) in
  (length ts <= fuel)%nat /\
  head ts = match fuel with O => None | S _ => Some clock end /\
  gaps 0 ts.
Proof.
  revert i clock w. induction fuel as [|fuel IH]; intros i clock w; simpl; [done|].
  assert (Hretry : forall clock' w',
    clock <= clock' ->
    let ts := spawn_times (trace_of
      (let '(res, w'', tr) :=
         attempts env ps oracle fuel (S i) (elapse clock' (retryIntervalMS ps)) w' in
       (res, w'',
        Spawn clock :: debug env AnErrorOccurred ++ Sleep (retryIntervalMS ps) :: tr)))
    in (length ts <= S fuel)%nat /\ head ts = Some clock /\ gaps 0 ts).
  { intros clock' w' Hle.
    specialize (IH (S i) (elapse clock' (retryIntervalMS ps)) w').
    destruct (attempts _ _ _ _ _ _ _) as [[res w''] tr]. simpl in *.
    rewrite spawn_times_app, spawn_times_debug. simpl.
    destruct IH as (Hlen & Hhd & Hgaps).
    split; [lia|]. split; [done|].
    destruct (spawn_times tr) as [|t2 ts'] eqn:Hts; [done|].
    split; [|exact Hgaps].
    destruct fuel; [discriminate|]. injection Hhd as ->.
    pose proof (elapse_le clock' (retryIntervalMS ps)). lia. }
  destruct (outcome_of (oracle i)) as [|d|]; simpl.
  - apply Hretry. lia.
  - destruct (d <? intermissionMS ps).
    + apply Hretry. apply elapse_le.
    + simpl. repeat split; lia.
  - repeat split; lia.
Qed.

(** When every attempt fails, the loop gives up empty-handed after using
    all its fuel, with a [Sleep] of the retry interval after each spawn
    and the spawns that far apart. *)
Lemma attempts_exhausted env ps oracle fuel i clock w :
  (forall j, (i <= j < i + fuel)%nat -> fails ps (outcome_of (oracle j)) = true) ->
  let x := attempts env ps oracle fuel i clock w in
  result_of x = None /\
  length (spawn_times (trace_of x)) = fuel /\
  sleeps (trace_of x) = replicate fuel (retryIntervalMS ps) /\
  (forall b, waits_between (retryIntervalMS ps) b (trace_of x)
             = match fuel with O => true | S _ => b end) /\
  gaps (Z.max 0 (retryIntervalMS ps)) (spawn_times (trace_of x)).
Proof.
  revert i clock w. induction fuel as [|fuel IH]; intros i clock w Hfail; simpl.
  { done. }
  assert (Hretry : forall clock' w',
    clock <= clock' ->
    let x :=
      (let '(res, w'', tr) :=
         attempts env ps oracle fuel (S i) (elapse clock' (retryIntervalMS ps)) w' in
       (res, w'',
        Spawn clock :: debug env AnErrorOccurred ++ Sleep (retryIntervalMS ps) :: tr))
    in result_of x = None /\
       length (spawn_times (trace_of x)) = S fuel /\
       sleeps (trace_of x) = retryIntervalMS ps :: replicate fuel (retryIntervalMS ps) /\
       (forall b, waits_between (retryIntervalMS ps) b (trace_of x) = b) /\
       gaps (Z.max 0 (retryIntervalMS ps)) (spawn_times (trace_of x))).
  { intros clock' w' Hle.
    assert (Hfail' : forall j, (S i <= j < S i + fuel)%nat ->
                               fails ps (outcome_of (oracle j)) = true)
      by (intros j Hj; apply Hfail; lia).
    specialize (IH (S i) (elapse clock' (retryIntervalMS ps)) w' Hfail').
    pose proof (attempts_spawns env ps oracle fuel (S i)
                  (elapse clock' (retryIntervalMS ps)) w') as (_ & Hhd & _).
    destruct (attempts _ _ _ _ _ _ _) as [[res w''] tr].
    unfold result_of, trace_of in *. simpl in *.
    destruct IH as (Hres & Hlen & Hsl & Hwb & Hgaps).
    rewrite spawn_times_app, spawn_times_debug. simpl.
    split; [exact Hres|]. split; [by rewrite Hlen|]. split.
    { unfold debug. destruct (log env); simpl; by rewrite Hsl. }
    split.
    { intros b. rewrite waits_between_debug. simpl.
      rewrite Z.eqb_refl, Hwb. destruct fuel, b; reflexivity. }
    destruct (spawn_times tr) as [|t2 ts'] eqn:Hts; [done|].
    split; [|exact Hgaps].
    destruct fuel; [discriminate|]. injection Hhd as ->.
    pose proof (elapse_retry clock' (retryIntervalMS ps)). lia. }
  pose proof (Hfail i ltac:(lia)) as Hi.
  destruct (outcome_of (oracle i)) as [|d|]; simpl in Hi |- *.
  - apply Hretry. lia.
  - rewrite Hi. apply Hretry. apply elapse_le.
  - discriminate.
Qed.

Lemma waits_between_before (retry : Z) (pre tr : list tev) :
  spawn_times pre = [] ->
  waits_between retry true (pre ++ tr) = waits_between retry true tr.
Proof.
  induction pre as [|[m|ms|t] pre IH]; simpl; intros Hpre;
    [reflexivity|by apply IH|by apply IH|discriminate].
Qed.

Lemma launch_time_lastRun (now : Z) (w : World) :
  launch_time now w = lastRun (fst (gate now w)) /\
  launch_time now w = Z.max now (lastRun w + runIntervalMS w).
Proof.
  unfold launch_time, gate, elapse.
  destruct (Z.gtb_spec (lastRun w + runIntervalMS w) now); simpl; lia.
Qed.

Lemma new_unfold env now ps oracle w :
  new env now ps oracle w =
  let x := attempts env ps oracle (Z.to_nat (tryCount ps)) 0
                    (launch_time now w) (fst (gate now w)) in
  (result_of x, world_of x,
   (match snd (gate now w) with
    | Some sleepTime => debug env (RanTooEarly sleepTime) ++ [Sleep sleepTime]
    | None => []
    end ++ debug env (Running (command ps) (args ps))) ++ trace_of x).
Proof.
  unfold new, launch_time. destruct (gate now w) as [w1 [s|]]; simpl;
    destruct (attempts _ _ _ _ _ _ _) as [[res w2] tr]; reflexivity.
Qed.

Lemma before_no_spawn env (wait : option Z) (m : debug_msg) :
  spawn_times
    (match wait with
     | Some sleepTime => debug env (RanTooEarly sleepTime) ++ [Sleep sleepTime]
     | None => []
     end ++ debug env m) = [].
Proof.
  rewrite spawn_times_app, spawn_times_debug.
  destruct wait; [|reflexivity].
  by rewrite spawn_times_app, spawn_times_debug.
Qed.

Lemma new_spawn_times env now ps oracle w :
  spawn_times (trace_of (new env now ps oracle w)) =
  spawn_times (trace_of (attempts env ps oracle (Z.to_nat (tryCount ps)) 0
                                  (launch_time now w) (fst (gate now w)))).
Proof.
  rewrite new_unfold. unfold trace_of at 1. simpl.
  by rewrite spawn_times_app, before_no_spawn.
Qed.

(** [Terminal.new] never spawns more often than [tryCount]. *)
Lemma new_attempts_bound env now ps oracle w :
  (length (spawn_times (trace_of (new env now ps oracle w))) <= Z.to_nat (tryCount ps))%nat.
Proof. rewrite new_spawn_times. apply attempts_spawns. Qed.

Lemma new_gate_state env now ps oracle w :
  let w' := world_of (new env now ps oracle w) in
  lastRun w' = launch_time now w /\ runIntervalMS w' = runIntervalMS w.
Proof.
  rewrite new_unfold. unfold world_of at 1. simpl.
  destruct (attempts_gate_state env ps oracle (Z.to_nat (tryCount ps)) 0%nat
              (launch_time now w) (fst (gate now w))) as [-> ->].
  split; [symmetry; apply launch_time_lastRun|].
  unfold gate. by destruct (_ >? _).
Qed.

Lemma new_first_spawn env now ps oracle w :
  head (spawn_times (trace_of (new env now ps oracle w))) =
  if 0 <? tryCount ps then Some (launch_time now w) else None.
Proof.
  rewrite new_spawn_times.
  destruct (attempts_spawns env ps oracle (Z.to_nat (tryCount ps)) 0%nat
              (launch_time now w) (fst (gate now w))) as (_ & -> & _).
  destruct (Z.ltb_spec 0 (tryCount ps)).
  - destruct (Z.to_nat (tryCount ps)) eqn:E; [lia|reflexivity].
  - by replace (Z.to_nat (tryCount ps)) with 0%nat by lia.
Qed.

Lemma first_launches_after env cs w :
  0 <= runIntervalMS w ->
  Forall (fun t => lastRun w + runIntervalMS w <= t) (first_launches env cs w) /\
  spaced (runIntervalMS w) (first_launches env cs w).
Proof.
  revert w. induction cs as [|c cs IH]; intros w Hgap.
  { split; [constructor|exact I]. }
  unfold first_launches. simpl.
  pose proof (new_gate_state env (now_of c) (params_of c) (oracle_of c) w) as [HL HI].
  pose proof (new_first_spawn env (now_of c) (params_of c) (oracle_of c) w) as Hhd.
  pose proof (launch_time_lastRun (now_of c) w) as [_ Hmax].
  simpl in HL, HI.
  specialize (IH (world_of (new env (now_of c) (params_of c) (oracle_of c) w))).
  rewrite HI, HL in IH. destruct (IH Hgap) as [Hall Hsp].
  fold (first_launches env cs (world_of (new env (now_of c) (params_of c) (oracle_of c) w))).
  assert (Hall' : Forall (fun t => lastRun w + runIntervalMS w <= t)
            (first_launches env cs
               (world_of (new env (now_of c) (params_of c) (oracle_of c) w)))).
  { eapply Forall_impl; [exact Hall|]. simpl. intros t Ht. lia. }
  rewrite Hhd. destruct (0 <? tryCount (params_of c)); simpl.
  - split; [constructor; [lia|exact Hall']|]. split; assumption.
  - split; assumption.
Qed.

End GovernorFacts.

Module GovernorSpec.
Import Controller Governor GovernorFacts Samples.

Lemma new_waited_before_spawn env now ps oracle w :
  0 < tryCount ps ->
  waited_before_spawn (trace_of (new env now ps oracle w)) =
  match snd (gate now w) with
  | Some sleepTime => [sleepTime]
  | None => []
  end.
Proof.
  intros Htry. rewrite new_unfold. unfold trace_of at 1. simpl.
  destruct (Z.to_nat (tryCount ps)) as [|fuel] eqn:E; [lia|].
  assert (Hhd : exists tr, trace_of (attempts env ps oracle (S fuel) 0
                             (launch_time now w) (fst (gate now w)))
                           = Spawn (launch_time now w) :: tr).
  { simpl. destruct (outcome_of (oracle 0%nat)) as [|d|]; simpl.
    - destruct (attempts _ _ _ _ _ _ _) as [[res w''] tr]. by eexists.
    - destruct (d <? intermissionMS ps); [|by eexists].
      destruct (attempts _ _ _ _ _ _ _) as [[res w''] tr]. by eexists.
    - by eexists. }
  destruct Hhd as [tr ->].
  unfold debug. destruct (snd (gate now w)), (log env); reflexivity.
Qed.

(** C3. When each of the [tryCount] attempts of [Terminal.new] fails
    ([child_process.spawn] throws, or an ['error'] arrives before the
    settle timer), the call returns [null]: both failures end in the
    [catch]. It has then spawned [tryCount] times (never more, and not at
    all for a [tryCount] of zero or less), a [Sleep] of
    [retryIntervalMS] lies between any spawn and the next, and
    consecutive spawns are at least that far apart. *)
Theorem new_exhausted_returns_null env now ps oracle w :
  (forall i : nat, Z.of_nat i < tryCount ps ->
                   fails ps (outcome_of (oracle i)) = true) ->
  result_of (new env now ps oracle w) = None /\
  length (spawn_times (trace_of (new env now ps oracle w)))
    = Z.to_nat (tryCount ps) /\
  Z.of_nat (length (spawn_times (trace_of (new env now ps oracle w))))
    <= Z.max 0 (tryCount ps) /\
  waits_between (retryIntervalMS ps) true (trace_of (new env now ps oracle w))
    = true /\
  gaps (Z.max 0 (retryIntervalMS ps))
       (spawn_times (trace_of (new env now ps oracle w))).
Proof.
  intros Hfail.
  assert (Hfail' : forall j, (0 <= j < 0 + Z.to_nat (tryCount ps))%nat ->
                             fails ps (outcome_of (oracle j)) = true)
    by (intros j Hj; apply Hfail; lia).
  pose proof (attempts_exhausted env ps oracle (Z.to_nat (tryCount ps)) 0%nat
                (launch_time now w) (fst (gate now w)) Hfail')
    as (Hres & Hlen & _ & Hwb & Hgaps).
  rewrite new_spawn_times, Hlen.
  split; [by rewrite new_unfold|]. split; [reflexivity|]. split; [lia|].
  split; [|exact Hgaps].
  rewrite new_unfold. unfold trace_of at 1. simpl.
  rewrite waits_between_before by apply before_no_spawn.
  rewrite Hwb. by destruct (Z.to_nat (tryCount ps)).
Qed.

Lemma new_exhausted_returns_null_witness :
  result_of (new posix 1000 (defaults "yt-dlp" []) missing init) = None /\
  length (spawn_times (trace_of (new posix 1000 (defaults "yt-dlp" []) missing init)))
    = 10%nat.
Proof.
  destruct (new_exhausted_returns_null posix 1000 (defaults "yt-dlp" []) missing init)
    as (Hres & Hlen & _).
  - intros i _. reflexivity.
  - split; [exact Hres|exact Hlen].
Defined.

(** C4, as the claim has it, at two calls: the second attempt of the
    first call (at 1510) and the only attempt of the second (at 1505)
    are 5 ms apart, with [runIntervalMS] at 500. The retry loop does not
    pass through the gate. *)
Lemma retry_spawns_inside_interval :
  ~ all_spawns_apart (runIntervalMS init) (calls posix [call_A; call_B] init).
Proof.
  intros H.
  specialize (H 0%nat 1%nat [1000; 1510] [1505] 1510 1505).
  assert (Habs : runIntervalMS init <= Z.abs (1510 - 1505)).
  { apply H; [lia|reflexivity|reflexivity| |].
    - apply list_elem_of_In. simpl. tauto.
    - apply list_elem_of_In. simpl. tauto. }
  simpl in Habs. lia.
Qed.

(** Whatever the attempts come to, every spawn of the loop but the
    first comes after a [Sleep] of the retry interval that follows the
    spawn before it, and is at least that much later. *)
Lemma attempts_retries env ps oracle fuel i clock w :
  let x := attempts env ps oracle fuel i clock w in
  (forall b, waits_between (retryIntervalMS ps) b (trace_of x)
             = match fuel with O => true | S _ => b end) /\
  gaps (Z.max 0 (retryIntervalMS ps)) (spawn_times (trace_of x)).
Proof.
  revert i clock w. induction fuel as [|fuel IH]; intros i clock w; simpl.
  { done. }
  assert (Hretry : forall clock' w',
    clock <= clock' ->
    let x :=
      (let '(res, w'', tr) :=
         attempts env ps oracle fuel (S i) (elapse clock' (retryIntervalMS ps)) w' in
       (res, w'',
        Spawn clock :: debug env AnErrorOccurred ++ Sleep (retryIntervalMS ps) :: tr))
    in (forall b, waits_between (retryIntervalMS ps) b (trace_of x) = b) /\
       gaps (Z.max 0 (retryIntervalMS ps)) (spawn_times (trace_of x))).
  { intros clock' w' Hle.
    specialize (IH (S i) (elapse clock' (retryIntervalMS ps)) w').
    pose proof (attempts_spawns env ps oracle fuel (S i)
                  (elapse clock' (retryIntervalMS ps)) w') as (_ & Hhd & _).
    destruct (attempts _ _ _ _ _ _ _) as [[res w''] tr].
    unfold trace_of in *. simpl in *.
    destruct IH as (Hwb & Hgaps).
    rewrite spawn_times_app, spawn_times_debug. simpl.
    split.
    { intros b. rewrite waits_between_debug. simpl.
      rewrite Z.eqb_refl, Hwb. destruct fuel, b; reflexivity. }
    destruct (spawn_times tr) as [|t2 ts'] eqn:Hts; [done|].
    split; [|exact Hgaps].
    destruct fuel; [discriminate|]. injection Hhd as ->.
    pose proof (elapse_retry clock' (retryIntervalMS ps)). lia. }
  assert (Hone : (forall b, waits_between (retryIntervalMS ps) b [Spawn clock] = b) /\
                 gaps (Z.max 0 (retryIntervalMS ps)) (spawn_times [Spawn clock])).
  { split; [by intros []|exact I]. }
  destruct (outcome_of (oracle i)) as [|d|]; simpl.
  - apply Hretry. lia.
  - destruct (d <? intermissionMS ps); [|exact Hone].
    apply Hretry. apply elapse_le.
  - exact Hone.
Qed.

Lemma new_retries env now ps oracle w :
  waits_between (retryIntervalMS ps) true (trace_of (new env now ps oracle w)) = true /\
  gaps (Z.max 0 (retryIntervalMS ps)) (spawn_times (trace_of (new env now ps oracle w))).
Proof.
  pose proof (attempts_retries env ps oracle (Z.to_nat (tryCount ps)) 0%nat
                (launch_time now w) (fst (gate now w))) as (Hwb & Hgaps).
  split; [|by rewrite new_spawn_times].
  rewrite new_unfold. unfold trace_of at 1. simpl.
  rewrite waits_between_before by apply before_no_spawn.
  rewrite Hwb. by destruct (Z.to_nat (tryCount ps)).
Qed.

Lemma calls_retries env cs w :
  Forall2 (fun c ts => gaps (Z.max 0 (retryIntervalMS (params_of c))) ts)
          cs (calls env cs w).
Proof.
  revert w. induction cs as [|c cs IH]; intros w; simpl; constructor.
  - apply new_retries.
  - apply IH.
Qed.

(** C4, amended. The gate of [Terminal.new] computes
    [nextAllowed = lastRun + runIntervalMS]; when [now < nextAllowed] it
    sets [lastRun] to [nextAllowed] and sleeps [nextAllowed - now]
    before it first spawns, otherwise it sets [lastRun] to [now] and
    spawns without a wait. So the first spawn of the call is at the
    [lastRun] it leaves, and in any series of calls the first spawns are
    pairwise at least [runIntervalMS] apart. The retries of a call do
    not pass through the gate: each comes after a [Sleep] of
    [retryIntervalMS] that follows the spawn before it, so that, with
    timers that fire when they are due, consecutive spawns of one call
    are at least [retryIntervalMS] apart, in every call of a series. *)
Theorem gate_spaces_first_launches env cs w now ps oracle :
  0 <= runIntervalMS w ->
  0 < tryCount ps ->
  waits_between (retryIntervalMS ps) true (trace_of (new env now ps oracle w))
    = true /\
  gaps (Z.max 0 (retryIntervalMS ps))
       (spawn_times (trace_of (new env now ps oracle w))) /\
  Forall2 (fun c ts => gaps (Z.max 0 (retryIntervalMS (params_of c))) ts)
          cs (calls env cs w) /\
  spaced (runIntervalMS w) (first_launches env cs w) /\
  lastRun (world_of (new env now ps oracle w))
    = Z.max now (lastRun w + runIntervalMS w) /\
  lastRun (fst (gate now w))
    = (if now <? lastRun w + runIntervalMS w
       then lastRun w + runIntervalMS w else now) /\
  waited_before_spawn (trace_of (new env now ps oracle w))
    = (if now <? lastRun w + runIntervalMS w
       then [lastRun w + runIntervalMS w - now] else []) /\
  head (spawn_times (trace_of (new env now ps oracle w)))
    = Some (lastRun (world_of (new env now ps oracle w))).
Proof.
  intros Hgap Htry.
  pose proof (new_gate_state env now ps oracle w) as [HL _]. simpl in HL.
  pose proof (launch_time_lastRun now w) as [_ Hmax].
  split; [apply new_retries|]. split; [apply new_retries|].
  split; [apply calls_retries|].
  split; [apply first_launches_after, Hgap|].
  split; [lia|].
  split.
  { unfold gate. rewrite Z.gtb_ltb. by destruct (now <? _). }
  split.
  { rewrite new_waited_before_spawn by exact Htry.
    unfold gate. rewrite Z.gtb_ltb. by destruct (now <? _). }
  rewrite new_first_spawn, HL.
  destruct (Z.ltb_spec 0 (tryCount ps)); [reflexivity|lia].
Qed.

Lemma gate_spaces_first_launches_witness :
  spaced 500 (first_launches posix [call_A; call_B] init) /\
  first_launches posix [call_A; call_B] init = [1000; 1505] /\
  gaps 500 (spawn_times (trace_of (new posix 1000 (defaults "yt-dlp" []) second_try init))) /\
  spawn_times (trace_of (new posix 1000 (defaults "yt-dlp" []) second_try init))
  = [1000; 1510].
Proof.
  destruct (gate_spaces_first_launches posix [call_A; call_B] init 1000
              (defaults "yt-dlp" []) second_try) as (_ & Hgaps & _ & Hsp & _).
  - simpl. lia.
  - simpl. lia.
  - split; [exact Hsp|]. split; [reflexivity|]. split; [exact Hgaps|reflexivity].
Defined.

End GovernorSpec.

(** ** Histories: what the ['close'] events of a controller leave behind *)

Module HistoryFacts.
Import Controller Invariants ControllerFacts RegistryFacts.

Lemma run_snoc (evs : list event) (e : event) (w : World) :
  run w (evs ++ [e]) = w' ← run w evs; step w' e.
Proof.
  revert w. induction evs as [|e0 evs IH]; intros w; simpl.
  - by destruct (step w e).
  - destruct (step w e0); simpl; [apply IH|reflexivity].
Qed.

Lemma closes_of_snoc (r : nat) (evs : list event) (e : event) :
  closes_of r (evs ++ [e]) =
  closes_of r evs ++ (if is_close_of r e then [e] else []).
Proof.
  unfold closes_of. rewrite List.filter_app. simpl.
  by destruct (is_close_of r e).
Qed.

Lemma settled_same (cl : list event) (t t' : Terminal) :
  running t' = running t -> closed (process t') = closed (process t) ->
  exitCode t' = exitCode t -> exitSignal t' = exitSignal t ->
  settled cl t -> settled cl t'.
Proof.
  intros Hr Hc Hcode Hsig. unfold settled.
  destruct cl as [|[] [|]]; try tauto; rewrite Hr, Hc, Hcode, Hsig; tauto.
Qed.

Lemma history_step (evs : list event) (w w' : World) (e : event) :
  history_ok evs w -> step w e = Some w' -> history_ok (evs ++ [e]) w'.
Proof.
  intros [Hnone Hsome] Hstep.
  assert (Hother : forall r, is_close_of r e = false ->
                             closes_of r (evs ++ [e]) = closes_of r evs).
  { intros r Hr. rewrite closes_of_snoc, Hr. apply app_nil_r. }
  step_cases Hstep.
  - (* Launch *)
    unfold gate. destruct (_ >? _); simpl;
      (split; intros r; rewrite Hother by reflexivity; [apply Hnone|apply Hsome]).
  - (* Construct *)
    split; intros r; rewrite Hother by reflexivity; simpl.
    + intros Hr. apply Hnone. apply lookup_ge_None. apply lookup_ge_None in Hr.
      rewrite length_app in Hr. lia.
    + intros t Ht. apply lookup_app_Some in Ht as [Ht | [Hge Ht]]; [by apply Hsome|].
      destruct (r - length (heap w))%nat; [|destruct n; discriminate].
      injection Ht as <-.
      rewrite Hnone by (by apply lookup_ge_None). simpl. tauto.
  - (* StdoutData *)
    split; intros r0; rewrite Hother by reflexivity; simpl.
    + intros Hr. apply Hnone. apply lookup_ge_None. apply lookup_ge_None in Hr.
      by rewrite length_insert in Hr.
    + intros t0 Ht0.
      apply list_lookup_insert_Some in Ht0 as [(-> & <- & _) | [_ Ht0]];
        [|by apply Hsome].
      eapply settled_same; [..|by apply Hsome]; reflexivity.
  - (* Close *)
    unfold on_close. rewrite Ht. split; intros r0; simpl.
    + intros Hr.
      assert (Hr' : heap w !! r0 = None).
      { apply lookup_ge_None. apply lookup_ge_None in Hr.
        by rewrite length_insert in Hr. }
      rewrite Hother; [by apply Hnone|].
      simpl. apply Nat.eqb_neq. intros ->. congruence.
    + intros t0 Ht0.
      apply list_lookup_insert_Some in Ht0 as [(-> & <- & _) | [Hne Ht0]].
      * rewrite closes_of_snoc. simpl. rewrite Nat.eqb_refl.
        specialize (Hsome _ _ Ht). unfold settled in Hsome.
        destruct (closes_of r0 evs) as [|[] [|]]; try tauto.
        -- simpl. tauto.
        -- destruct Hsome as (_ & Hcl & _). congruence.
      * rewrite Hother; [by apply Hsome|].
        simpl. by apply Nat.eqb_neq.
  - (* ProcessError *)
    split; intros r0; rewrite Hother by reflexivity; [apply Hnone|apply Hsome].
  - (* StdoutError *)
    split; intros r0; rewrite Hother by reflexivity; [apply Hnone|apply Hsome].
  - (* Kill *)
    split; intros r0; rewrite Hother by reflexivity; simpl.
    + intros Hr. apply Hnone. apply lookup_ge_None. apply lookup_ge_None in Hr.
      by rewrite length_insert in Hr.
    + intros t0 Ht0.
      apply list_lookup_insert_Some in Ht0 as [(-> & <- & _) | [_ Ht0]];
        [|by apply Hsome].
      destruct (kill_keeps env sent signal t) as (_ & _ & ? & ? & ? & ? & _).
      eapply settled_same; [..|by apply Hsome]; assumption.
  - (* Exit *)
    split; intros r0; rewrite Hother by reflexivity; simpl.
    + intros Hr. apply Hnone. apply lookup_ge_None. apply lookup_ge_None in Hr.
      by rewrite length_insert in Hr.
    + intros t0 Ht0.
      apply list_lookup_insert_Some in Ht0 as [(-> & <- & _) | [_ Ht0]];
        [|by apply Hsome].
      eapply settled_same; [..|by apply Hsome]; reflexivity.
Qed.

Lemma history_run (evs : list event) (w : World) :
  run init evs = Some w -> history_ok evs w.
Proof.
  revert w. induction evs as [|e evs IH] using rev_ind; intros w Hrun.
  - injection Hrun as <-. split; [reflexivity|].
    intros r t Ht. destruct r; discriminate.
  - rewrite run_snoc in Hrun.
    destruct (run init evs) as [w0|]; [|discriminate].
    eapply history_step; [by apply IH|exact Hrun].
Qed.

(** Every controller sees at most one ['close']. Before it the
    controller is running and both exit fields read [undefined]; from it
    on, whatever else happens, the controller is not running and the
    fields hold the event's code and signal. *)
Lemma exit_fields_set_once (evs : list event) (w : World) (r : nat) (t : Terminal) :
  run init evs = Some w -> heap w !! r = Some t ->
  (length (closes_of r evs) <= 1)%nat /\ settled (closes_of r evs) t.
Proof.
  intros Hrun Ht. destruct (history_run _ _ Hrun) as [_ Hsome].
  specialize (Hsome _ _ Ht). split; [|exact Hsome].
  unfold settled in Hsome.
  destruct (closes_of r evs) as [|[] [|]]; simpl; try lia; tauto.
Qed.

End HistoryFacts.

(** ** The controller: lookup, exit state, kill, stream errors *)

Module ControllerSpec.
Import Controller Governor Invariants ControllerFacts RegistryFacts GovernorFacts.
Import HistoryFacts IdFacts Samples.

Lemma attempts_reachable env ps oracle fuel i clock w :
  (forall j, length (idbytes_of (oracle j)) = 16%nat) ->
  reachable w ->
  reachable (world_of (attempts env ps oracle fuel i clock w)).
Proof.
  intros Hlen. revert i clock w.
  induction fuel as [|fuel IH]; intros i clock w Hw; simpl; [exact Hw|].
  assert (Hc : reachable (snd (constructor (idbytes_of (oracle i))
                                 (spawned (pid_of (oracle i))) (selector ps) w))).
  { eapply reachable_step; [exact Hw|].
    instantiate (1 := Construct (idbytes_of (oracle i)) (pid_of (oracle i)) (selector ps)).
    simpl. rewrite bool_decide_eq_true_2 by apply Hlen. reflexivity. }
  destruct (outcome_of (oracle i)) as [|d|]; simpl.
  - specialize (IH (S i) (elapse clock (retryIntervalMS ps)) w Hw).
    destruct (attempts _ _ _ _ _ _ _) as [[res w''] tr]. exact IH.
  - destruct (d <? intermissionMS ps); [|exact Hc].
    match goal with
    | |- context [attempts ?e ?p ?o ?f ?j ?c ?v] =>
        specialize (IH j c v Hc); destruct (attempts e p o f j c v) as [[res w''] tr]
    end.
    exact IH.
  - exact Hc.
Qed.

Lemma new_reachable env now ps oracle w :
  (forall j, length (idbytes_of (oracle j)) = 16%nat) ->
  reachable w -> reachable (world_of (new env now ps oracle w)).
Proof.
  intros Hlen Hw. rewrite new_unfold. unfold world_of at 1. simpl.
  apply attempts_reachable; [exact Hlen|].
  eapply reachable_step; [exact Hw|]. by instantiate (1 := Launch now).
Qed.




(** C5, as the claim has it, at a controller whose process has ended
    while its ['close'] is still to come: the runtime has recorded the
    exit, the controller counts as running, it is in the registry and
    [fromID] returns it. Only the ['close'] handler unregisters. *)
Lemma fromID_finds_exited_controller :
  exists w t,
    run init one_exited = Some w /\ heap w !! 0%nat = Some t /\
    exited (process t) = true /\ running t = true /\
    all w !! id t = Some 0%nat /\ fromID (id t) w = Found 0.
Proof. eexists. eexists. repeat split; vm_compute; reflexivity. Qed.

(** C5, amended. In every reachable state the registry holds only
    controllers whose ['close'] has not been handled, each under its own
    identifier; [fromID] is one property read of the registry; and,
    identifiers being unique, [fromID] answers not-found for the
    identifier of a controller once the ['close'] of its process has been
    handled, and answers with the controller until then, whether or not
    the process has ended. *)
Theorem fromID_exited_not_found (w : World) :
  reachable w ->
  (forall k r, all w !! k = Some r ->
     exists t, heap w !! r = Some t /\ id t = k /\ closed (process t) = false) /\
  (forall k r, fromID k w = Found r <-> all w !! k = Some r) /\
  (NoDup (ids w) ->
   forall r t, heap w !! r = Some t -> closed (process t) = true ->
               fromID (id t) w = NotFound) /\
  (NoDup (ids w) ->
   forall r t, heap w !! r = Some t -> closed (process t) = false ->
               fromID (id t) w = Found r).
Proof.
  intros Hw. destruct (inv_reachable _ Hw) as [Hreg Hts].
  split; [|split; [|split]]; cycle 3.
  { intros Hnd r t Ht Hopen. unfold fromID.
    rewrite (registered_reachable _ Hw Hnd r t Ht); [reflexivity|].
    destruct (Hts _ _ Ht) as (_ & _ & _ & Hrc & _). by rewrite Hrc, Hopen. }
  - intros k r Hk. destruct (Hreg k r Hk) as (t & Ht & Hid & Hrun).
    exists t. split; [exact Ht|]. split; [exact Hid|].
    destruct (Hts _ _ Ht) as (_ & _ & _ & Hrc & _).
    rewrite Hrun in Hrc. by destruct (closed (process t)).
  - intros k r. unfold fromID.
    destruct (all w !! k); [|destruct (bool_decide _)]; split; congruence.
  - intros Hnd r t Ht Hclosed. unfold fromID.
    destruct (Hts _ _ Ht) as (Hlen & _ & _ & Hrc & _).
    destruct (all w !! id t) as [r'|] eqn:Hk.
    + destruct (Hreg _ _ Hk) as (t' & Ht' & Hid & Hrun).
      assert (r' = r) as -> by (eapply same_id_same_ref; eauto).
      rewrite Ht in Ht'. injection Ht' as <-.
      rewrite Hrun, Hclosed in Hrc. discriminate.
    + rewrite bool_decide_eq_false_2; [reflexivity|].
      intros Hin. by apply proto_key_length in Hin.
Qed.

(** Settle a decidable goal by evaluation. *)
Ltac by_evaluation :=
  match goal with
  | |- ?G => apply (bool_decide_unpack G); vm_compute; exact I
  end.

Lemma run_reachable (evs : list event) (w : World) :
  run init evs = Some w -> reachable w.
Proof. apply reachable_run, reachable_init. Qed.

Lemma fromID_exited_not_found_witness :
  fromID "0a0a0a0a0a0a0a0a0a0a0a0a0a0a0a0a" after_close = NotFound /\
  fromID "0b0b0b0b0b0b0b0b0b0b0b0b0b0b0b0b" after_close = Found 1.
Proof.
  assert (Hw : reachable after_close) by (by apply (run_reachable one_closed)).
  destruct (fromID_exited_not_found after_close Hw) as (_ & Hread & Hgone & _).
  split.
  - destruct (heap after_close !! 0%nat) as [t|] eqn:Ht;
      [|vm_compute in Ht; discriminate].
    assert (Hid : id t = "0a0a0a0a0a0a0a0a0a0a0a0a0a0a0a0a"%string /\
                  closed (process t) = true).
    { assert (Heq : Some t = heap after_close !! 0%nat) by (symmetry; exact Ht).
      vm_compute in Heq. injection Heq as ->. split; reflexivity. }
    destruct Hid as [<- Hcl].
    apply (Hgone ltac:(by_evaluation) 0%nat t Ht Hcl).
  - apply Hread. reflexivity.
Defined.



(** [kill] on a controller that is not running, or whose handle is
    flagged [killed], does nothing at all. *)
Lemma kill_noop env sent signal t :
  running t = false \/ killed (process t) = true ->
  kill env sent signal t = (t, []).
Proof.
  unfold kill. intros [-> | ->]; [reflexivity|]. by destruct (running t).
Qed.

(** Where [ChildProcess.kill] is used and has sent its signal, a second
    [kill] does nothing. *)
Lemma kill_twice_posix env sent' signal signal' t :
  String.eqb (platform env) "win32" = false ->
  kill env sent' signal' (fst (kill env true signal t))
  = (fst (kill env true signal t), []).
Proof.
  intros Hp. apply kill_noop. unfold kill. rewrite Hp.
  destruct (running t) eqn:Hr; simpl; [|by left].
  destruct (killed (process t)) eqn:Hk; simpl; [by right|].
  right. by rewrite Hk.
Qed.

(** Where [treeKill] is used, a second [kill] does what the first did. *)
Lemma kill_twice_win32 env sent sent' signal t p :
  String.eqb (platform env) "win32" = true ->
  running t = true -> killed (process t) = false -> pid (process t) = Some p ->
  kill env sent signal t
  = (t, TreeKill p signal :: if log env then [ConsoleDebug (id t)] else []) /\
  kill env sent' signal (fst (kill env sent signal t)) = kill env sent signal t.
Proof.
  intros Hp Hr Hk Hpid. unfold kill. rewrite Hp, Hr, Hk, Hpid. simpl.
  rewrite ?Hp, ?Hr, ?Hk, ?Hpid. split; reflexivity.
Qed.

(** C6, at a controller on win32 that is running and has a pid: the
    first [kill] calls [treeKill], and so does the second. Neither guard
    of [kill] reads anything the first call has written. (One defect
    behind this: [treeKill] cannot raise the handle's [killed] flag.) *)
Theorem kill_twice_on_win32_kills_twice :
  exists t, heap one_running_win !! 0%nat = Some t /\
    kill windows true "SIGTERM" t = (t, [TreeKill 4003 "SIGTERM"]) /\
    kill windows true "SIGTERM" (fst (kill windows true "SIGTERM" t))
      = (t, [TreeKill 4003 "SIGTERM"]).
Proof.
  eexists. split; [reflexivity|]. split; reflexivity.
Qed.

(** C7, before the ['close'] event: a controller that has seen no
    ['close'] is running, and its exit fields read [undefined]: they
    compare equal to [null] under [==], but they are not [null]. *)
Theorem exit_fields_undefined_before_close evs w r t :
  run init evs = Some w -> heap w !! r = Some t -> closes_of r evs = [] ->
  running t = true /\
  exitCode t = JUndefined /\ exitSignal t = JUndefined /\
  nullish (exitCode t) = true /\ nullish (exitSignal t) = true /\
  exitCode t <> JNull /\ exitSignal t <> JNull.
Proof.
  intros Hrun Ht Hcl.
  destruct (exit_fields_set_once _ _ _ _ Hrun Ht) as [_ Hs].
  rewrite Hcl in Hs. destruct Hs as (Hr & _ & -> & ->).
  repeat split; [exact Hr|discriminate|discriminate].
Qed.

Lemma exit_fields_undefined_before_close_witness :
  exists t, heap (default init (run init one_open)) !! 0%nat = Some t /\
            exitCode t = JUndefined /\ exitCode t <> JNull.
Proof.
  eexists. split; [reflexivity|].
  destruct (exit_fields_undefined_before_close one_open
              (default init (run init one_open)) 0%nat _ eq_refl eq_refl eq_refl)
    as (_ & Hc & _ & _ & _ & Hn & _).
  split; [exact Hc|exact Hn].
Defined.

End ControllerSpec.

(** ** Reading the output *)

Module StreamSpec.
Import Controller Governor Stream Invariants ControllerFacts RegistryFacts Samples.

Lemma drain_chunks (cs : list chunk) (rest : list stream_event) :
  drain ((Chunk <$> cs) ++ rest) = (cs ++ fst (drain rest), snd (drain rest)).
Proof.
  induction cs as [|c cs IH].
  - simpl. by destruct (drain rest).
  - change (drain ((Chunk <$> c :: cs) ++ rest))
      with (let '(cs0, k) := drain ((Chunk <$> cs) ++ rest) in (c :: cs0, k)).
    by rewrite IH.
Qed.

(** What [select] yields does not depend on how its input ended. *)
Lemma select_yields (f : jsstring -> option jsval) (texts : list jsstring)
    (c c' : completion) :
  fst (select f texts c) = fst (select f texts c').
Proof.
  induction texts as [|x xs IH]; simpl; [reflexivity|].
  destruct (f x); [|reflexivity].
  destruct (select f xs c), (select f xs c'). simpl in *. by rewrite IH.
Qed.

Lemma select_threw (f : jsstring -> option jsval) (texts : list jsstring) :
  snd (select f texts Threw) = Threw.
Proof.
  induction texts as [|x xs IH]; simpl; [reflexivity|].
  destruct (f x); [|reflexivity]. by destruct (select f xs Threw).
Qed.

(** A transform that never throws is applied to every text, and each of
    its results is yielded as it is. *)
Lemma select_total (f : jsstring -> option jsval) (g : jsstring -> jsval)
    (texts : list jsstring) (c : completion) :
  (forall x, f x = Some (g x)) -> select f texts c = (g <$> texts, c).
Proof.
  intros Hf. induction texts as [|x xs IH]; simpl; [reflexivity|].
  by rewrite Hf, IH.
Qed.

(** [listen] reads three things of the controller. *)
Lemma listen_ext dec (t t' : Terminal) (live : list stream_event) :
  data t' = data t -> valueSelector t' = valueSelector t ->
  (stdout (process t') = None <-> stdout (process t) = None) ->
  listen dec t' live = listen dec t live.
Proof.
  intros Hd Hs Ho. unfold listen, listen_raw. rewrite Hd, Hs.
  destruct (stdout (process t)) eqn:E, (stdout (process t')) eqn:E';
    try reflexivity.
  - destruct Ho as [Ho _]. by specialize (Ho eq_refl).
  - destruct Ho as [_ Ho]. by specialize (Ho eq_refl).
Qed.

(** No event changes the transform of a controller or whether it has an
    output stream. *)
Lemma step_keeps_reader (w w' : World) (e : event) (r : nat) (t : Terminal) :
  step w e = Some w' -> heap w !! r = Some t ->
  exists t', heap w' !! r = Some t' /\ valueSelector t' = valueSelector t /\
             (stdout (process t') = None <-> stdout (process t) = None).
Proof.
  intros Hstep Hr.
  assert (Hins : forall r0 t0,
            (valueSelector t0 = valueSelector t /\
             (stdout (process t0) = None <-> stdout (process t) = None)) \/ r0 <> r ->
            exists t', <[r0 := t0]> (heap w) !! r = Some t' /\
                       valueSelector t' = valueSelector t /\
                       (stdout (process t') = None <-> stdout (process t) = None)).
  { intros r0 t0 H0. destruct (decide (r0 = r)) as [-> | Hne].
    - exists t0. split; [|tauto].
      apply list_lookup_insert_eq. by eapply lookup_lt_Some.
    - exists t. by rewrite list_lookup_insert_ne. }
  step_cases Hstep; simpl.
  - exists t. unfold gate. by destruct (_ >? _).
  - exists t. split; [by apply lookup_app_l_Some|done].
  - apply Hins. destruct (decide (r0 = r)) as [-> | Hne]; [left|by right].
    rewrite Ht in Hr. injection Hr as <-. simpl.
    split; [reflexivity|]. by destruct (stdout (process t0)).
  - unfold on_close. rewrite Ht. simpl.
    apply Hins. destruct (decide (r0 = r)) as [-> | Hne]; [left|by right].
    rewrite Ht in Hr. by injection Hr as <-.
  - by exists t.
  - by exists t.
  - apply Hins. destruct (decide (r0 = r)) as [-> | Hne]; [left|by right].
    rewrite Ht in Hr. injection Hr as <-.
    by destruct (kill_keeps env sent signal t0) as (_ & _ & _ & _ & _ & _ & -> & ->).
  - apply Hins. destruct (decide (r0 = r)) as [-> | Hne]; [left|by right].
    rewrite Ht in Hr. by injection Hr as <-.
Qed.

Lemma run_keeps_reader (evs : list event) (w w' : World) (r : nat) (t : Terminal) :
  run w evs = Some w' -> heap w !! r = Some t ->
  exists t', heap w' !! r = Some t' /\ valueSelector t' = valueSelector t /\
             (stdout (process t') = None <-> stdout (process t) = None).
Proof.
  revert w t. induction evs as [|e evs IH]; simpl; intros w t Hrun Hr.
  - injection Hrun as <-. by exists t.
  - destruct (step w e) as [w1|] eqn:Hstep; [|discriminate].
    destruct (step_keeps_reader _ _ _ _ _ Hstep Hr) as (t1 & Hr1 & Hs1 & Ho1).
    destruct (IH _ _ Hrun Hr1) as (t' & Hr' & Hs' & Ho').
    exists t'. split; [exact Hr'|]. split; [congruence|tauto].
Qed.

(** The buffer [#data] of every controller is empty, always: nothing
    ever appends to it. So whatever arrives before the iteration begins
    is not yielded, and [listen] yields the same as if nothing had
    arrived. *)
Lemma listen_ignores_early_chunks dec (w w' : World) (r : nat) (t : Terminal)
    (pre : list chunk) (live : list stream_event) :
  reachable w -> heap w !! r = Some t -> arrive pre r w = Some w' ->
  listen_at dec r w' live = Some (listen dec t live) /\
  fst (listen_raw dec t live) =
    match stdout (process t) with
    | Some _ => dec <$> fst (drain live)
    | None => []
    end.
Proof.
  intros Hw Ht Harr. unfold arrive in Harr.
  destruct (run_keeps_reader _ _ _ _ _ Harr Ht) as (t' & Ht' & Hs & Ho).
  destruct (inv_reachable _ Hw) as [_ Hts].
  destruct (inv_reachable _ (reachable_run _ _ _ Hw Harr)) as [_ Hts'].
  destruct (Hts _ _ Ht) as (_ & _ & Hd & _).
  destruct (Hts' _ _ Ht') as (_ & _ & Hd' & _).
  split.
  - unfold listen_at. rewrite Ht'. simpl. f_equal.
    apply listen_ext; [congruence|exact Hs|exact Ho].
  - unfold listen_raw. rewrite Hd. simpl.
    destruct (stdout (process t)); [|reflexivity]. by destruct (drain live).
Qed.

(** Without a transform [listen] yields the decoded text of each chunk;
    with a transform that does not throw it yields the transform's
    result for each chunk, whatever that result is. *)
Lemma listen_without_transform dec (t : Terminal) (live : list stream_event) :
  valueSelector t = None ->
  listen dec t live
  = (JStr <$> fst (listen_raw dec t live), snd (listen_raw dec t live)).
Proof.
  intros Hs. unfold listen. rewrite Hs. by destruct (listen_raw dec t live).
Qed.

Lemma listen_with_transform dec (t : Terminal) (live : list stream_event)
    (f : jsstring -> option jsval) (g : jsstring -> jsval) :
  valueSelector t = Some f -> (forall x, f x = Some (g x)) ->
  listen dec t live
  = (g <$> fst (listen_raw dec t live), snd (listen_raw dec t live)).
Proof.
  intros Hs Hf. unfold listen. rewrite Hs.
  destruct (listen_raw dec t live) as [texts c]. by apply select_total.
Qed.

(** C1, at one chunk [a] that arrives before the iteration and one chunk
    [b] after: [listen] yields [b] alone. ['data'] is handled by
    [Array.prototype.push] detached from [this.#data]: [a] ends up as
    property [0] of the stream object, and the buffer that [#listen]
    replays stays empty. *)
Theorem listen_loses_early_chunks :
  (w ← arrive [["a"%byte]] 0 one_running;
   listen_at ascii_text 0 w [Chunk ["b"%byte]; End])
  = Some ([JStr (lit "b")], Returned)
  /\ (w ← arrive [["a"%byte]] 0 one_running;
      t ← heap w !! 0%nat;
      Some (data t, slots <$> stdout (process t)))
     = Some ([], Some [["a"%byte]]).
Proof. split; reflexivity. Qed.

(** C2, at the chunks [a], [-], [x], [b] and a transform that answers
    [{value: "a"}], [{}], [{stop: true}], [{value: "b"}]: [listen] yields
    these four objects, where the specification has it yield ["a"] and
    end at [x]. *)
Theorem listen_yields_transform_results :
  listen_at ascii_text 0 one_transforming
    [Chunk ["a"%byte]; Chunk ["-"%byte]; Chunk ["x"%byte]; Chunk ["b"%byte]; End]
  = Some ([JObj [("value"%string, JStr (lit "a"))];
           JObj [];
           JObj [("stop"%string, JBool true)];
           JObj [("value"%string, JStr (lit "b"))]], Returned)
  /\ spec_select sample_transform [lit "a"; lit "-"; lit "x"; lit "b"] Returned
     = ([JStr (lit "a")], Returned).
Proof. split; reflexivity. Qed.

(** C8, as the claim has it, at a running controller: after an ['error']
    of its output stream it is still running. *)
Lemma stream_error_leaves_running :
  step one_running (StdoutError 0) = Some one_running /\
  running <$> heap one_running !! 0%nat = Some true.
Proof. split; reflexivity. Qed.

(** C8, amended. An ['error'] of the output stream of a controller
    changes nothing in the state: no attempt is made again, and the
    controller stays as it is (running, until ['close']). An iteration of
    [listen] in progress yields what it yields for the chunks before the
    error and nothing after; it ends there, by throwing. *)
Theorem stream_error_ends_iteration dec w r t before after :
  heap w !! r = Some t ->
  stdout (process t) <> None ->
  step w (StdoutError r) = Some w /\
  fst (listen dec t ((Chunk <$> before) ++ Error :: after))
    = fst (listen dec t (Chunk <$> before)) /\
  snd (listen dec t ((Chunk <$> before) ++ Error :: after)) = Threw.
Proof.
  intros Ht Hout. split; [simpl; by rewrite Ht|].
  unfold listen, listen_raw.
  destruct (stdout (process t)) as [s|]; [clear Hout|done].
  rewrite drain_chunks. simpl.
  pose proof (drain_chunks before []) as Hd. rewrite app_nil_r in Hd.
  rewrite Hd. simpl.
  destruct (valueSelector t) as [f|]; simpl.
  - split; [apply select_yields|apply select_threw].
  - done.
Qed.

Lemma stream_error_ends_iteration_witness :
  exists t, heap one_running !! 0%nat = Some t /\
            listen ascii_text t [Chunk ["a"%byte]; Error; Chunk ["b"%byte]]
            = ([JStr (lit "a")], Threw).
Proof.
  destruct (heap one_running !! 0%nat) as [t|] eqn:Ht;
    [|vm_compute in Ht; discriminate].
  assert (Heq : Some t = heap one_running !! 0%nat) by (symmetry; exact Ht).
  vm_compute in Heq.
  exists t. split; [reflexivity|].
  destruct (stream_error_ends_iteration ascii_text one_running 0%nat t
              [["a"%byte]] [Chunk ["b"%byte]] Ht) as (_ & Hy & Hc).
  - injection Heq as ->. discriminate.
  - simpl in Hy, Hc |- *. injection Heq as ->. reflexivity.
Defined.

End StreamSpec.

(** ** The progress-decoding transform *)

Module SelectorSpec.
Import Regex Selector.

(** A pattern that starts with [^] can only match at index 0. *)
Lemma scan_anchored (r : regex) (pos : nat) (s : jsstring) :
  scan (Seq Bol r) (S pos) s = None.
Proof.
  revert pos. induction s as [|c s IH]; intros pos; simpl; [reflexivity|].
  apply IH.
Qed.

Lemma exec_anchored (r : regex) (s : jsstring) :
  exec (Seq Bol r) s = match_at (Seq Bol r) 0 s.
Proof.
  unfold exec. destruct s as [|c s]; simpl.
  - by destruct (match_at (Seq Bol r) 0 []).
  - destruct (match_at (Seq Bol r) 0 (c :: s)); [reflexivity|].
    apply scan_anchored.
Qed.

(** A match of [^xy...] starts with a character for [x] and one for
    [y]. *)
Lemma match_two_chars (p1 p2 : N -> bool) (r : regex) (s : jsstring)
    (m : match_result) :
  match_at (Seq Bol (Seq (Class p1) (Seq (Class p2) r))) 0 s = Some m ->
  exists c1 c2 s', s = c1 :: c2 :: s' /\ p1 c1 = true /\ p2 c2 = true.
Proof.
  unfold match_at. simpl.
  destruct s as [|c1 [|c2 s']]; simpl; try discriminate.
  - by destruct (p1 c1).
  - destruct (p1 c1) eqn:H1; [|discriminate].
    destruct (p2 c2) eqn:H2; [|discriminate].
    intros _. by exists c1, c2, s'.
Qed.

Lemma p_is_not_d (c : N) :
  char_i "p" c = true -> char_i "d" c = true -> False.
Proof.
  unfold char_i. intros Hp Hd.
  apply andb_prop in Hp as [_ Hp]. apply andb_prop in Hd as [_ Hd].
  apply N.eqb_eq in Hp. apply N.eqb_eq in Hd.
  rewrite Hp in Hd. vm_compute in Hd. discriminate.
Qed.

(** No text matches both patterns. *)
Lemma progress_excludes_already (text : jsstring) (m : match_result) :
  exec DOWNLOAD_PROGRESS_RE text = Some m ->
  exec ALREADY_DOWNLOADED_RE text = None.
Proof.
  unfold DOWNLOAD_PROGRESS_RE, ALREADY_DOWNLOADED_RE.
  rewrite !exec_anchored. intros Hp.
  destruct (match_at _ 0 text) as [m'|] eqn:Ha in |- *; [exfalso|reflexivity].
  apply match_two_chars in Hp as (c1 & c2 & s' & -> & _ & Hp).
  apply match_two_chars in Ha as (d1 & d2 & s'' & [= <- <- <-] & _ & Hd).
  eapply p_is_not_d; eassumption.
Qed.

(** Greedy repetition stops where the class stops: when the rest of the
    pattern matches there, that match is the result. *)
Lemma star_max {A} (p : N -> bool) (pos : nat) (ws rest : jsstring)
    (caps : list jsstring) (k : cont A) (x : A) :
  Forall (fun c => p c = true) ws ->
  match rest with [] => True | c :: _ => p c = false end ->
  k (pos + length ws)%nat rest caps = Some x ->
  star p pos (ws ++ rest) caps k = Some x.
Proof.
  intros Hws Hrest. revert pos.
  induction Hws as [|c ws Hc _ IH]; intros pos Hk; simpl in *.
  - rewrite Nat.add_0_r in Hk.
    destruct rest as [|c rest]; simpl; [exact Hk|by rewrite Hrest].
  - rewrite Hc, IH; [reflexivity|].
    by replace (S pos + length ws)%nat with (pos + S (length ws))%nat by lia.
Qed.

(** What [DOWNLOAD_PROGRESS_RE] captures: after the marker and a run of
    white space, the text up to the end of the line. *)
Lemma progress_payload (w1 c1 : N) (ws payload rest : jsstring) :
  white w1 = true -> Forall (fun c => white c = true) ws ->
  white c1 = false -> dot c1 = true -> Forall (fun c => dot c = true) payload ->
  match rest with [] => True | c :: _ => dot c = false end ->
  exec DOWNLOAD_PROGRESS_RE
       (lit "[progress]" ++ w1 :: ws ++ c1 :: payload ++ rest)
  = Some {| index := 0;
            whole := lit "[progress]" ++ w1 :: ws ++ c1 :: payload;
            groups := [c1 :: payload] |}.
Proof.
  intros Hw1 Hws Hc1 Hd1 Hpay Hrest.
  unfold DOWNLOAD_PROGRESS_RE. rewrite exec_anchored.
  unfold match_at.
  change (lit "[progress]") with [91; 112; 114; 111; 103; 114; 101; 115; 115; 93]%N.
  cbn [matcher text_i app Nat.eqb].
  change (char_i "[" 91) with true. change (char_i "p" 112) with true.
  change (char_i "r" 114) with true. change (char_i "o" 111) with true.
  change (char_i "g" 103) with true. change (char_i "e" 101) with true.
  change (char_i "s" 115) with true. change (char_i "]" 93) with true.
  cbn iota. rewrite Hw1.
  erewrite (star_max white 11 ws (c1 :: payload ++ rest)); [reflexivity|exact Hws|exact Hc1|].
  cbn [matcher]. rewrite Hd1.
  erewrite (star_max dot _ payload rest); [reflexivity|exact Hpay|exact Hrest|].
  f_equal. f_equal.
  - set (pre := [91; 112; 114; 111; 103; 114; 101; 115; 115; 93]%N
                  ++ w1 :: ws ++ c1 :: payload).
    assert (E : [91; 112; 114; 111; 103; 114; 101; 115; 115; 93]%N
                  ++ w1 :: ws ++ c1 :: payload ++ rest = pre ++ rest).
    { unfold pre. simpl. by rewrite <- app_assoc. }
    simpl in E. rewrite E.
    replace (S (11 + length ws) + length payload - 0)%nat with (length pre).
    + exact (take_app_length pre rest).
    + unfold pre. rewrite length_app. simpl. rewrite length_app. simpl. lia.
  - simpl. f_equal.
    replace (S (length ws + length payload) - length ws)%nat
      with (length (c1 :: payload)) by (simpl; lia).
    exact (take_app_length (c1 :: payload) rest).
Qed.

(** The transform on a progress line as yt-dlp prints it. *)
Lemma downloadValueSelector_progress_line (JSON_parse : jsstring -> option jsval)
    (w1 c1 : N) (ws payload rest : jsstring) :
  white w1 = true -> Forall (fun c => white c = true) ws ->
  white c1 = false -> dot c1 = true -> Forall (fun c => dot c = true) payload ->
  match rest with [] => True | c :: _ => dot c = false end ->
  downloadValueSelector JSON_parse
    (lit "[progress]" ++ w1 :: ws ++ c1 :: payload ++ rest)
  = (fun v => JObj [("data"%string, v)]) <$> JSON_parse (c1 :: payload).
Proof.
  intros Hw1 Hws Hc1 Hd1 Hpay Hrest.
  pose proof (progress_payload w1 c1 ws payload rest Hw1 Hws Hc1 Hd1 Hpay Hrest) as Hm.
  unfold downloadValueSelector.
  rewrite (progress_excludes_already _ _ Hm), Hm.
  unfold group1. cbn [groups].
  by destruct (JSON_parse (c1 :: payload)).
Qed.

End SelectorSpec.

(** * Further properties *)

(** ** Identifiers are as distinct as the random bytes *)

Module IdentifierFacts.
Import Controller IdFacts.

Lemma hex_digit_code (n : N) :
  (n < 16)%N ->
  N_of_ascii (hex_digit n) = (if (n <? 10)%N then 48 + n else 87 + n)%N.
Proof.
  intros Hn. unfold hex_digit.
  destruct (n <? 10)%N; apply N_ascii_embedding; lia.
Qed.

Lemma hex_digit_inj (n m : N) :
  (n < 16)%N -> (m < 16)%N -> hex_digit n = hex_digit m -> n = m.
Proof.
  intros Hn Hm Heq. apply (f_equal N_of_ascii) in Heq.
  rewrite !hex_digit_code in Heq by assumption.
  destruct (N.ltb_spec n 10), (N.ltb_spec m 10); lia.
Qed.

Lemma byte_of_digits (a b : Byte.byte) :
  (Byte.to_N a / 16 = Byte.to_N b / 16)%N ->
  (Byte.to_N a mod 16 = Byte.to_N b mod 16)%N -> a = b.
Proof.
  intros Hq Hr.
  assert (Heq : Byte.to_N a = Byte.to_N b).
  { rewrite (N.div_mod (Byte.to_N a) 16), (N.div_mod (Byte.to_N b) 16) by lia.
    by rewrite Hq, Hr. }
  pose proof (Byte.of_to_N a) as Ha. rewrite Heq, Byte.of_to_N in Ha.
  by injection Ha.
Qed.

Lemma toString_hex_inj (bs bs' : list Byte.byte) :
  toString_hex bs = toString_hex bs' -> bs = bs'.
Proof.
  revert bs'. induction bs as [|b bs IH]; intros [|b' bs']; simpl;
    try discriminate; [reflexivity|].
  intros [= Hhi Hlo Hrest].
  assert (Hb : (Byte.to_N b < 256)%N) by (pose proof (Byte.to_N_bounded b); lia).
  assert (Hb' : (Byte.to_N b' < 256)%N) by (pose proof (Byte.to_N_bounded b'); lia).
  apply hex_digit_inj in Hhi;
    [|apply N.Div0.div_lt_upper_bound; lia|apply N.Div0.div_lt_upper_bound; lia].
  apply hex_digit_inj in Hlo;
    [|apply N.mod_upper_bound; lia|apply N.mod_upper_bound; lia].
  f_equal; [by apply byte_of_digits|by apply IH].
Qed.

(** X1. Two controllers constructed from different random bytes have
    different identifiers, and constructing the second leaves the first
    where [fromID] finds it. *)
Theorem distinct_bytes_distinct_ids (b1 b2 : list Byte.byte)
    (p1 p2 : ChildProcess) (s1 s2 : option (jsstring -> option jsval))
    (w : World) :
  b1 <> b2 ->
  toString_hex b1 <> toString_hex b2 /\
  fromID (toString_hex b1)
         (snd (constructor b2 p2 s2 (snd (constructor b1 p1 s1 w))))
  = Found (length (heap w)) /\
  fromID (toString_hex b2)
         (snd (constructor b2 p2 s2 (snd (constructor b1 p1 s1 w))))
  = Found (S (length (heap w))).
Proof.
  intros Hne.
  assert (Hid : toString_hex b1 <> toString_hex b2)
    by (intros Heq; by apply Hne, toString_hex_inj).
  split; [exact Hid|]. unfold fromID, constructor. simpl. split.
  - rewrite lookup_insert_ne by congruence. by rewrite lookup_insert_eq.
  - rewrite lookup_insert_eq. f_equal. rewrite length_app. simpl. lia.
Qed.

Lemma distinct_bytes_distinct_ids_witness :
  fromID "01010101010101010101010101010101"
    (snd (constructor (replicate 16 "002"%byte) (spawned (Some 2)) None
            (snd (constructor (replicate 16 "001"%byte) (spawned (Some 1)) None init))))
  = Found 0.
Proof.
  apply (distinct_bytes_distinct_ids (replicate 16 "001"%byte)
           (replicate 16 "002"%byte) (spawned (Some 1)) (spawned (Some 2))
           None None init).
  discriminate.
Defined.

End IdentifierFacts.

(** ** More of the launch governor *)

Module LaunchFacts.
Import Controller Governor GovernorFacts Notions.

Lemma new_result env now ps oracle w :
  result_of (new env now ps oracle w) =
  result_of (attempts env ps oracle (Z.to_nat (tryCount ps)) 0
                      (launch_time now w) (fst (gate now w))).
Proof. by rewrite new_unfold. Qed.

Lemma new_world env now ps oracle w :
  world_of (new env now ps oracle w) =
  world_of (attempts env ps oracle (Z.to_nat (tryCount ps)) 0
                     (launch_time now w) (fst (gate now w))).
Proof. by rewrite new_unfold. Qed.

Lemma first_launches_cons env c cs w :
  0 < tryCount (params_of c) ->
  first_launches env (c :: cs) w
  = launch_time (now_of c) w
    :: first_launches env cs
         (world_of (new env (now_of c) (params_of c) (oracle_of c) w)).
Proof.
  intros Htry. unfold first_launches.
  change (calls env (c :: cs) w)
    with (spawn_times (trace_of (new env (now_of c) (params_of c) (oracle_of c) w))
          :: calls env cs (world_of (new env (now_of c) (params_of c) (oracle_of c) w))).
  change (omap head (?x :: ?l)) with
    (match head x with Some y => y :: omap head l | None => omap head l end).
  rewrite new_first_spawn.
  by destruct (Z.ltb_spec 0 (tryCount (params_of c))); [|lia].
Qed.

(** Calls that are all made at the same time. *)
Lemma first_launches_queue env cs w now :
  0 <= runIntervalMS w ->
  now <= lastRun w + runIntervalMS w ->
  Forall (fun c => now_of c = now /\ 0 < tryCount (params_of c)) cs ->
  first_launches env cs w
  = (fun k => lastRun w + runIntervalMS w + Z.of_nat k * runIntervalMS w)
      <$> seq 0 (length cs).
Proof.
  intros Hgap. revert w Hgap. induction cs as [|c cs IH]; intros w Hgap Hnow Hcs.
  { reflexivity. }
  apply Forall_cons in Hcs as [[Hc Htry] Hcs].
  pose proof (new_gate_state env (now_of c) (params_of c) (oracle_of c) w) as [HL HI].
  pose proof (launch_time_lastRun (now_of c) w) as [_ Hmax].
  simpl in HL, HI.
  rewrite first_launches_cons by exact Htry.
  rewrite IH; [|lia|lia|exact Hcs].
  rewrite HL, HI, Hmax, Hc.
  change (seq 0 (length (c :: cs))) with (0%nat :: seq 1 (length cs)).
  rewrite fmap_cons. f_equal; [lia|].
  rewrite <- (fmap_S_seq 0), <- list_fmap_compose.
  apply list_fmap_ext. intros _ k _. simpl. lia.
Qed.

(** X4. Calls of [Terminal.new] that are all made at the same instant
    [now] launch one [runIntervalMS] after another: the first at
    [max now (lastRun + runIntervalMS)], the one in position [k] exactly
    [k] intervals later. *)
Theorem simultaneous_calls_queue_up env cs w now :
  0 <= runIntervalMS w ->
  Forall (fun c => now_of c = now /\ 0 < tryCount (params_of c)) cs ->
  first_launches env cs w
  = (fun k => Z.max now (lastRun w + runIntervalMS w) + Z.of_nat k * runIntervalMS w)
      <$> seq 0 (length cs).
Proof.
  intros Hgap Hcs. destruct cs as [|c cs]; [reflexivity|].
  apply Forall_cons in Hcs as [[Hc Htry] Hcs].
  pose proof (new_gate_state env (now_of c) (params_of c) (oracle_of c) w) as [HL HI].
  pose proof (launch_time_lastRun (now_of c) w) as [_ Hmax].
  simpl in HL, HI.
  rewrite first_launches_cons by exact Htry.
  rewrite (first_launches_queue env cs _ now); [|lia|lia|exact Hcs].
  rewrite HL, HI, Hmax, Hc.
  change (seq 0 (length (c :: cs))) with (0%nat :: seq 1 (length cs)).
  rewrite fmap_cons. f_equal; [lia|].
  rewrite <- (fmap_S_seq 0), <- list_fmap_compose.
  apply list_fmap_ext. intros _ k _. simpl. lia.
Qed.

Lemma simultaneous_calls_queue_up_witness :
  first_launches Samples.posix [Samples.call_A; Samples.call_A; Samples.call_A] init
  = [1000; 1500; 2000].
Proof.
  rewrite (simultaneous_calls_queue_up Samples.posix
             [Samples.call_A; Samples.call_A; Samples.call_A] init 1000).
  - reflexivity.
  - simpl. lia.
  - repeat constructor; simpl; lia.
Defined.

End LaunchFacts.

(** ** More of the life of a controller: [kill], [wait], a throwing transform *)

Module LifecycleFacts.
Import Controller Governor Stream Invariants ControllerFacts RegistryFacts.
Import Text Consumers.

(** X5. [kill] neither stops a controller from counting as running nor
    takes it out of the registry: after [kill] on a controller whose
    process has not closed, on either platform and whether or not the
    signal was sent, [fromID] still returns it. Only ['close'] ends
    that. *)
Theorem kill_leaves_registered env sent signal w w' r t :
  reachable w -> NoDup (ids w) ->
  heap w !! r = Some t -> closed (process t) = false ->
  step w (Kill env sent signal r) = Some w' ->
  exists t', heap w' !! r = Some t' /\ id t' = id t /\
             running t' = true /\ closed (process t') = false /\
             fromID (id t) w' = Found r.
Proof.
  intros Hw Hnd Ht Hopen Hstep. simpl in Hstep. rewrite Ht in Hstep.
  simpl in Hstep. injection Hstep as <-.
  destruct (inv_reachable _ Hw) as [_ Hts].
  destruct (Hts _ _ Ht) as (_ & _ & _ & Hrc & _).
  assert (Hrun : running t = true) by (by rewrite Hrc, Hopen).
  destruct (kill_keeps env sent signal t) as (Hid & _ & Hr & _ & _ & Hc & _).
  exists (fst (kill env sent signal t)). simpl.
  split; [apply list_lookup_insert_eq; by eapply lookup_lt_Some|].
  split; [exact Hid|]. split; [by rewrite Hr|]. split; [by rewrite Hc|].
  unfold fromID. simpl.
  by rewrite (registered_reachable _ Hw Hnd r t Ht Hrun).
Qed.

Lemma kill_leaves_registered_witness :
  exists t', heap Samples.one_running !! 0%nat = Some t' /\
    fromID (id t')
      (set_heap (<[0%nat := fst (kill Samples.posix true "SIGTERM" t')]>
                   (heap Samples.one_running)) Samples.one_running)
    = Found 0.
Proof.
  destruct (heap Samples.one_running !! 0%nat) as [t|] eqn:Ht;
    [|vm_compute in Ht; discriminate].
  assert (Heq : Some t = heap Samples.one_running !! 0%nat) by (symmetry; exact Ht).
  vm_compute in Heq.
  exists t. split; [reflexivity|].
  destruct (kill_leaves_registered Samples.posix true "SIGTERM" Samples.one_running
              (set_heap (<[0%nat := fst (kill Samples.posix true "SIGTERM" t)]>
                           (heap Samples.one_running)) Samples.one_running)
              0%nat t) as (t' & _ & _ & _ & _ & Hfound).
  - apply (reachable_run [Launch 1000;
                          Construct (Samples.idbytes "003"%byte) (Some 4003) None]
                         init);
      [apply reachable_init|reflexivity].
  - match goal with
    | |- ?G => apply (bool_decide_unpack G); vm_compute; exact I
    end.
  - exact Ht.
  - injection Heq as ->. reflexivity.
  - unfold step. by rewrite Ht.
  - exact Hfound.
Defined.

(** What the promise of [wait] has seen when it resolves. *)
Lemma await_close_inv (r : nat) (evs : list event) (w w' : World)
    (rest : list event) :
  await_close r w evs = Some (w', rest) ->
  exists pre code signal w0,
    evs = pre ++ Close r code signal :: rest /\
    closes_of r pre = [] /\
    run w pre = Some w0 /\
    step w0 (Close r code signal) = Some w'.
Proof.
  revert w. induction evs as [|e evs IH]; intros w; simpl; [discriminate|].
  destruct (step w e) as [w1|] eqn:Hstep; [|discriminate].
  destruct (is_close_of r e) eqn:Hc.
  - intros [= <- <-]. destruct e; try discriminate.
    simpl in Hc. apply Nat.eqb_eq in Hc as <-.
    exists [], code, signal, w. by repeat split.
  - intros Hrest. destruct (IH _ Hrest) as (pre & code & signal & w0 & -> & Hcl & Hrun & Hlast).
    exists (e :: pre), code, signal, w0. repeat split.
    + unfold closes_of. simpl. rewrite Hc. exact Hcl.
    + simpl. by rewrite Hstep.
    + exact Hlast.
Qed.

(** In a reachable state [fromID] does not return a controller that is
    not running. *)
Lemma fromID_not_stopped (w : World) (r : nat) (t : Terminal) (k : string) :
  reachable w -> heap w !! r = Some t -> running t = false ->
  fromID k w <> Found r.
Proof.
  intros Hw Ht Hr. destruct (inv_reachable _ Hw) as [Hreg _].
  unfold fromID. destruct (all w !! k) as [r'|] eqn:Hk.
  - intros [= ->]. destruct (Hreg _ _ Hk) as (t' & Ht' & _ & Hrun). congruence.
  - by destruct (bool_decide _).
Qed.

(** X6. When [wait] resolves, the controller is not running and
    [fromID] does not return it under any identifier. Either it was
    already stopped and [wait] resolved at once, or the promise resolved
    at the first ['close'] of its process, and [exitCode] and
    [exitSignal] are then what that event carried, whatever they are. *)
Theorem wait_resolves_after_close (r : nat) (w w' : World)
    (evs rest : list event) :
  reachable w ->
  wait r w evs = Some (w', rest) ->
  exists t', heap w' !! r = Some t' /\ running t' = false /\
    (forall k, fromID k w' <> Found r) /\
    ((w' = w /\ rest = evs) \/
     exists pre code signal,
       evs = pre ++ Close r code signal :: rest /\ closes_of r pre = [] /\
       exitCode t' = code /\ exitSignal t' = signal).
Proof.
  intros Hw Hwait. unfold wait in Hwait.
  destruct (heap w !! r) as [t|] eqn:Ht; [|discriminate]. simpl in Hwait.
  destruct (running t) eqn:Hrun; simpl in Hwait.
  - apply await_close_inv in Hwait
      as (pre & code & signal & w0 & -> & Hcl & Hpre & Hlast).
    pose proof (reachable_run _ _ _ Hw Hpre) as Hw0.
    pose proof (reachable_step _ _ _ Hw0 Hlast) as Hw'.
    simpl in Hlast. destruct (heap w0 !! r) as [t0|] eqn:Ht0; [|discriminate].
    simpl in Hlast. destruct (closed (process t0)); [discriminate|].
    injection Hlast as <-. unfold on_close in *. rewrite Ht0 in *.
    match type of Hw' with
    | context [<[r := ?t1]> (heap w0)] => set (t' := t1) in *
    end.
    assert (Hlook : heap (set_all (delete (id t0) (all w0))
                            (set_heap (<[r := t']> (heap w0)) w0)) !! r = Some t').
    { simpl. apply list_lookup_insert_eq. by eapply lookup_lt_Some. }
    exists t'. split; [exact Hlook|]. split; [reflexivity|]. split.
    { intros k. exact (fromID_not_stopped _ r t' k Hw' Hlook eq_refl). }
    right. exists pre, code, signal. by repeat split.
  - injection Hwait as <- <-. exists t. split; [exact Ht|]. split; [exact Hrun|].
    split; [|by left].
    intros k. by eapply fromID_not_stopped.
Qed.

Lemma wait_resolves_after_close_witness :
  match wait 0 Samples.one_running
          [StdoutData 0 ["a"%byte]; Close 0 (JNum 1) JNull; Launch 5000] with
  | Some (w', rest) =>
      rest = [Launch 5000] /\ running <$> heap w' !! 0%nat = Some false
  | None => False
  end.
Proof.
  destruct (wait 0 Samples.one_running
              [StdoutData 0 ["a"%byte]; Close 0 (JNum 1) JNull; Launch 5000])
    as [[w' rest]|] eqn:Hwait; [|vm_compute in Hwait; discriminate].
  destruct (wait_resolves_after_close 0 Samples.one_running w'
              [StdoutData 0 ["a"%byte]; Close 0 (JNum 1) JNull; Launch 5000]
              rest) as (t' & Ht' & Hrun & _).
  - apply (reachable_run [Launch 1000;
                          Construct (Samples.idbytes "003"%byte) (Some 4003) None]
                         init);
      [apply reachable_init|reflexivity].
  - exact Hwait.
  - split; [|rewrite Ht'; simpl; by rewrite Hrun].
    assert (Heq : Some (w', rest)
                  = wait 0 Samples.one_running
                      [StdoutData 0 ["a"%byte]; Close 0 (JNum 1) JNull; Launch 5000])
      by (symmetry; exact Hwait).
    vm_compute in Heq. by injection Heq as _ ->.
Defined.

Lemma select_until_throw (f : jsstring -> option jsval) (g : jsstring -> jsval)
    (xs ys : list jsstring) (bad : jsstring) (c : completion) :
  Forall (fun x => f x = Some (g x)) xs -> f bad = None ->
  select f (xs ++ bad :: ys) c = (g <$> xs, Threw).
Proof.
  intros Hxs Hbad. induction Hxs as [|x xs Hx _ IH]; simpl.
  - by rewrite Hbad.
  - by rewrite Hx, IH.
Qed.

(** X7. A transform that throws on a chunk ends the iteration of
    [listen] there with that exception: what the transform returned for
    the chunks before has been yielded, and no later chunk is read. *)
Theorem listen_stops_where_transform_throws dec (t : Terminal)
    (f : jsstring -> option jsval) (g : jsstring -> jsval)
    (before : list chunk) (bad : chunk) (after : list stream_event) :
  valueSelector t = Some f -> stdout (process t) <> None -> data t = [] ->
  Forall (fun c => f (dec c) = Some (g (dec c))) before ->
  f (dec bad) = None ->
  listen dec t ((Chunk <$> before) ++ Chunk bad :: after)
  = ((fun c => g (dec c)) <$> before, Threw).
Proof.
  intros Hsel Hout Hdata Hbefore Hbad. unfold listen, listen_raw.
  rewrite Hsel, Hdata. destruct (stdout (process t)); [|done].
  rewrite StreamSpec.drain_chunks. simpl.
  destruct (drain after) as [cs k]. simpl.
  rewrite fmap_app, fmap_cons.
  rewrite (select_until_throw f g); [by rewrite <- list_fmap_compose| |exact Hbad].
  by apply Forall_fmap.
Qed.

Lemma listen_stops_where_transform_throws_witness :
  listen ascii_text Notions.decoding
    [Chunk Notions.progress_chunk; Chunk Notions.broken_chunk;
     Chunk Notions.progress_chunk; End]
  = ([JObj [("data"%string, JObj [("a"%string, JNum 1)])]], Threw).
Proof.
  pose proof (listen_stops_where_transform_throws ascii_text Notions.decoding
                (Selector.downloadValueSelector Selector.parse_sample)
                (fun x => default JNull
                            (Selector.downloadValueSelector Selector.parse_sample x))
                [Notions.progress_chunk] Notions.broken_chunk
                [Chunk Notions.progress_chunk; End]) as H.
  apply H.
  - reflexivity.
  - discriminate.
  - reflexivity.
  - repeat constructor.
  - reflexivity.
Defined.

End LifecycleFacts.

(** ** [trim] *)

Module TextFacts.
Import Regex Text.

Lemma trimStart_head (s s' : jsstring) (c : N) :
  trimStart s = c :: s' -> white c = false.
Proof.
  induction s as [|a s IH]; simpl; [discriminate|].
  destruct (white a) eqn:Ha; [exact IH|]. by intros [= <- _].
Qed.

Lemma trimStart_fixed (s : jsstring) :
  match s with c :: _ => white c = false | [] => True end -> trimStart s = s.
Proof. destruct s as [|c s]; simpl; [done|]. by intros ->. Qed.

Lemma trimStart_suffix (s : jsstring) : exists pre, s = pre ++ trimStart s.
Proof.
  induction s as [|c s [pre IH]]; simpl; [by exists []|].
  destruct (white c); [|by exists []].
  exists (c :: pre). simpl. by rewrite <- IH.
Qed.

Lemma trimEnd_prefix (s : jsstring) : exists suf, s = trimEnd s ++ suf.
Proof.
  unfold trimEnd. destruct (trimStart_suffix (rev s)) as [pre Hpre].
  exists (rev pre). rewrite <- rev_app_distr, <- Hpre. by rewrite rev_involutive.
Qed.

Lemma last_rev_head {A} (l : list A) : last (rev l) = head l.
Proof. destruct l as [|a l]; simpl; [reflexivity|apply last_snoc]. Qed.

Lemma trimEnd_last (s : jsstring) (c : N) :
  last (trimEnd s) = Some c -> white c = false.
Proof.
  unfold trimEnd. intros Hl. rewrite last_rev_head in Hl.
  destruct (trimStart (rev s)) as [|a s'] eqn:E; [discriminate|].
  injection Hl as <-. by eapply trimStart_head.
Qed.

(** What [trim] returns has no white space at either end, and trimming
    it again changes nothing. *)
Lemma trim_trimmed (s : jsstring) :
  (forall c, head (trim s) = Some c -> white c = false) /\
  (forall c, last (trim s) = Some c -> white c = false) /\
  trim (trim s) = trim s.
Proof.
  assert (Hhead : forall c, head (trim s) = Some c -> white c = false).
  { unfold trim. intros c Hc.
    destruct (trimEnd_prefix (trimStart s)) as [suf Hsuf].
    destruct (trimEnd (trimStart s)) as [|a s1] eqn:E; [discriminate|].
    injection Hc as ->. simpl in Hsuf. by eapply trimStart_head. }
  split; [exact Hhead|]. split; [apply trimEnd_last|].
  unfold trim at 1.
  rewrite (trimStart_fixed (trim s)).
  - unfold trim, trimEnd. rewrite rev_involutive.
    rewrite (trimStart_fixed (trimStart _)); [reflexivity|].
    destruct (trimStart (rev (trimStart s))) as [|a s1] eqn:E; [done|].
    by eapply trimStart_head.
  - destruct (trim s) as [|a s1] eqn:E; [done|]. by apply Hhead.
Qed.

End TextFacts.

(** ** The callers that read one value: [getYTDLPVersion], [updateYTDLP] *)

Module ReaderFacts.
Import Controller Governor Stream GovernorFacts LaunchFacts Notions.
Import Regex Text Downloader Consumers TextFacts.

(** The controller [Terminal.new] returns is as its constructor made
    it. *)
Lemma attempts_result_fresh env ps oracle fuel i clock w r :
  result_of (attempts env ps oracle fuel i clock w) = Some r ->
  exists j, heap (world_of (attempts env ps oracle fuel i clock w)) !! r
            = Some (fresh (oracle j) ps).
Proof.
  revert i clock w. induction fuel as [|fuel IH]; intros i clock w; simpl;
    [discriminate|].
  assert (Hc : (heap w ++ [fresh (oracle i) ps]) !! length (heap w)
               = Some (fresh (oracle i) ps)).
  { rewrite lookup_app_r by lia. by rewrite Nat.sub_diag. }
  destruct (outcome_of (oracle i)) as [|d|]; simpl.
  - specialize (IH (S i) (elapse clock (retryIntervalMS ps)) w).
    destruct (attempts _ _ _ _ _ _ _) as [[res w''] tr]. exact IH.
  - destruct (d <? intermissionMS ps).
    + match goal with
      | |- context [attempts ?e ?p ?o ?f ?j ?c ?v] =>
          specialize (IH j c v); destruct (attempts e p o f j c v) as [[res w''] tr]
      end.
      exact IH.
    + intros [= <-]. by exists i.
  - intros [= <-]. by exists i.
Qed.

Lemma the_terminal_fresh env now ps oracle w r :
  result_of (new env now ps oracle w) = Some r ->
  exists j, the_terminal (new env now ps oracle w) = Some (r, fresh (oracle j) ps).
Proof.
  intros Hres. unfold the_terminal. rewrite Hres. simpl.
  rewrite new_result in Hres. rewrite new_world.
  destruct (attempts_result_fresh _ _ _ _ _ _ _ _ Hres) as [j ->]. by exists j.
Qed.

Lemma version_loop_first (empties : list jsstring) (s : jsstring)
    (vs : list jsval) (c : completion) :
  Forall (fun e => e = []) empties -> s <> [] ->
  version_loop ((JStr <$> empties) ++ JStr s :: vs) c = (Value (JStr (trim s)), true).
Proof.
  intros He Hs. induction He as [|e empties -> _ IH]; simpl.
  - by destruct s.
  - exact IH.
Qed.

(** X9. When no attempt to start the binary holds, [getYTDLPVersion]
    returns [null]; it does not iterate and does not call [kill]. *)
Theorem getYTDLPVersion_null_without_binary dec env sent now oracle path w live :
  (forall i : nat,
     Z.of_nat i < tryCount (defaults (getYTDLPFilePath env path) ["--version"%string]) ->
     fails (defaults (getYTDLPFilePath env path) ["--version"%string])
           (outcome_of (oracle i)) = true) ->
  getYTDLPVersion dec env sent now oracle path w live
  = (Value JNull,
     world_of (new env now (defaults (getYTDLPFilePath env path) ["--version"%string])
                   oracle w),
     []).
Proof.
  intros Hfail. unfold getYTDLPVersion, the_terminal.
  rewrite new_result.
  destruct (attempts_exhausted env
              (defaults (getYTDLPFilePath env path) ["--version"%string]) oracle
              (Z.to_nat (tryCount
                 (defaults (getYTDLPFilePath env path) ["--version"%string])))
              0%nat (launch_time now w) (fst (gate now w))) as [-> _];
    [|reflexivity].
  intros j Hj. apply Hfail. lia.
Qed.


Lemma getYTDLPVersion_null_without_binary_witness :
  fst (fst (getYTDLPVersion ascii_text Samples.posix true 1000 Samples.missing
              None init [Chunk version_chunk; End])) = Value JNull.
Proof.
  rewrite (getYTDLPVersion_null_without_binary ascii_text Samples.posix true 1000
             Samples.missing None init [Chunk version_chunk; End]).
  - reflexivity.
  - intros i _. reflexivity.
Defined.


End ReaderFacts.

(** ** More of the progress-decoding transform *)

Module MarkerFacts.
Import Regex Selector SelectorSpec.

(** Where the rest of the pattern matches without any repetition, the
    repetition matches too. *)
Lemma star_here {A} (p : N -> bool) (pos : nat) (s : jsstring)
    (caps : list jsstring) (k : cont A) :
  is_Some (k pos s caps) -> is_Some (star p pos s caps k).
Proof.
  intros Hk. destruct s as [|c s]; simpl; [exact Hk|].
  destruct (p c); [|exact Hk].
  destruct (star p (S pos) s caps k); [by eexists|exact Hk].
Qed.

(** Where the rest of the pattern matches after a run of the class, the
    repetition matches, at that place or further on. *)
Lemma star_some {A} (p : N -> bool) (pos : nat) (ws rest : jsstring)
    (caps : list jsstring) (k : cont A) :
  Forall (fun c => p c = true) ws ->
  is_Some (k (pos + length ws)%nat rest caps) ->
  is_Some (star p pos (ws ++ rest) caps k).
Proof.
  intros Hws. revert pos. induction Hws as [|c ws Hc _ IH]; intros pos Hk; simpl in *.
  - apply star_here. by rewrite Nat.add_0_r in Hk.
  - rewrite Hc.
    destruct (IH (S pos)) as [x ->]; [|by eexists].
    by replace (S pos + length ws)%nat with (pos + S (length ws))%nat by lia.
Qed.

(** A literal of ASCII characters matches itself. *)
Lemma text_i_itself {A} (s : string) (r : regex) (pos : nat) (rest : jsstring)
    (caps : list jsstring) (k : cont A) :
  Forall (fun a => (N_of_ascii a <? 128)%N = true) (list_ascii_of_string s) ->
  matcher (text_i s r) pos (lit s ++ rest) caps k
  = matcher r (pos + String.length s)%nat rest caps k.
Proof.
  revert pos. induction s as [|a s IH]; intros pos Hs; simpl.
  - by rewrite Nat.add_0_r.
  - apply Forall_cons in Hs as [Ha Hs].
    unfold char_i at 1. rewrite Ha, N.eqb_refl. simpl.
    unfold lit in IH. rewrite IH by exact Hs. f_equal. lia.
Qed.

(** X11. A text that starts with [[download]], goes on with at least
    one character, none of them a line terminator, and then has the words
    [has already been downloaded], is answered with [{stop: true}],
    whatever follows the words. *)
Theorem downloadValueSelector_already_downloaded
    (JSON_parse : jsstring -> option jsval) (c : N) (mid rest : jsstring) :
  dot c = true -> Forall (fun x => dot x = true) mid ->
  downloadValueSelector JSON_parse
    (lit "[download]" ++ c :: mid ++ lit "has already been downloaded" ++ rest)
  = Some (JObj [("stop"%string, JBool true)]).
Proof.
  intros Hc Hmid.
  assert (Hm : is_Some (exec ALREADY_DOWNLOADED_RE
            (lit "[download]" ++ c :: mid ++ lit "has already been downloaded" ++ rest))).
  { unfold ALREADY_DOWNLOADED_RE. rewrite exec_anchored. unfold match_at.
    cbn [matcher Nat.eqb].
    rewrite text_i_itself by (repeat constructor).
    cbn [matcher]. apply star_here. cbn [matcher]. rewrite Hc.
    apply star_some; [exact Hmid|]. cbn [matcher]. apply star_here.
    rewrite text_i_itself by (repeat constructor).
    cbn [matcher]. by eexists. }
  unfold downloadValueSelector. by destruct Hm as [m ->].
Qed.

Lemma downloadValueSelector_already_downloaded_witness :
  downloadValueSelector parse_sample
    (lit "[download] a.mp4 has already been downloaded" ++ [10%N])
  = Some (JObj [("stop"%string, JBool true)]).
Proof.
  apply (downloadValueSelector_already_downloaded parse_sample 32%N
           (lit "a.mp4 ") [10%N]).
  - reflexivity.
  - repeat constructor.
Defined.

Lemma bracket_only (c : N) : char_i "[" c = true -> c = 91%N.
Proof.
  unfold char_i, canonicalize. intros H.
  apply andb_prop in H as [_ H]. apply N.eqb_eq in H.
  change (N_of_ascii "[") with 91%N in H.
  destruct ((97 <=? c) && (c <=? 122))%N eqn:E; simpl in H; [|exact H].
  apply andb_prop in E as [E1 E2].
  apply N.leb_le in E1. apply N.leb_le in E2. lia.
Qed.

Lemma no_match_without_bracket (r : regex) (text : jsstring) :
  match text with c :: _ => c <> 91%N | [] => True end ->
  exec (Seq Bol (Seq (Class (char_i "[")) r)) text = None.
Proof.
  intros Hc. rewrite exec_anchored. unfold match_at. simpl.
  destruct text as [|c text]; [reflexivity|].
  destruct (char_i "[" c) eqn:E; [|reflexivity].
  by apply bracket_only in E.
Qed.

(** X13. A text that does not begin with [[], the empty text included,
    is answered with [null]: neither pattern is looked for further into
    the text, and [JSON.parse] is not called. *)
Theorem downloadValueSelector_needs_bracket
    (JSON_parse : jsstring -> option jsval) (text : jsstring) :
  match text with c :: _ => c <> 91%N | [] => True end ->
  downloadValueSelector JSON_parse text = Some JNull.
Proof.
  intros Hc. unfold downloadValueSelector, ALREADY_DOWNLOADED_RE, DOWNLOAD_PROGRESS_RE.
  cbn [text_i].
  rewrite !no_match_without_bracket by exact Hc. reflexivity.
Qed.

Lemma downloadValueSelector_needs_bracket_witness :
  downloadValueSelector parse_sample
    (lit " [progress] {" ++ [34%N] ++ lit "a" ++ [34%N] ++ lit ":1}")
  = Some JNull.
Proof.
  apply (downloadValueSelector_needs_bracket parse_sample). simpl. lia.
Defined.

(** X12. The transform on a text that begins with a progress line as
    yt-dlp prints it: after [[progress]] and a run of white space, the
    text up to the first line terminator is handed to [JSON.parse], and
    what comes back is answered as [{data: ...}]; where [JSON.parse]
    throws, so does the transform. Lines that follow in the same text are
    not looked at. *)
Theorem downloadValueSelector_first_line_payload
    (JSON_parse : jsstring -> option jsval)
    (w1 c1 : N) (ws payload rest : jsstring) :
  white w1 = true -> Forall (fun c => white c = true) ws ->
  white c1 = false -> dot c1 = true -> Forall (fun c => dot c = true) payload ->
  match rest with [] => True | c :: _ => dot c = false end ->
  downloadValueSelector JSON_parse
    (lit "[progress]" ++ w1 :: ws ++ c1 :: payload ++ rest)
  = (fun v => JObj [("data"%string, v)]) <$> JSON_parse (c1 :: payload).
Proof.
  intros Hw1 Hws Hc1 Hd1 Hpay Hrest.
  pose proof (progress_payload w1 c1 ws payload rest Hw1 Hws Hc1 Hd1 Hpay Hrest) as Hm.
  unfold downloadValueSelector.
  rewrite (progress_excludes_already _ _ Hm), Hm.
  unfold group1. cbn [groups].
  by destruct (JSON_parse (c1 :: payload)).
Qed.

Lemma downloadValueSelector_first_line_payload_witness :
  downloadValueSelector parse_sample
    (lit "[progress] {" ++ [34%N] ++ lit "a" ++ [34%N] ++ lit ":1}" ++ [10%N]
       ++ lit "[progress] {}")
  = Some (JObj [("data"%string, JObj [("a"%string, JNum 1)])]).
Proof.
  pose proof (downloadValueSelector_first_line_payload parse_sample 32%N 123%N []
                ([34%N] ++ lit "a" ++ [34%N] ++ lit ":1}")
                ([10%N] ++ lit "[progress] {}")) as H.
  etransitivity; [apply H|reflexivity].
  - reflexivity.
  - constructor.
  - reflexivity.
  - reflexivity.
  - repeat constructor.
  - reflexivity.
Defined.

End MarkerFacts.

(** ** Argument lists *)

Module UtilsFacts.
Import Utils.

Lemma push_if_length (flags : list string) (x : option string) :
  length (push_if flags x) = (present x * S (length flags))%nat.
Proof.
  destruct x as [[|c s]|]; simpl; try reflexivity.
  rewrite length_app. simpl. lia.
Qed.

Lemma push_if_nonempty (flags : list string) (x : option string) :
  Forall (fun s => s <> ""%string) flags ->
  Forall (fun s => s <> ""%string) (push_if flags x).
Proof.
  intros Hf. destruct x as [[|c s]|]; simpl; try constructor.
  apply Forall_app. split; [exact Hf|]. by repeat constructor.
Qed.

(** X14. Whatever the options, [getArgs] starts with the URL and the
    seven [BASE_ARGS], among them the progress template; each option that
    is a non-empty string adds its flag and its value ([audioFormat]
    adds [-x] as well), an option that is missing or empty adds nothing,
    and no argument after the URL is ever the empty string. *)
Theorem getArgs_shape (a : Args) :
  take 8 (getArgs a) = url a :: BASE_ARGS /\
  length (getArgs a)
  = (8 + 2 * (present (output a) + present (videoFormat a) + present (audioQuality a)
              + present (remuxVideo a) + present (limitRate a)
              + present (cookiesFromBrowser a))
       + 3 * present (audioFormat a))%nat /\
  Forall (fun s => s <> ""%string) (drop 1 (getArgs a)).
Proof.
  unfold getArgs. split; [reflexivity|]. split.
  - rewrite !length_app, !push_if_length. simpl. lia.
  - simpl. repeat (apply Forall_cons; split; [discriminate|]).
    repeat (apply Forall_app; split);
      apply push_if_nonempty; by repeat constructor.
Qed.

(** X15. [getMetadataArgs] returns flag and value for each of
    [cookiesFromBrowser] and [userAgent] that is a non-empty string, in
    that order: two strings per option, none of them empty, and nothing
    at all when the options are [null], [undefined] or hold neither. *)
Theorem getMetadataArgs_shape (options : option MetadataOptions) :
  getMetadataArgs options
  = match options ≫= meta_cookiesFromBrowser with
    | Some (String c s) => ["--cookies-from-browser"%string; String c s]
    | _ => []
    end ++
    match options ≫= userAgent with
    | Some (String c s) => ["--user-agent"%string; String c s]
    | _ => []
    end /\
  length (getMetadataArgs options)
  = (2 * (present (options ≫= meta_cookiesFromBrowser)
          + present (options ≫= userAgent)))%nat /\
  Forall (fun s => s <> ""%string) (getMetadataArgs options) /\
  (getMetadataArgs options = [] <->
   present (options ≫= meta_cookiesFromBrowser) = 0%nat /\
   present (options ≫= userAgent) = 0%nat).
Proof.
  unfold getMetadataArgs.
  destruct (options ≫= meta_cookiesFromBrowser) as [[|c s]|],
           (options ≫= userAgent) as [[|c' s']|]; simpl;
    (split; [reflexivity|]); (split; [reflexivity|]);
    (split; [by repeat constructor|]); split; (discriminate || tauto || lia).
Qed.

End UtilsFacts.

(** ** The downloader *)

Module DownloaderFacts.
Import Controller Regex Text Downloader Notions TextFacts.

(** X16. [getYTDLPFilePath] returns a non-empty path that it maps to
    itself: the path it is given when that is a non-empty string, and
    otherwise a path that starts with [./yt-dlp], on every platform. *)
Theorem getYTDLPFilePath_default (env : Env) (p : option string) :
  getYTDLPFilePath env p <> ""%string /\
  getYTDLPFilePath env (Some (getYTDLPFilePath env p)) = getYTDLPFilePath env p /\
  match p with
  | Some (String c s) => getYTDLPFilePath env p = String c s
  | _ => String.prefix "./yt-dlp" (getYTDLPFilePath env p) = true
  end.
Proof.
  assert (Hd : exists s, "./" +:+ getYTDLPFileName (platform env) = String "." s /\
                         String.prefix "./yt-dlp"
                           ("./" +:+ getYTDLPFileName (platform env)) = true).
  { unfold getYTDLPFileName.
    destruct (String.eqb (platform env) "win32"); [by eexists|].
    destruct (String.eqb (platform env) "linux"); [by eexists|].
    destruct (String.eqb (platform env) "darwin"); by eexists. }
  destruct Hd as (s & Hs & Hpre).
  unfold getYTDLPFilePath.
  destruct p as [[|c s0]|]; rewrite ?Hs; rewrite <- ?Hs; try done.
Qed.




(** X18. With a working binary and no version asked for, a forced call
    of [downloadYTDLP] does not download: it hands the path to
    [updateYTDLP] and returns, without asking the release feed or the
    network. *)
Theorem downloadYTDLP_forced_uses_updater fuel net o (c : N) (v : jsstring)
    nowMS feed cfg :
  forceDownload o = true ->
  truthy_text (version o) = false ->
  downloadYTDLP fuel net o (Some (c :: v)) nowMS feed cfg
  = ({| ytdlpDownloadIntervalMS := ytdlpDownloadIntervalMS cfg;
        ytdlpLastDownloadMS := nowMS |},
     [UseUpdater (match filePath o with
                  | Some (String a s) => String a s
                  | _ => "./" +:+ getYTDLPFileName (for_platform o)
                  end)],
     Returns).
Proof.
  intros Hforce Hver. unfold downloadYTDLP. rewrite Hforce, Hver. reflexivity.
Qed.

Lemma downloadYTDLP_forced_uses_updater_witness :
  snd (fst (downloadYTDLP 5 three_hops
              {| filePath := None; version := None; for_platform := "win32";
                 forceDownload := true |}
              (Some (lit "2024.12.01")) 5 Throws Config_init))
  = [UseUpdater "./yt-dlp.exe"].
Proof.
  rewrite (downloadYTDLP_forced_uses_updater 5 three_hops _ 50%N (lit "024.12.01"));
    reflexivity.
Defined.

(** X19. With no working binary, [downloadYTDLP] is never turned away
    and never stops short: it records the time of the call, and then one
    of three things happens. Where no version is asked for and the
    lookup of the latest release never settles, the call never settles
    either; where that lookup rejects or answers without a first tag, the
    call throws; otherwise it fetches a file from the release address
    made of a version and the platform's file name, into the given path
    or, by default, into [./] and that file name. The version is the one
    asked for, or else the trimmed tag of the first release, asked for
    once; the call then ends as [downloadFile] ends. *)
Theorem downloadYTDLP_missing_binary fuel net o nowMS feed cfg :
  let r := downloadYTDLP fuel net o None nowMS feed cfg in
  let path := match filePath o with
              | Some (String a s) => String a s
              | _ => "./" +:+ getYTDLPFileName (for_platform o)
              end in
  let fileURL v := lit "https://github.com/yt-dlp/yt-dlp/releases/download/"
                     ++ v ++ lit "/" ++ lit (getYTDLPFileName (for_platform o)) in
  fst (fst r) = {| ytdlpDownloadIntervalMS := ytdlpDownloadIntervalMS cfg;
                   ytdlpLastDownloadMS := nowMS |} /\
  ((truthy_text (version o) = false /\ snd (fst r) = [AskReleases] /\
    feed = Pending /\ snd r = FeedPending) \/
   (truthy_text (version o) = false /\ snd (fst r) = [AskReleases] /\
    (feed = Throws \/ feed = Value [] \/ exists rs, feed = Value (None :: rs)) /\
    snd r = FeedThrows) \/
   exists asked v,
     snd (fst r) = asked ++ [Download (fileURL v) path] /\
     snd r = FileEnds (fst (downloadFile fuel net (fileURL v) path)) /\
     ((version o = Some v /\ v <> [] /\ asked = []) \/
      (truthy_text (version o) = false /\ asked = [AskReleases] /\
       exists tag rs, feed = Value (Some tag :: rs) /\ v = trim tag))).
Proof.
  unfold downloadYTDLP. rewrite andb_false_r.
  destruct (forceDownload o), (version o) as [[|c v]|] eqn:Hv,
    feed as [[|[tag|] rs]| |];
    cbn -[lit String.append]; (split; [reflexivity|]);
    first [ solve [left; done]
          | solve [right; left; repeat split; eauto]
          | solve [right; right; exists [], (c :: v); repeat split; left; done]
          | solve [right; right; exists [AskReleases], (trim tag); repeat split;
                   right; repeat split; by exists tag, rs] ].
Qed.




End DownloaderFacts.

(** ** Fetching a file and asking for the latest release *)

Module FetchFacts.
Import Regex Text Downloader Notions TextFacts.

(** X20. [downloadFile] follows the [Location] headers one request
    after the other, however many there are; the first response without
    one is written to the file and alone decides how the call settles:
    resolved when its status is 200, rejected otherwise. *)
Theorem downloadFile_follows_redirects (net : network) (hops : list jsstring) :
  forall (fuel : nat) (u final : jsstring) (m : response) (path : string),
    u <> [] ->
    redirects net u hops final ->
    net final = Some m ->
    truthy_text (location m) = false ->
    (length hops < fuel)%nat ->
    downloadFile fuel net u path
    = (processMessageToFile m,
       (Get <$> (u :: hops)) ++ [WriteFile path final]).
Proof.
  induction hops as [|v hops IH]; intros fuel u final m path Hu Hred Hm Hloc Hfuel.
  - simpl in Hred. subst final.
    destruct fuel as [|fuel]; [simpl in Hfuel; lia|].
    destruct u as [|c u]; [done|]. simpl. rewrite Hm.
    destruct (location m) as [[|a l]|]; try discriminate; reflexivity.
  - destruct Hred as (Hv & (m0 & Hm0 & Hl0) & Hred).
    destruct fuel as [|fuel]; [simpl in Hfuel; lia|].
    destruct u as [|c u]; [done|].
    destruct v as [|a v]; [done|].
    cbn [downloadFile]. rewrite Hm0, Hl0.
    rewrite (IH fuel (a :: v) final m path); try assumption; try done.
    simpl in Hfuel. lia.
Qed.

Lemma downloadFile_follows_redirects_witness :
  downloadFile 3 three_hops (lit "a") "out"
  = (Rejected {| location := None; statusCode := 404; body_arrives := true |},
     [Get (lit "a"); Get (lit "b"); Get (lit "c"); WriteFile "out" (lit "c")]).
Proof.
  apply (downloadFile_follows_redirects three_hops [lit "b"; lit "c"] 3 (lit "a")
           (lit "c") {| location := None; statusCode := 404; body_arrives := true |}).
  - discriminate.
  - simpl. split; [discriminate|]. split; [by eexists|].
    split; [discriminate|]. split; [by eexists|]. reflexivity.
  - reflexivity.
  - reflexivity.
  - simpl. lia.
Defined.

(** X21. [downloadFile] keeps no count of the redirects it follows: on
    an address whose response redirects to the same address it asks
    again and again, and no number of requests settles the call or
    writes the file. *)
Theorem downloadFile_redirect_loop (net : network) (u : jsstring) (m : response)
    (path : string) :
  u <> [] ->
  net u = Some m ->
  location m = Some u ->
  forall fuel, downloadFile fuel net u path = (OutOfFuel, replicate fuel (Get u)).
Proof.
  intros Hu Hm Hl fuel. induction fuel as [|fuel IH].
  - by destruct u.
  - destruct u as [|c u]; [done|].
    cbn [downloadFile]. rewrite Hm, Hl. by rewrite IH.
Qed.

Lemma downloadFile_redirect_loop_witness :
  downloadFile 4 mirror (lit "a") "out"
  = (OutOfFuel, [Get (lit "a"); Get (lit "a"); Get (lit "a"); Get (lit "a")]).
Proof.
  apply (downloadFile_redirect_loop mirror (lit "a")
           {| location := Some (lit "a"); statusCode := 301; body_arrives := true |});
    [discriminate|reflexivity|reflexivity].
Defined.

(** What [getLatestYTDLPVersion] resolves with: [null], or a string
    that [trim] returned. *)
Lemma getLatestYTDLPVersion_value (feed : releases) :
  match feed with
  | Pending => getLatestYTDLPVersion feed = Pending
  | _ => getLatestYTDLPVersion feed = Value JNull \/
         exists tag, getLatestYTDLPVersion feed = Value (JStr (trim tag))
  end.
Proof.
  unfold getLatestYTDLPVersion, latest_body.
  destruct feed as [[|[tag|] rs]| |]; simpl; eauto.
Qed.

(** X22. [getLatestYTDLPVersionFromGitHub] settles exactly when the
    lookup of the releases does: while that stays pending (the request
    fails, or the body is not JSON), so does the call. When the lookup
    answers or rejects, the call resolves, and never with the message of
    its [catch]: the report is either [ok] with a version that is not
    empty and has no white space at either end, or not [ok], without
    version, with the message that the version could not be
    retrieved. *)
Theorem getLatestYTDLPVersionFromGitHub_report (detail : jsstring) (feed : releases) :
  match feed with
  | Pending => getLatestYTDLPVersionFromGitHub detail feed = Pending
  | _ =>
      exists rep,
        getLatestYTDLPVersionFromGitHub detail feed = Value rep /\
        if ok rep then
          exists v, reported rep = Some v /\ v <> [] /\ trim v = v /\
                    (forall c, head v = Some c -> white c = false) /\
                    (forall c, last v = Some c -> white c = false) /\
                    message rep = lit "Latest yt-dlp version: " ++ v
        else
          reported rep = None /\
          message rep = lit "Unable to retrieve the latest yt-dlp version from GitHub."
  end.
Proof.
  assert (Hsettled :
    (getLatestYTDLPVersion feed = Value JNull \/
     exists tag, getLatestYTDLPVersion feed = Value (JStr (trim tag))) ->
    exists rep,
      getLatestYTDLPVersionFromGitHub detail feed = Value rep /\
      if ok rep then
        exists v, reported rep = Some v /\ v <> [] /\ trim v = v /\
                  (forall c, head v = Some c -> white c = false) /\
                  (forall c, last v = Some c -> white c = false) /\
                  message rep = lit "Latest yt-dlp version: " ++ v
      else
        reported rep = None /\
        message rep = lit "Unable to retrieve the latest yt-dlp version from GitHub.").
  { unfold getLatestYTDLPVersionFromGitHub. intros [-> | [tag ->]].
    - eexists. split; [reflexivity|]. by simpl.
    - destruct (trim_trimmed tag) as (Hh & Hl & Hi).
      destruct (trim tag) as [|c v] eqn:E.
      + eexists. split; [reflexivity|]. by simpl.
      + eexists. split; [reflexivity|]. simpl.
        exists (c :: v). repeat split; try done. }
  pose proof (getLatestYTDLPVersion_value feed) as Hv.
  destruct feed as [rs| |]; [by apply Hsettled|by apply Hsettled|].
  unfold getLatestYTDLPVersionFromGitHub. by rewrite Hv.
Qed.

End FetchFacts.

(** ** Reading the output of a run *)

Module OutputFacts.
Import Controller Stream Text Consumers Notions.

Lemma playlist_loop_skips parse (before rest : list jsstring) (c : completion) :
  Forall (passed_over parse) before ->
  playlist_loop parse (before ++ rest) c = playlist_loop parse rest c.
Proof.
  intros Hb. induction Hb as [|text before Ht _ IH]; [reflexivity|].
  simpl. unfold passed_over in Ht.
  destruct (parse text) as [d|]; [by rewrite Ht|exact IH].
Qed.

Lemma listen_raw_live dec (t : Terminal) (cs : list chunk) (rest : list stream_event) :
  stdout (process t) <> None ->
  listen_raw dec t ((Chunk <$> cs) ++ rest)
  = ((dec <$> data t) ++ (dec <$> cs) ++ (dec <$> fst (drain rest)), snd (drain rest)).
Proof.
  intros Hs. unfold listen_raw. destruct (stdout (process t)); [|done].
  rewrite StreamSpec.drain_chunks. by rewrite fmap_app.
Qed.

(** X24. [getPlaylistInfo] parses every chunk of the output on its
    own: when the stream ends and no single text has parsed to something
    truthy, it resolves with [{ok: false}], also when the texts together
    are the document. *)
Theorem getPlaylistInfo_never_joins_chunks dec parse env sent (t at_end : Terminal)
    (cs : list chunk) (after : list stream_event) :
  stdout (process t) <> None ->
  Forall (passed_over parse) (dec <$> data t ++ cs) ->
  fst (getPlaylistInfo_read dec parse env sent (Some t)
         ((Chunk <$> cs) ++ End :: after) at_end)
  = Value (false, JUndefined).
Proof.
  intros Hs Hall. unfold getPlaylistInfo_read.
  rewrite listen_raw_live by exact Hs. cbn [fst snd drain fmap list_fmap].
  rewrite app_nil_r, <- fmap_app.
  pose proof (playlist_loop_skips parse _ [] Returned Hall) as Hp.
  rewrite app_nil_r in Hp. rewrite Hp. reflexivity.
Qed.

Lemma getPlaylistInfo_never_joins_chunks_witness :
  Selector.parse_sample (ascii_text json_head ++ ascii_text json_tail)
  = Some (JObj [("a"%string, JNum 1)]) /\
  fst (getPlaylistInfo_read ascii_text Selector.parse_sample Samples.posix true
         (Some decoding) [Chunk json_head; Chunk json_tail; End] decoding)
  = Value (false, JUndefined).
Proof.
  split; [reflexivity|].
  apply (getPlaylistInfo_never_joins_chunks ascii_text Selector.parse_sample
           Samples.posix true decoding decoding [json_head; json_tail] []).
  - discriminate.
  - repeat constructor.
Defined.

End OutputFacts.

(** ** From the arguments of a download to its progress values *)

Module PipelineFacts.
Import Regex Selector SelectorSpec Utils Notions.

(** X27. The progress template that [getArgs] passes to yt-dlp and the
    transform of [download] fit together: whatever the options, the
    arguments hold [--progress-template] and a template at fixed places
    after the URL, and a line printed from that template for a progress
    in JSON is decoded by [downloadValueSelector] to [{data: ...}] of
    exactly that JSON. *)
Theorem progress_template_round_trip (JSON_parse : jsstring -> option jsval)
    (a : Args) (c1 : N) (payload : jsstring) :
  white c1 = false -> dot c1 = true -> Forall (fun c => dot c = true) payload ->
  exists template line,
    getArgs a !! 3%nat = Some "--newline"%string /\
    getArgs a !! 6%nat = Some "--progress-template"%string /\
    getArgs a !! 7%nat = Some template /\
    fill_template template (c1 :: payload) = Some line /\
    downloadValueSelector JSON_parse (line ++ [10%N])
    = (fun v => JObj [("data"%string, v)]) <$> JSON_parse (c1 :: payload).
Proof.
  intros Hc1 Hd1 Hpay.
  exists "[progress] %(progress)j"%string.
  exists (lit "[progress] " ++ (c1 :: payload) ++ lit "").
  repeat split; try reflexivity.
  pose proof (downloadValueSelector_progress_line JSON_parse 32%N c1 [] payload
                [10%N] eq_refl (List.Forall_nil _) Hc1 Hd1 Hpay eq_refl) as H.
  etransitivity; [|exact H].
  f_equal. change (lit "") with (@nil N). rewrite app_nil_r.
  change (lit "[progress] ") with (lit "[progress]" ++ [32%N]).
  by rewrite <- !app_assoc.
Qed.

Lemma progress_template_round_trip_witness :
  exists line,
    fill_template "[progress] %(progress)j"
      (lit "{" ++ [34%N] ++ lit "a" ++ [34%N] ++ lit ":1}") = Some line /\
    downloadValueSelector parse_sample (line ++ [10%N])
    = Some (JObj [("data"%string, JObj [("a"%string, JNum 1)])]).
Proof.
  destruct (progress_template_round_trip parse_sample
              {| url := "https://example.org/v"; output := None; videoFormat := None;
                 audioFormat := None; audioQuality := None; remuxVideo := None;
                 limitRate := None; cookiesFromBrowser := None |}
              123%N ([34%N] ++ lit "a" ++ [34%N] ++ lit ":1}"))
    as (template & line & _ & _ & Ht & Hl & Hs).
  - reflexivity.
  - reflexivity.
  - repeat constructor.
  - injection Ht as <-. exists line. split; [exact Hl|exact Hs].
Defined.

End PipelineFacts.

(** ** Reading the version when the output holds none *)

Module VersionFacts.
Import Controller Governor Stream GovernorFacts LaunchFacts Notions.
Import Regex Text Downloader Consumers ReaderFacts.

Lemma version_loop_empties (empties : list jsstring) (c : completion) :
  Forall (fun e => e = []) empties ->
  version_loop (JStr <$> empties) c = version_loop [] c.
Proof.
  intros He. induction He as [|e empties -> _ IH]; [reflexivity|exact IH].
Qed.

(** X28. When the output of the binary holds no text but empty ones,
    [getYTDLPVersion] ends as the stream ends, without a [kill]: it
    returns [null] when the stream closes, and it throws (its promise
    rejects) when the stream fails. *)
Theorem getYTDLPVersion_without_text dec env sent now oracle path w r
    (empties : list chunk) (rest : list stream_event) :
  result_of (new env now (defaults (getYTDLPFilePath env path) ["--version"%string])
                 oracle w) = Some r ->
  Forall (fun e => dec e = []) empties ->
  getYTDLPVersion dec env sent now oracle path w ((Chunk <$> empties) ++ End :: rest)
  = (Value JNull,
     world_of (new env now (defaults (getYTDLPFilePath env path) ["--version"%string])
                   oracle w), []) /\
  getYTDLPVersion dec env sent now oracle path w ((Chunk <$> empties) ++ Error :: rest)
  = (Throws,
     world_of (new env now (defaults (getYTDLPFilePath env path) ["--version"%string])
                   oracle w), []).
Proof.
  intros Hres Hempty.
  destruct (the_terminal_fresh _ _ _ _ _ _ Hres) as [j Ht].
  unfold getYTDLPVersion. rewrite Ht.
  unfold listen, listen_raw. simpl.
  rewrite !StreamSpec.drain_chunks. simpl. rewrite !app_nil_r.
  rewrite !version_loop_empties by (by apply Forall_fmap).
  by simpl.
Qed.

Lemma getYTDLPVersion_without_text_witness :
  fst (fst (getYTDLPVersion ascii_text Samples.posix true 1000 Samples.first_try
              None init [Chunk []; Error])) = Throws.
Proof.
  destruct (getYTDLPVersion_without_text ascii_text Samples.posix true 1000
              Samples.first_try None init 0%nat [[]] []) as [_ H].
  - reflexivity.
  - repeat constructor.
  - apply (f_equal (fun x => fst (fst x))) in H. exact H.
Defined.

End VersionFacts.

(** ** The transform of [download], text by text *)

Module SelectorLines.
Import Regex Selector SelectorSpec MarkerFacts Notions.

Lemma text_i_sound {A} (pat : string) (r : regex) (pos : nat) (s : jsstring)
    (caps : list jsstring) (k : cont A) (x : A) :
  matcher (text_i pat r) pos s caps k = Some x ->
  exists L s', s = L ++ s' /\ same_i pat L /\
               matcher r (pos + length L)%nat s' caps k = Some x.
Proof.
  revert pos s. induction pat as [|a pat IH]; intros pos s; simpl.
  - intros Hm. exists [], s. split; [reflexivity|]. split; [constructor|].
    by rewrite Nat.add_0_r.
  - destruct s as [|c s]; [discriminate|].
    destruct (char_i a c) eqn:Hc; [|discriminate].
    intros Hm. destruct (IH _ _ Hm) as (L & s' & -> & HL & Hr).
    exists (c :: L), s'. split; [reflexivity|]. split; [by constructor|].
    simpl. by replace (pos + S (length L))%nat with (S pos + length L)%nat by lia.
Qed.

Lemma text_i_same {A} (pat : string) (r : regex) (pos : nat) (L s' : jsstring)
    (caps : list jsstring) (k : cont A) :
  same_i pat L ->
  matcher (text_i pat r) pos (L ++ s') caps k
  = matcher r (pos + length L)%nat s' caps k.
Proof.
  unfold same_i. revert pos L. induction pat as [|a pat IH]; intros pos L HL; simpl in *.
  - apply Forall2_nil_inv_l in HL as ->. simpl. by rewrite Nat.add_0_r.
  - apply Forall2_cons_inv_l in HL as (c & L' & Hc & HL & ->). simpl.
    rewrite Hc, IH by exact HL. f_equal. lia.
Qed.

Lemma star_sound {A} (p : N -> bool) (pos : nat) (s : jsstring)
    (caps : list jsstring) (k : cont A) (x : A) :
  star p pos s caps k = Some x ->
  exists ws rest, s = ws ++ rest /\ Forall (fun c => p c = true) ws /\
                  k (pos + length ws)%nat rest caps = Some x.
Proof.
  assert (Hhere : forall pos s, k pos s caps = Some x ->
            exists ws rest, s = ws ++ rest /\ Forall (fun c => p c = true) ws /\
                            k (pos + length ws)%nat rest caps = Some x).
  { intros pos' s' Hk. exists [], s'. split; [reflexivity|]. split; [constructor|].
    simpl. by rewrite Nat.add_0_r. }
  revert pos. induction s as [|c s IH]; intros pos; simpl; [apply Hhere|].
  destruct (p c) eqn:Hc; [|apply Hhere].
  destruct (star p (S pos) s caps k) as [y|] eqn:Hs; [|apply Hhere].
  intros [= ->]. destruct (IH _ Hs) as (ws & rest & -> & Hws & Hk).
  exists (c :: ws), rest. split; [reflexivity|]. split; [by constructor|].
  simpl. by replace (pos + S (length ws))%nat with (S pos + length ws)%nat by lia.
Qed.

Lemma nonwhite_dot (c : N) : white c = false -> dot c = true.
Proof.
  unfold white, dot. intros Hw.
  destruct (N.eqb_spec c 10), (N.eqb_spec c 13), (N.eqb_spec c 8232),
    (N.eqb_spec c 8233); subst; try discriminate Hw; reflexivity.
Qed.

#[local] Opaque text_i.

(** [ALREADY_DOWNLOADED_RE] matches exactly the texts of
    [already_downloaded_text]. *)
Lemma already_downloaded_exec (text : jsstring) :
  is_Some (exec ALREADY_DOWNLOADED_RE text) <-> already_downloaded_text text.
Proof.
  unfold ALREADY_DOWNLOADED_RE. rewrite exec_anchored. unfold match_at.
  cbn [matcher Nat.eqb]. split.
  - intros [m Hm].
    apply text_i_sound in Hm as (L & s1 & -> & HL & Hm). cbn [matcher] in Hm.
    apply star_sound in Hm as (w1 & s2 & -> & Hw1 & Hm). cbn [matcher] in Hm.
    destruct s2 as [|c s2]; [discriminate|].
    destruct (dot c) eqn:Hc; [|discriminate].
    apply star_sound in Hm as (mid & s3 & -> & Hmid & Hm). cbn [matcher] in Hm.
    apply star_sound in Hm as (w2 & s4 & -> & Hw2 & Hm).
    apply text_i_sound in Hm as (H & rest & -> & HH & _).
    exists L, w1, (c :: mid), w2, H, rest.
    split; [reflexivity|]. split; [exact HL|]. split; [exact Hw1|].
    split; [discriminate|]. split; [by constructor|]. split; assumption.
  - intros (L & w1 & mid & w2 & H & rest & -> & HL & Hw1 & Hne & Hmid & Hw2 & HH).
    rewrite text_i_same by exact HL. cbn [matcher].
    apply star_some; [exact Hw1|]. cbn [matcher].
    destruct mid as [|c mid]; [done|]. apply Forall_cons in Hmid as [Hc Hmid].
    simpl. rewrite Hc.
    apply star_some; [exact Hmid|]. cbn [matcher].
    apply star_some; [exact Hw2|].
    rewrite text_i_same by exact HH. cbn [matcher]. by eexists.
Qed.

(** What [DOWNLOAD_PROGRESS_RE] captures is a payload of
    [progress_text]. *)
Lemma progress_exec_sound (text : jsstring) (m : match_result) :
  exec DOWNLOAD_PROGRESS_RE text = Some m -> progress_text text (group1 m).
Proof.
  unfold DOWNLOAD_PROGRESS_RE. rewrite exec_anchored. unfold match_at.
  cbn [matcher Nat.eqb]. intros Hm.
  apply text_i_sound in Hm as (L & s1 & -> & HL & Hm). cbn [matcher] in Hm.
  destruct s1 as [|w s1]; [discriminate|].
  destruct (white w) eqn:Hw; [|discriminate].
  apply star_sound in Hm as (ws & s2 & -> & Hws & Hm). cbn [matcher] in Hm.
  destruct s2 as [|c s2]; [discriminate|].
  destruct (dot c) eqn:Hc; [|discriminate].
  apply star_sound in Hm as (ds & rest & -> & Hds & Hm).
  injection Hm as <-. unfold group1. cbn [groups app].
  match goal with
  | |- progress_text _ (take ?n _) =>
      replace n with (length (c :: ds)) by (simpl; lia)
  end.
  change (c :: ds ++ rest) with ((c :: ds) ++ rest). rewrite take_app_length.
  exists L, (w :: ws), rest.
  split; [reflexivity|]. split; [exact HL|]. split; [discriminate|].
  split; [by constructor|]. split; [discriminate|]. by constructor.
Qed.

(** [DOWNLOAD_PROGRESS_RE] matches every text of [progress_text]. *)
Lemma progress_exec_complete (text payload : jsstring) :
  progress_text text payload -> is_Some (exec DOWNLOAD_PROGRESS_RE text).
Proof.
  intros (L & ws & rest & -> & HL & Hne & Hws & Hpe & Hpay).
  unfold DOWNLOAD_PROGRESS_RE. rewrite exec_anchored. unfold match_at.
  cbn [matcher Nat.eqb].
  rewrite text_i_same by exact HL. cbn [matcher].
  destruct ws as [|w ws]; [done|]. apply Forall_cons in Hws as [Hw Hws].
  simpl. rewrite Hw.
  apply star_some; [exact Hws|]. cbn [matcher].
  destruct payload as [|c payload]; [done|]. apply Forall_cons in Hpay as [Hc Hpay].
  simpl. rewrite Hc.
  apply star_some; [exact Hpay|]. by eexists.
Qed.

(** Where the payload begins with a character that is not white space
    and runs to the end of the line, it is what is captured. *)
Lemma progress_exec_line (L ws payload rest : jsstring) (c1 : N) :
  same_i "[progress]" L ->
  ws <> [] -> Forall (fun c => white c = true) ws ->
  white c1 = false -> Forall (fun c => dot c = true) payload ->
  match rest with [] => True | c :: _ => dot c = false end ->
  exists m, exec DOWNLOAD_PROGRESS_RE (L ++ ws ++ c1 :: payload ++ rest) = Some m /\
            group1 m = c1 :: payload.
Proof.
  intros HL Hne Hws Hc1 Hpay Hrest.
  unfold DOWNLOAD_PROGRESS_RE. rewrite exec_anchored. unfold match_at.
  cbn [matcher Nat.eqb].
  rewrite text_i_same by exact HL. cbn [matcher].
  destruct ws as [|w ws]; [done|]. apply Forall_cons in Hws as [Hw Hws].
  simpl. rewrite Hw.
  eexists. split.
  { erewrite (star_max white _ ws (c1 :: payload ++ rest));
      [reflexivity|exact Hws|exact Hc1|].
    cbn [matcher]. rewrite (nonwhite_dot _ Hc1).
    erewrite (star_max dot _ payload rest); [reflexivity|exact Hpay|exact Hrest|].
    reflexivity. }
  unfold group1. cbn [groups app].
  match goal with
  | |- take ?n _ = _ => replace n with (length (c1 :: payload)) by (simpl; lia)
  end.
  change (c1 :: payload ++ rest) with ((c1 :: payload) ++ rest).
  by rewrite take_app_length.
Qed.

#[local] Transparent text_i.

(** C9, as the claim has it, at a line that carries the progress marker
    and a payload that is not JSON, as [JSON.parse] throws on [NA]: the
    pattern matches, and the transform returns nothing, it throws. *)
Lemma progress_line_without_JSON_throws :
  is_Some (exec DOWNLOAD_PROGRESS_RE (lit "[progress] NA")) /\
  parse_sample (lit "NA") = None /\
  downloadValueSelector parse_sample (lit "[progress] NA") = None.
Proof. split; [by eexists|]. split; reflexivity. Qed.

(** C9, amended. What [downloadValueSelector] answers is decided by the
    text alone. It answers [{stop: true}] exactly to the texts that begin
    with [[download]], go on with at least one character that is no line
    terminator, and then have the words [has already been downloaded]
    (white space may stand before and after the characters, and letters
    count whatever their case). It answers [null] exactly to the texts
    that are not of this kind and do not begin with [[progress]], white
    space and a character that is no line terminator; nothing is passed
    through. To every other text it answers [{data: v}], [v] being what
    [JSON.parse] makes of a payload that follows the marker and the white
    space, and it throws where [JSON.parse] throws; where the payload
    begins with a character that is not white space, it is the text from
    there to the end of the line. *)
Theorem downloadValueSelector_by_text (JSON_parse : jsstring -> option jsval)
    (text : jsstring) :
  (downloadValueSelector JSON_parse text = Some (JObj [("stop"%string, JBool true)])
   <-> already_downloaded_text text) /\
  (downloadValueSelector JSON_parse text = Some JNull
   <-> ~ already_downloaded_text text /\ forall payload, ~ progress_text text payload) /\
  ((exists payload, progress_text text payload) ->
   ~ already_downloaded_text text /\
   exists payload,
     progress_text text payload /\
     downloadValueSelector JSON_parse text
     = (fun v => JObj [("data"%string, v)]) <$> JSON_parse payload) /\
  (forall L ws c1 payload rest,
     text = L ++ ws ++ c1 :: payload ++ rest ->
     same_i "[progress]" L ->
     ws <> [] -> Forall (fun c => white c = true) ws ->
     white c1 = false -> Forall (fun c => dot c = true) payload ->
     match rest with [] => True | c :: _ => dot c = false end ->
     downloadValueSelector JSON_parse text
     = (fun v => JObj [("data"%string, v)]) <$> JSON_parse (c1 :: payload)).
Proof.
  pose proof (already_downloaded_exec text) as Ha.
  assert (Hp : forall m, exec DOWNLOAD_PROGRESS_RE text = Some m ->
            exec ALREADY_DOWNLOADED_RE text = None /\
            downloadValueSelector JSON_parse text
            = (fun v => JObj [("data"%string, v)]) <$> JSON_parse (group1 m)).
  { intros m Hm. split; [by eapply progress_excludes_already|].
    unfold downloadValueSelector.
    rewrite (progress_excludes_already _ _ Hm), Hm.
    by destruct (JSON_parse (group1 m)). }
  split; [|split; [|split]].
  - split.
    + intros Hs. apply Ha. unfold downloadValueSelector in Hs.
      destruct (exec ALREADY_DOWNLOADED_RE text); [by eexists|].
      destruct (exec DOWNLOAD_PROGRESS_RE text) as [m|]; [|discriminate].
      destruct (JSON_parse (group1 m)); discriminate.
    + intros Hs. apply Ha in Hs as [m Hm].
      unfold downloadValueSelector. by rewrite Hm.
  - split.
    + intros Hn. unfold downloadValueSelector in Hn.
      destruct (exec ALREADY_DOWNLOADED_RE text) as [ma|] eqn:Hma; [discriminate|].
      split.
      { intros Hs. apply Ha in Hs as [m Hm]. discriminate. }
      intros payload Hpay.
      destruct (progress_exec_complete _ _ Hpay) as [m Hm]. rewrite Hm in Hn.
      destruct (JSON_parse (group1 m)); discriminate.
    + intros [Hna Hnp]. unfold downloadValueSelector.
      destruct (exec ALREADY_DOWNLOADED_RE text) as [ma|] eqn:Hma.
      { exfalso. apply Hna, Ha. by eexists. }
      destruct (exec DOWNLOAD_PROGRESS_RE text) as [m|] eqn:Hm; [|reflexivity].
      exfalso. eapply Hnp, progress_exec_sound, Hm.
  - intros [payload Hpay].
    destruct (progress_exec_complete _ _ Hpay) as [m Hm].
    destruct (Hp m Hm) as [Hnone Hres].
    split.
    { intros Hs. apply Ha in Hs as [ma Hma]. congruence. }
    exists (group1 m). split; [by apply progress_exec_sound|exact Hres].
  - intros L ws c1 payload rest -> HL Hne Hws Hc1 Hpay Hrest.
    destruct (progress_exec_line L ws payload rest c1 HL Hne Hws Hc1 Hpay Hrest)
      as (m & Hm & Hg).
    destruct (Hp m Hm) as [_ ->]. by rewrite Hg.
Qed.

Lemma downloadValueSelector_by_text_witness :
  downloadValueSelector parse_sample
    (lit "[Download]" ++ [10%N] ++ lit "a.mp4 HAS ALREADY BEEN DOWNLOADED" ++ [10%N])
  = Some (JObj [("stop"%string, JBool true)]) /\
  downloadValueSelector parse_sample
    (lit "[PROGRESS] {" ++ [34%N] ++ lit "a" ++ [34%N] ++ lit ":1}" ++ [10%N])
  = Some (JObj [("data"%string, JObj [("a"%string, JNum 1)])]) /\
  ~ already_downloaded_text (lit "[download] Destination: a.mp4" ++ [10%N]).
Proof.
  split; [|split].
  - apply (downloadValueSelector_by_text parse_sample).
    exists (lit "[Download]"), [10%N], (lit "a.mp4"), [32%N],
      (lit "HAS ALREADY BEEN DOWNLOADED"), [10%N].
    split; [reflexivity|]. split; [repeat constructor|].
    split; [repeat constructor|]. split; [discriminate|].
    split; [repeat constructor|]. split; repeat constructor.
  - pose proof (proj2 (proj2 (proj2 (downloadValueSelector_by_text parse_sample
        (lit "[PROGRESS] {" ++ [34%N] ++ lit "a" ++ [34%N] ++ lit ":1}" ++ [10%N]))))
        (lit "[PROGRESS]") [32%N] 123%N
        ([34%N] ++ lit "a" ++ [34%N] ++ lit ":1}") [10%N]) as H.
    etransitivity; [apply H|reflexivity].
    + reflexivity.
    + repeat constructor.
    + discriminate.
    + repeat constructor.
    + reflexivity.
    + repeat constructor.
    + reflexivity.
  - destruct (downloadValueSelector_by_text parse_sample
                (lit "[download] Destination: a.mp4" ++ [10%N])) as (_ & Hn & _).
    apply (proj1 Hn). reflexivity.
Defined.

End SelectorLines.

(** ** What [Terminal.new] returns when processes close while it runs *)

Module SettlingFacts.
Import Controller Governor GovernorFacts Notions.

(** What one attempt leaves: its controller at the end of the heap,
    stopped if its ['close'] has come, and registered if it has not. *)
Lemma constructed_world (a : attempt) (ps : Params) (c : option (jsval * jsval))
    (w : World) :
  fst (Settling.constructed a ps c w) = length (heap w) /\
  heap (snd (Settling.constructed a ps c w))
  = heap w ++ [Settling.settle c (fresh a ps)] /\
  all (snd (Settling.constructed a ps c w))
  = match c with
    | Some _ => delete (toString_hex (idbytes_of a)) (all w)
    | None => <[toString_hex (idbytes_of a) := length (heap w)]> (all w)
    end /\
  lastRun (snd (Settling.constructed a ps c w)) = lastRun w /\
  runIntervalMS (snd (Settling.constructed a ps c w)) = runIntervalMS w.
Proof.
  unfold Settling.constructed. simpl. split; [reflexivity|].
  destruct c as [[code signal]|]; simpl; [|done].
  unfold on_close. simpl.
  rewrite lookup_app_r by lia. rewrite Nat.sub_diag. simpl.
  rewrite delete_insert_eq.
  rewrite insert_app_r_alt by lia. rewrite Nat.sub_diag. done.
Qed.

Lemma attempts_S env ps oracle closes fuel i clock w :
  Settling.attempts env ps oracle closes (S fuel) i clock w
  = let retry clock' w' :=
      let x := Settling.attempts env ps oracle closes fuel (S i)
                 (elapse clock' (retryIntervalMS ps)) w' in
      (result_of x, world_of x,
       Spawn clock :: debug env AnErrorOccurred
         ++ Sleep (retryIntervalMS ps) :: trace_of x) in
    let made := Settling.constructed (oracle i) ps (closes i) w in
    match outcome_of (oracle i) with
    | SpawnThrows => retry clock w
    | EarlyError d =>
        if d <? intermissionMS ps then retry (elapse clock d) (snd made)
        else (Some (fst made), snd made, [Spawn clock])
    | Settles => (Some (fst made), snd made, [Spawn clock])
    end.
Proof.
  cbn [Settling.attempts]. cbv zeta.
  destruct (outcome_of (oracle i)) as [|d|]; [|destruct (d <? intermissionMS ps)|];
    try reflexivity;
    by destruct (Settling.attempts _ _ _ _ _ _ _ _) as [[res w''] tr].
Qed.

Lemma new_with_closes_unfold env now ps oracle closes w :
  Settling.new env now ps oracle closes w =
  let x := Settling.attempts env ps oracle closes (Z.to_nat (tryCount ps)) 0
             (launch_time now w) (fst (gate now w)) in
  (result_of x, world_of x,
   (match snd (gate now w) with
    | Some sleepTime => debug env (RanTooEarly sleepTime) ++ [Sleep sleepTime]
    | None => []
    end ++ debug env (Running (command ps) (args ps))) ++ trace_of x).
Proof.
  unfold Settling.new. destruct (gate now w) as [w1 [s|]]; simpl;
    destruct (Settling.attempts _ _ _ _ _ _ _ _) as [[res w2] tr]; reflexivity.
Qed.

Lemma new_parts env now ps oracle closes w :
  result_of (Settling.new env now ps oracle closes w)
  = result_of (Settling.attempts env ps oracle closes (Z.to_nat (tryCount ps)) 0
                 (launch_time now w) (fst (gate now w))) /\
  world_of (Settling.new env now ps oracle closes w)
  = world_of (Settling.attempts env ps oracle closes (Z.to_nat (tryCount ps)) 0
                (launch_time now w) (fst (gate now w))) /\
  spawn_times (trace_of (Settling.new env now ps oracle closes w))
  = spawn_times (trace_of (Settling.attempts env ps oracle closes
                             (Z.to_nat (tryCount ps)) 0
                             (launch_time now w) (fst (gate now w)))).
Proof.
  rewrite new_with_closes_unfold. split; [reflexivity|]. split; [reflexivity|].
  unfold trace_of at 1. simpl. by rewrite spawn_times_app, before_no_spawn.
Qed.



(** The loop stops at the first attempt that does not fail, and returns
    the controller of that attempt as the events have left it. *)
Lemma attempts_first_success env ps oracle closes k fuel i clock w :
  (forall j, (i <= j < i + k)%nat -> fails ps (outcome_of (oracle j)) = true) ->
  fails ps (outcome_of (oracle (i + k)%nat)) = false ->
  (k < fuel)%nat ->
  let x := Settling.attempts env ps oracle closes fuel i clock w in
  exists r,
    result_of x = Some r /\
    length (spawn_times (trace_of x)) = S k /\
    S r = length (heap (world_of x)) /\
    heap (world_of x) !! r
    = Some (Settling.settle (closes (i + k)%nat) (fresh (oracle (i + k)%nat) ps)) /\
    all (world_of x) !! toString_hex (idbytes_of (oracle (i + k)%nat))
    = match closes (i + k)%nat with Some _ => None | None => Some r end.
Proof.
  revert fuel i clock w.
  induction k as [|k IH]; intros fuel i clock w Hfail Hok Hk;
    (destruct fuel as [|fuel]; [lia|]); rewrite attempts_S; cbv zeta.
  - rewrite Nat.add_0_r in *.
    destruct (constructed_world (oracle i) ps (closes i) w) as (Hr & Hh & Ha & _).
    assert (Hc : exists r,
      Some (fst (Settling.constructed (oracle i) ps (closes i) w)) = Some r /\
      1%nat = 1%nat /\
      S r = length (heap (snd (Settling.constructed (oracle i) ps (closes i) w))) /\
      heap (snd (Settling.constructed (oracle i) ps (closes i) w)) !! r
      = Some (Settling.settle (closes i) (fresh (oracle i) ps)) /\
      all (snd (Settling.constructed (oracle i) ps (closes i) w))
        !! toString_hex (idbytes_of (oracle i))
      = match closes i with Some _ => None | None => Some r end).
    { exists (length (heap w)). rewrite Hr, Hh, Ha.
      split; [reflexivity|]. split; [reflexivity|].
      split; [rewrite length_app; simpl; lia|].
      split; [rewrite lookup_app_r by lia; by rewrite Nat.sub_diag|].
      destruct (closes i); [apply lookup_delete_eq|apply lookup_insert_eq]. }
    destruct (outcome_of (oracle i)) as [|d|]; simpl in Hok |- *.
    + discriminate.
    + rewrite Hok. exact Hc.
    + exact Hc.
  - pose proof (Hfail i ltac:(lia)) as Hi.
    assert (Hfail' : forall j, (S i <= j < S i + k)%nat ->
                               fails ps (outcome_of (oracle j)) = true)
      by (intros j Hj; apply Hfail; lia).
    replace (i + S k)%nat with (S i + k)%nat in * by lia.
    assert (Hretry : forall clock' w',
      exists r,
        result_of (Settling.attempts env ps oracle closes fuel (S i) clock' w') = Some r /\
        length (spawn_times
                  (Spawn clock :: debug env AnErrorOccurred
                     ++ Sleep (retryIntervalMS ps)
                     :: trace_of (Settling.attempts env ps oracle closes fuel (S i)
                                    clock' w'))) = S (S k) /\
        S r = length (heap (world_of
                (Settling.attempts env ps oracle closes fuel (S i) clock' w'))) /\
        heap (world_of (Settling.attempts env ps oracle closes fuel (S i) clock' w')) !! r
        = Some (Settling.settle (closes (S i + k)%nat) (fresh (oracle (S i + k)%nat) ps)) /\
        all (world_of (Settling.attempts env ps oracle closes fuel (S i) clock' w'))
          !! toString_hex (idbytes_of (oracle (S i + k)%nat))
        = match closes (S i + k)%nat with Some _ => None | None => Some r end).
    { intros clock' w'.
      destruct (IH fuel (S i) clock' w' Hfail' Hok ltac:(lia))
        as (r & Hres & Hlen & Hrest).
      exists r. split; [exact Hres|]. split; [|exact Hrest].
      simpl. rewrite spawn_times_app, spawn_times_debug. simpl. by rewrite Hlen. }
    destruct (outcome_of (oracle i)) as [|d|]; simpl in Hi |- *.
    + apply Hretry.
    + rewrite Hi. apply Hretry.
    + discriminate.
Qed.

(** X2. When attempt [k] is the first that does not fail and [k] is
    less than [tryCount], [Terminal.new] spawns [k + 1] times and returns
    the controller of that attempt, the newest of the heap, with the
    transform of the call. Where the ['close'] of its process has not
    come by the time the call resolves, the controller is running and
    [fromID] finds it under its identifier. Where it has, as for a
    process that is done within the settle time, the call still resolves
    with the controller, but stopped, with the exit fields of that
    ['close'], and unknown to [fromID]. *)
Theorem new_returns_first_success env now ps oracle closes w k :
  (forall j, (j < k)%nat -> fails ps (outcome_of (oracle j)) = true) ->
  fails ps (outcome_of (oracle k)) = false ->
  Z.of_nat k < tryCount ps ->
  exists r,
    result_of (Settling.new env now ps oracle closes w) = Some r /\
    length (spawn_times (trace_of (Settling.new env now ps oracle closes w))) = S k /\
    S r = length (heap (world_of (Settling.new env now ps oracle closes w))) /\
    match closes k with
    | None =>
        heap (world_of (Settling.new env now ps oracle closes w)) !! r
        = Some (fresh (oracle k) ps) /\
        fromID (toString_hex (idbytes_of (oracle k)))
               (world_of (Settling.new env now ps oracle closes w)) = Found r
    | Some (code, signal) =>
        heap (world_of (Settling.new env now ps oracle closes w)) !! r
        = Some (Settling.stopped code signal (fresh (oracle k) ps)) /\
        forall r', fromID (toString_hex (idbytes_of (oracle k)))
                          (world_of (Settling.new env now ps oracle closes w))
                   <> Found r'
    end.
Proof.
  intros Hfail Hok Hk.
  destruct (attempts_first_success env ps oracle closes k (Z.to_nat (tryCount ps)) 0
              (launch_time now w) (fst (gate now w)))
    as (r & Hres & Hlen & Hnew & Hr & Hall).
  - intros j Hj. apply Hfail. lia.
  - exact Hok.
  - lia.
  - change (0 + k)%nat with k in *.
    destruct (new_parts env now ps oracle closes w) as (-> & -> & ->).
    exists r. split; [exact Hres|]. split; [exact Hlen|]. split; [exact Hnew|].
    destruct (closes k) as [[code signal]|]; simpl in Hr.
    + split; [exact Hr|]. intros r'. unfold fromID. rewrite Hall.
      by destruct (bool_decide _).
    + split; [exact Hr|]. unfold fromID. by rewrite Hall.
Qed.

Lemma new_returns_first_success_witness :
  exists r,
    result_of (Settling.new Samples.posix 1000 (defaults "chmod" ["+x"; "./yt-dlp_linux"])
                 Samples.first_try Settling.done_early init) = Some r /\
    running <$> heap (world_of (Settling.new Samples.posix 1000
                                  (defaults "chmod" ["+x"; "./yt-dlp_linux"])
                                  Samples.first_try Settling.done_early init)) !! r
    = Some false /\
    forall r', fromID "03030303030303030303030303030303"
                 (world_of (Settling.new Samples.posix 1000
                              (defaults "chmod" ["+x"; "./yt-dlp_linux"])
                              Samples.first_try Settling.done_early init))
               <> Found r'.
Proof.
  destruct (new_returns_first_success Samples.posix 1000
              (defaults "chmod" ["+x"; "./yt-dlp_linux"])
              Samples.first_try Settling.done_early init 0)
    as (r & Hres & _ & _ & Hc).
  - intros j Hj. lia.
  - reflexivity.
  - simpl. lia.
  - change (Settling.done_early 0%nat) with (Some (JNum 0, JNull)) in Hc.
    cbv beta iota in Hc. destruct Hc as [Hr Hid].
    exists r. split; [exact Hres|]. split; [by rewrite Hr|exact Hid].
Defined.




End SettlingFacts.

(** ** What the callers read of a process that writes at once *)

Module ArrivalFacts.
Import Controller Governor Stream Invariants ControllerFacts RegistryFacts GovernorFacts.
Import Notions Regex Text Downloader Consumers TextFacts ReaderFacts OutputFacts.

(** Whatever has happened to a controller of a reachable state, its
    buffer is empty, and it has its output stream and its transform as
    constructed: what [#listen] yields is what the stream delivers from
    then on. *)
Lemma listen_after dec (w w1 : World) (r : nat) (t : Terminal) (evs : list event) :
  reachable w -> heap w !! r = Some t -> run w evs = Some w1 ->
  exists t1,
    heap w1 !! r = Some t1 /\ data t1 = [] /\
    valueSelector t1 = valueSelector t /\
    (stdout (process t) <> None ->
     forall cs rest,
       listen_raw dec t1 ((Chunk <$> cs) ++ rest)
       = ((dec <$> cs) ++ (dec <$> fst (drain rest)), snd (drain rest))).
Proof.
  intros Hw Ht Hrun.
  destruct (StreamSpec.run_keeps_reader _ _ _ _ _ Hrun Ht) as (t1 & Ht1 & Hs & Ho).
  destruct (inv_reachable _ (reachable_run _ _ _ Hw Hrun)) as [_ Hts].
  destruct (Hts _ _ Ht1) as (_ & _ & Hd & _).
  exists t1. split; [exact Ht1|]. split; [exact Hd|]. split; [exact Hs|].
  intros Hout cs rest.
  rewrite listen_raw_live by (intros H; by apply Hout, Ho).
  by rewrite Hd.
Qed.

(** X8. [getYTDLPVersion] reads only what arrives once its iteration
    has begun, that is after [Terminal.new] has waited the settle time.
    Whatever has happened to the process before (it has written, ended,
    closed, been killed), nothing of what it wrote is in the buffer or
    is ever yielded. Of what arrives then, [getYTDLPVersion] returns the
    first non-empty text, trimmed, so without white space at either end
    (it may be empty), and calls [kill] once; empty texts before it are
    passed over and nothing after it is read. Where the stream ends
    without such a text it returns [null] without a [kill]: so it does
    for a binary that prints its version at once and is done. *)
Theorem getYTDLPVersion_first_text dec env sent now oracle path w r
    (evs : list event) (w1 : World) (empties : list chunk) (c : chunk)
    (rest : list stream_event) :
  reachable w ->
  (forall i, length (idbytes_of (oracle i)) = 16%nat) ->
  result_of (new env now (defaults (getYTDLPFilePath env path) ["--version"%string])
                 oracle w) = Some r ->
  run (world_of (new env now (defaults (getYTDLPFilePath env path)
                                ["--version"%string]) oracle w)) evs = Some w1 ->
  Forall (fun e => dec e = []) empties ->
  dec c <> [] ->
  exists t,
    heap w1 !! r = Some t /\ data t = [] /\
    Arrival.getYTDLPVersion_after dec evs env sent now oracle path w
      ((Chunk <$> empties) ++ Chunk c :: rest)
    = Some (Value (JStr (trim (dec c))),
            set_heap (<[r := fst (kill env sent "SIGTERM" t)]> (heap w1)) w1,
            snd (kill env sent "SIGTERM" t)) /\
    Arrival.getYTDLPVersion_after dec evs env sent now oracle path w
      ((Chunk <$> empties) ++ End :: rest)
    = Some (Value JNull, w1, []) /\
    (forall a, head (trim (dec c)) = Some a -> white a = false) /\
    (forall a, last (trim (dec c)) = Some a -> white a = false).
Proof.
  intros Hw Hlen Hres Hrun Hempty Hc.
  destruct (the_terminal_fresh _ _ _ _ _ _ Hres) as [j Ht].
  unfold the_terminal in Ht. rewrite Hres in Ht. simpl in Ht.
  set (ps := defaults (getYTDLPFilePath env path) ["--version"%string]) in *.
  destruct (heap (world_of (new env now ps oracle w)) !! r) as [t0|] eqn:Hr;
    [|discriminate].
  injection Ht as ->.
  pose proof (ControllerSpec.new_reachable env now ps oracle w Hlen Hw) as Hnew.
  destruct (listen_after dec _ _ _ _ evs Hnew Hr Hrun) as (t & Ht & Hd & Hs & Hl).
  assert (Hlisten : forall cs rest0,
            listen dec t ((Chunk <$> cs) ++ rest0)
            = (JStr <$> (dec <$> cs) ++ (dec <$> fst (drain rest0)), snd (drain rest0))).
  { intros cs rest0. unfold listen. rewrite Hl by discriminate. by rewrite Hs. }
  exists t. split; [exact Ht|]. split; [exact Hd|].
  destruct (trim_trimmed (dec c)) as (Hh & Hl' & _).
  unfold Arrival.getYTDLPVersion_after. fold ps. rewrite Hres, Hrun.
  cbn [mbind option_bind]. rewrite Ht. cbn [mbind option_bind].
  rewrite !Hlisten. cbn [fst snd drain].
  destruct (drain rest) as [cs k]. cbn [fst snd fmap list_fmap].
  rewrite !fmap_app, app_nil_r. cbn [fmap list_fmap].
  rewrite version_loop_first; [|by apply Forall_fmap|exact Hc].
  rewrite VersionFacts.version_loop_empties by (by apply Forall_fmap).
  simpl. repeat split; assumption.
Qed.

Lemma getYTDLPVersion_first_text_witness :
  fst <$> (fst <$> Arrival.getYTDLPVersion_after ascii_text
                     (Arrival.writes_and_closes 0 version_chunk)
                     Samples.posix true 1000 Samples.first_try None init
                     ((Chunk <$> []) ++ End :: []))
  = Some (Value JNull) /\
  snd <$> Arrival.getYTDLPVersion_after ascii_text
            (Arrival.writes_and_closes 0 version_chunk)
            Samples.posix true 1000 Samples.first_try None init
            ((Chunk <$> []) ++ End :: [])
  = Some [].
Proof.
  destruct (run (world_of (new Samples.posix 1000
                             (defaults (getYTDLPFilePath Samples.posix None)
                                ["--version"%string]) Samples.first_try init))
                (Arrival.writes_and_closes 0 version_chunk)) as [w1|] eqn:Hrun;
    [|vm_compute in Hrun; discriminate].
  destruct (getYTDLPVersion_first_text ascii_text Samples.posix true 1000
              Samples.first_try None init 0%nat
              (Arrival.writes_and_closes 0 version_chunk) w1 [] version_chunk [])
    as (t & _ & _ & _ & H2 & _).
  - apply reachable_init.
  - intros i. reflexivity.
  - reflexivity.
  - exact Hrun.
  - constructor.
  - discriminate.
  - rewrite H2. split; reflexivity.
Defined.





End ArrivalFacts.
